(** * pyMoth: the connectivity builder [initializeConnectionMatrices]

    A shallow embedding of [support_functions/connect_mat.py].  The
    builder receives the parameter object [mP], draws from numpy's global
    random generator and assigns the derived matrices to [mP] in place.

    - numpy floats are [num]: exact rationals plus the IEEE special values
      that division by zero creates (rounding and the sign of zero are not
      modelled);
    - a numpy array is its shape and its C-order buffer ([ndarray]);
    - [mP] is a finite map from attribute names to values; it is shared
      with the caller, so an exception leaves it as mutated so far;
    - the random generator is a tape of draws with a cursor. *)

From Stdlib Require Import QArith Qround Qminmax Qpower ZArith Lia List.
From stdpp Require Import gmap strings list.

Open Scope string_scope.

(** ** Floating-point values *)

Inductive num := Fin (q : Q) | PInf | NInf | NaN.

Definition of_bool (b : bool) : num := Fin (if b then 1 else 0)%Q.

Definition inf_of (c : comparison) : num :=
  match c with Gt => PInf | Lt => NInf | Eq => NaN end.

Definition nsign (x : num) : comparison :=
  match x with Fin q => (q ?= 0)%Q | PInf => Gt | NInf => Lt | NaN => Eq end.

Definition sign_mul (a b : comparison) : comparison :=
  match a, b with
  | Eq, _ | _, Eq => Eq
  | Gt, c | c, Gt => c
  | Lt, Lt => Gt
  end.

Definition nadd (x y : num) : num :=
  match x, y with
  | NaN, _ | _, NaN => NaN
  | Fin a, Fin b => Fin (a + b)%Q
  | PInf, NInf | NInf, PInf => NaN
  | PInf, _ | _, PInf => PInf
  | NInf, _ | _, NInf => NInf
  end.

Definition nopp (x : num) : num :=
  match x with Fin q => Fin (- q)%Q | PInf => NInf | NInf => PInf | NaN => NaN end.

Definition nsub (x y : num) : num := nadd x (nopp y).

Definition nmul (x y : num) : num :=
  match x, y with
  | NaN, _ | _, NaN => NaN
  | Fin a, Fin b => Fin (a * b)%Q
  | _, _ => inf_of (sign_mul (nsign x) (nsign y))
  end.

(** numpy's true division: [x/0] is [nan] for [x = 0] and an infinity
    otherwise, with a warning and no exception. *)
Definition ndiv (x y : num) : num :=
  match x, y with
  | NaN, _ | _, NaN => NaN
  | Fin a, Fin b => if Qeq_bool b 0 then inf_of (a ?= 0)%Q else Fin (a / b)%Q
  | Fin _, _ => Fin 0%Q
  | _, Fin b => inf_of (sign_mul (nsign x) (if Qeq_bool b 0 then Gt else (b ?= 0)%Q))
  | _, _ => NaN
  end.

Definition ncompare (x y : num) : option comparison :=
  match x, y with
  | NaN, _ | _, NaN => None
  | Fin a, Fin b => Some (a ?= b)%Q
  | PInf, PInf | NInf, NInf => Some Eq
  | PInf, _ | _, NInf => Some Gt
  | NInf, _ | _, PInf => Some Lt
  end.

Definition nlt (x y : num) : bool :=
  match ncompare x y with Some Lt => true | _ => false end.

Definition ngt (x y : num) : bool := nlt y x.

Definition neqb (x y : num) : bool :=
  match ncompare x y with Some Eq => true | _ => false end.

(** [np.maximum]: the larger operand, [nan] if either is. *)
Definition nmaximum (x y : num) : num :=
  match x, y with
  | NaN, _ | _, NaN => NaN
  | Fin a, Fin b => Fin (Qmax a b)
  | PInf, _ | _, PInf => PInf
  | NInf, z | z, NInf => z
  end.

Definition is_zero (x : num) : Prop :=
  match x with Fin q => (q == 0)%Q | _ => False end.

Definition nonneg (x : num) : Prop :=
  match x with Fin q => (0 <= q)%Q | PInf => True | _ => False end.

Definition finite (x : num) : Prop :=
  match x with Fin _ => True | _ => False end.

Definition nonzero (x : num) : bool := negb (neqb x (Fin 0%Q)).

(** ** Arrays *)

Record ndarray := NdArray { shape : list nat; data : list num }.

Definition numel (sh : list nat) : nat := fold_right Nat.mul 1%nat sh.

Definition full (sh : list nat) (v : num) : ndarray :=
  NdArray sh (repeat v (numel sh)).

Definition zeros (sh : list nat) : ndarray := full sh (Fin 0%Q).
Definition ones (sh : list nat) : ndarray := full sh (Fin 1%Q).

Definition nrows (a : ndarray) : nat := nth 0 (shape a) 0%nat.
Definition ncols (a : ndarray) : nat := nth 1 (shape a) 1%nat.

Definition get2 (a : ndarray) (i j : nat) : num :=
  nth (i * ncols a + j) (data a) NaN.

Definition set2 (a : ndarray) (i j : nat) (v : num) : ndarray :=
  NdArray (shape a) (<[(i * ncols a + j)%nat := v]> (data a)).

(** The C-order buffer of the [r] by [c] matrix with entries [f i j]. *)
Definition tabulate2 (r c : nat) (f : nat → nat → num) : list num :=
  flat_map (fun i => map (fun j => f i j) (seq 0 c)) (seq 0 r).

(** Elementwise operations between a scalar and an array, and between two
    arrays of one shape. *)
Definition amap (f : num → num) (a : ndarray) : ndarray :=
  NdArray (shape a) (map f (data a)).

Definition azip (f : num → num → num) (a b : ndarray) : ndarray :=
  NdArray (shape a) (zip_with f (data a) (data b)).

Definition scale (c : Q) (a : ndarray) : ndarray := amap (nmul (Fin c)) a.
Definition shift (c : Q) (a : ndarray) : ndarray := amap (nadd (Fin c)) a.
Definition clamp0 (a : ndarray) : ndarray := amap (nmaximum (Fin 0%Q)) a.

(** [r.rand(...) < p]: a boolean array, held as 0/1 (numpy promotes it so
    in every later product). *)
Definition below (p : num) (a : ndarray) : ndarray :=
  amap (fun x => of_bool (nlt x p)) a.

(** [a[a > c] = c] *)
Definition cap (c : Q) (a : ndarray) : ndarray :=
  amap (fun x => if ngt x (Fin c) then Fin c else x) a.

(** [a[a > c] = 0] *)
Definition zero_above (c : Q) (a : ndarray) : ndarray :=
  amap (fun x => if ngt x (Fin c) then Fin 0%Q else x) a.

(** [np.tile(v, (1, n))] for a column [v] of shape [(r, 1)]. *)
Definition tile_cols (v : ndarray) (n : nat) : ndarray :=
  NdArray [nrows v; n] (flat_map (fun x => repeat x n) (data v)).

(** [a.T] *)
Definition transpose (a : ndarray) : ndarray :=
  let r := nrows a in let c := ncols a in
  NdArray [c; r] (tabulate2 c r (fun j i => get2 a i j)).

(** [m * v] for [m] of shape [(r, c)] and a row [v] of shape [(1, c)],
    which numpy broadcasts over the rows of [m]. *)
Definition mul_rows (m v : ndarray) : ndarray :=
  NdArray (shape m)
    (tabulate2 (nrows m) (ncols m) (fun i j => nmul (get2 m i j) (get2 v 0 j))).

Definition nsum (l : list num) : num := fold_left nadd l (Fin 0%Q).

Definition row (a : ndarray) (i : nat) : list num :=
  take (ncols a) (drop (i * ncols a) (data a)).

(** [a.sum(axis=1)], a 1-d array. *)
Definition sum_axis1 (a : ndarray) : ndarray :=
  NdArray [nrows a] (map (fun i => nsum (row a i)) (seq 0 (nrows a))).

(** [v.reshape(-1, 1)] of a 1-d array. *)
Definition as_column (v : ndarray) : ndarray :=
  NdArray [length (data v); 1%nat] (data v).

(** [np.matmul(a, b)] *)
Definition matmul (a b : ndarray) : ndarray :=
  NdArray [nrows a; ncols b]
    (tabulate2 (nrows a) (ncols b) (fun i j =>
       nsum (map (fun k => nmul (get2 a i k) (get2 b k j)) (seq 0 (ncols a))))).

(** [np.diag(np.diag(a))]: the diagonal of [a], zero elsewhere. *)
Definition diag_part (a : ndarray) : ndarray :=
  NdArray (shape a)
    (tabulate2 (nrows a) (ncols a)
       (fun i j => if (i =? j)%nat then get2 a i j else Fin 0%Q)).

(** [a.flatten()]: the C-order buffer as a 1-d array. *)
Definition flatten (a : ndarray) : ndarray :=
  NdArray [length (data a)] (data a).

(** The elements of [a] in Fortran order: a 1-d array as it is, a 2-d
    array column by column. *)
Definition ravel_F (a : ndarray) : list num :=
  match shape a with
  | [r; c] => map (fun k => get2 a (k mod r) (k / r)) (seq 0 (r * c))
  | _ => data a
  end.

(** [a.reshape((n, m), order="F")]: read in Fortran order, fill column by
    column. *)
Definition reshape_F (a : ndarray) (n m : nat) : ndarray :=
  let src := ravel_F a in
  NdArray [n; m] (tabulate2 n m (fun i j => nth (i + j * n) src NaN)).

Fixpoint count_if (p : num → bool) (l : list num) : nat :=
  match l with
  | [] => 0
  | x :: l' => (if p x then 1 else 0) + count_if p l'
  end.

(** ** Decimal arithmetic

    The builder sets [getcontext().prec = 4]: a [Decimal] quotient is the
    exact quotient rounded half-even to four significant digits.  Division
    by zero raises (the traps are enabled by default). *)

Definition round_half_even (q : Q) : Z :=
  let f := Qfloor q in
  match (q - inject_Z f ?= 1 # 2)%Q with
  | Lt => f
  | Gt => (f + 1)%Z
  | Eq => if Z.even f then f else (f + 1)%Z
  end.

(** Bring a positive [x] into [[1000, 10000)], tracking the exponent. *)
Fixpoint scale_up (fuel : nat) (x : Q) (e : Z) : Q * Z :=
  match fuel with
  | O => (x, e)
  | S f => if Qle_bool 1000 x then (x, e) else scale_up f (10 * x)%Q (e - 1)%Z
  end.

Fixpoint scale_down (fuel : nat) (x : Q) (e : Z) : Q * Z :=
  match fuel with
  | O => (x, e)
  | S f => if Qle_bool 10000 x then scale_down f (x / 10)%Q (e + 1)%Z else (x, e)
  end.

Definition round4_pos (x : Q) : Q :=
  let '(y, e) := scale_up (Pos.size_nat (Qden x) + 4) x 0 in
  let '(z, e') := scale_down (Pos.size_nat (Z.to_pos (Qnum x))) y e in
  (inject_Z (round_half_even z) * Qpower 10 e')%Q.

Definition decimal_round (q : Q) : Q :=
  let q := Qred q in
  match (q ?= 0)%Q with
  | Eq => 0%Q
  | Gt => round4_pos q
  | Lt => (- round4_pos (- q))%Q
  end.

(** ** The random generator

    numpy's global generator, as a tape for each kind of draw and one
    cursor that every draw advances: [uniform] feeds [r.rand] (values in
    [[0,1)]), [gauss] feeds [r.normal(0,1,..)], [integer] feeds
    [np.random.randint] and [std_gamma k] feeds [np.random.gamma(k, ..)]. *)

Record RandomState := {
  uniform : nat → Q;
  gauss : nat → Q;
  integer : nat → nat;
  std_gamma : Q → nat → Q;
  cursor : nat
}.

Definition advance (rs : RandomState) (n : nat) : RandomState :=
  {| uniform := uniform rs; gauss := gauss rs; integer := integer rs;
     std_gamma := std_gamma rs; cursor := cursor rs + n |}.

Definition draws (f : nat → Q) (rs : RandomState) (n : nat) : list num :=
  map (fun i => Fin (f (cursor rs + i)%nat)) (seq 0 n).

(** ** The parameter object and the builder's monad *)

Inductive value := VInt (z : Z) | VFloat (q : Q) | VBool (b : bool) | VArr (a : ndarray).

Abbreviation store := (gmap string value).

Inductive exn :=
  | AttributeError (name : string)
  | TypeError
  | ValueError (msg : string)
  | ZeroDivisionError
  | DivisionByZero
  | InvalidOperation.

(** A run either returns, or raises; in both cases [mP] is the caller's
    object as mutated so far. *)
Inductive result (A : Type) :=
  | Ok (a : A) (mP : store) (rs : RandomState)
  | Raise (e : exn) (mP : store) (rs : RandomState).
Arguments Ok {A} a mP rs.
Arguments Raise {A} e mP rs.

Definition M (A : Type) : Type := store → RandomState → result A.

Definition ret {A} (a : A) : M A := fun s r => Ok a s r.
Definition raise {A} (e : exn) : M A := fun s r => Raise e s r.
Definition bind {A B} (m : M A) (k : A → M B) : M B :=
  fun s r => match m s r with
             | Ok a s' r' => k a s' r'
             | Raise e s' r' => Raise e s' r'
             end.

Notation "x <- m ;; k" := (bind m (fun x => k))
  (at level 100, m at level 99, k at level 200, right associativity).
Notation "m ;; k" := (bind m (fun _ => k))
  (at level 100, k at level 200, right associativity).

Fixpoint for_ {A} (l : list A) (body : A → M unit) : M unit :=
  match l with
  | [] => ret tt
  | x :: l' => body x ;; for_ l' body
  end.

Fixpoint foldM {A B} (body : B → A → M B) (l : list A) (b : B) : M B :=
  match l with
  | [] => ret b
  | x :: l' => b' <- body b x ;; foldM body l' b'
  end.

Definition attr (k : string) : M value :=
  fun s r => match s !! k with
             | Some v => Ok v s r
             | None => Raise (AttributeError k) s r
             end.

Definition setattr (k : string) (v : value) : M unit :=
  fun s r => Ok tt (<[k := v]> s) r.

(** A field of the wrong kind is outside the builder's input type; the
    model rejects it with [TypeError] at the read. *)
Definition num_of (v : value) : option Q :=
  match v with
  | VInt z => Some (inject_Z z)
  | VFloat q => Some q
  | VBool b => Some (if b then 1 else 0)%Q
  | VArr _ => None
  end.

Definition int_of (v : value) : option Z :=
  match v with
  | VInt z => Some z
  | VBool b => Some (if b then 1 else 0)%Z
  | _ => None
  end.

Definition lift {A} (o : option A) : M A :=
  match o with Some a => ret a | None => raise TypeError end.

Definition getnum (k : string) : M Q := v <- attr k ;; lift (num_of v).
Definition getint (k : string) : M Z := v <- attr k ;; lift (int_of v).
Definition getarr (k : string) : M ndarray :=
  v <- attr k ;; lift (match v with VArr a => Some a | _ => None end).

(** A population size used as an array dimension. *)
Definition dim (k : string) : M nat :=
  z <- getint k ;;
  if (z <? 0)%Z then raise (ValueError "negative dimensions are not allowed")
  else ret (Z.to_nat z).

Definition truthy (v : value) : M bool :=
  match v with
  | VInt z => ret (negb (z =? 0)%Z)
  | VFloat q => ret (negb (Qeq_bool q 0))
  | VBool b => ret b
  | VArr a => match data a with
              | [x] => ret (nonzero x)
              | _ => raise (ValueError "truth value of an array is ambiguous")
              end
  end.

(** [r.rand(d0, d1)] and [r.normal(0, 1, shape)] *)
Definition rand (sh : list nat) : M ndarray :=
  fun s r => Ok (NdArray sh (draws (uniform r) r (numel sh))) s (advance r (numel sh)).

Definition normal (sh : list nat) : M ndarray :=
  fun s r => Ok (NdArray sh (draws (gauss r) r (numel sh))) s (advance r (numel sh)).

(** [np.random.randint(n)]: an integer in [[0, n)]; [n = 0] is rejected. *)
Definition randint (n : nat) : M nat :=
  fun s r => match n with
             | O => Raise (ValueError "high <= 0") s r
             | _ => Ok (integer r (cursor r) mod n)%nat s (advance r 1)
             end.

(** [np.random.gamma(a, scale=b, size=sh)]: numpy rejects a negative shape
    or scale; a sample is [b] times a standard gamma sample of shape [a]. *)
Definition gamma (a b : Q) (sh : list nat) : M ndarray :=
  if Qlt_le_dec a 0 then raise (ValueError "shape < 0")
  else if Qlt_le_dec b 0 then raise (ValueError "scale < 0")
  else fun s r =>
    Ok (scale b (NdArray sh (draws (std_gamma r a) r (numel sh)))) s (advance r (numel sh)).

(** [Decimal(x) / Decimal(y)] *)
Definition decimal_div (x y : Q) : exn + Q :=
  if Qeq_bool y 0 then
    if Qeq_bool x 0 then inl InvalidOperation else inl DivisionByZero
  else inr (decimal_round (x / y)).

Definition lift_exn {A} (x : exn + A) : M A :=
  match x with inl e => raise e | inr a => ret a end.

(** ** The builder, statement by statement

    [mP.nG] and the other sizes are never assigned by the builder, so a
    statement that reads one several times reads it once here. *)

Definition as_dim (v : value) : M nat :=
  z <- lift (int_of v) ;;
  if (z <? 0)%Z then raise (ValueError "negative dimensions are not allowed")
  else ret (Z.to_nat z).

(** The shape [(mP.k, 1)] *)
Definition column (k : string) : M (list nat) :=
  v <- attr k ;; n <- as_dim v ;; ret [n; 1%nat].

(** The shape [(mP.k1, mP.k2)] *)
Definition matrix (k1 k2 : string) : M (list nat) :=
  v1 <- attr k1 ;; v2 <- attr k2 ;;
  n1 <- as_dim v1 ;; n2 <- as_dim v2 ;; ret [n1; n2].

(** [range(mP.k)] *)
Definition range (k : string) : M (list nat) :=
  z <- getint k ;; ret (seq 0 (Z.to_nat z)).

(** [mP.base + mP.sd * r.normal(0, 1, size)] *)
Definition noisy (base sd : string) (size : M (list nat)) : M ndarray :=
  c <- getnum base ;; s <- getnum sd ;; sh <- size ;; z <- normal sh ;;
  ret (shift c (scale s z)).

(** lines 31-41, the branch behind [makeFeaturesOrthogonalFlag]: at the
    first row with more than one active entry, [r.rand(1, c)] is handed the
    index array [c] as a dimension, which numpy rejects. *)
Definition orthogonalize : M unit :=
  b <- getarr "F2Rbinary" ;;
  rows <- range "nR" ;;
  for_ rows (fun i =>
    if nlt (Fin 1) (nsum (row b i)) then raise TypeError else ret tt) ;;
  setattr "F2Rbinary" (VArr b).

(** lines 51-54, one assignment of the round-robin: pick a source row
    with spare capacity and connect it to column [j]. *)
Definition capacity_step (maxFperR : Z) (nR : nat) (counts : list Z) (j : nat)
  : M (list Z) :=
  let inds := List.filter (fun i => (nth i counts 0 <? maxFperR)%Z) (seq 0 nR) in
  a <- randint (length inds) ;;
  let t := nth a inds 0%nat in
  b <- getarr "F2Rbinary" ;;
  setattr "F2Rbinary" (VArr (set2 b t j (Fin 1))) ;;
  ret (<[t := (nth t counts 0 + 1)%Z]> counts).

(** lines 44-54 *)
Definition capacity_mask : M unit :=
  sh <- matrix "nR" "nF" ;;
  setattr "F2Rbinary" (VArr (zeros sh)) ;;
  nR <- dim "nR" ;;
  let counts := repeat 0%Z nR in
  f <- getnum "nF" ;; k <- getnum "RperFRawNum" ;; n <- getnum "nR" ;;
  (if Qeq_bool n 0 then raise ZeroDivisionError else ret tt) ;;
  let maxFperR := Qceiling (f * k / n) in
  rounds <- range "RperFRawNum" ;;
  foldM (fun counts _ =>
           cols <- range "nF" ;;
           foldM (capacity_step maxFperR nR) cols counts)
        rounds counts ;;
  ret tt.

(** lines 28-54 *)
Definition stage_F2Rbinary : M unit :=
  mode <- getnum "RperFFrMu" ;;
  if Qlt_le_dec 0 mode then
    sh <- matrix "nR" "nF" ;;
    u <- rand sh ;;
    p <- getnum "RperSFrMu" ;;
    setattr "F2Rbinary" (VArr (below (Fin p) u)) ;;
    flag <- attr "makeFeaturesOrthogonalFlag" ;;
    t <- truthy flag ;;
    if t then orthogonalize else ret tt
  else capacity_mask.

(** lines 57-60 *)
Definition stage_F2R : M unit :=
  b <- getarr "F2Rbinary" ;;
  rand_mat <- normal (shape b) ;;
  mu <- getnum "F2Rmu" ;;
  b1 <- getarr "F2Rbinary" ;;
  sd <- getnum "F2Rstd" ;;
  b2 <- getarr "F2Rbinary" ;;
  setattr "F2R" (VArr (azip nmul (azip nadd (scale mu b1) (scale sd rand_mat)) b2)) ;;
  w <- getarr "F2R" ;;
  setattr "F2R" (VArr (clamp0 w)).

(** The two [Decimal] quotients of the gamma sampler:
    [a = Decimal(m)/Decimal(s)] and [b = Decimal(m)/a]. *)
Definition gamma_params (m s : Q) : exn + (Q * Q) :=
  match decimal_div m s with
  | inl e => inl e
  | inr a => match decimal_div m a with
             | inl e => inl e
             | inr b => inr (a, b)
             end
  end.

(** lines 68-70, 213-215, 219-221, 225-227:
    [np.random.gamma(a, scale=b, size=(mP.size, 1))] *)
Definition gamma_vector (mean std size : string) : M ndarray :=
  m <- getnum mean ;; s <- getnum std ;;
  ab <- lift_exn (gamma_params m s) ;;
  sh <- column size ;;
  gamma (fst ab) (snd ab) sh.

(** lines 63-71 *)
Definition stage_Rspont : M unit :=
  flag <- getnum "spontRdistFlag" ;;
  if Qeq_bool flag 1 then
    mu <- getnum "spontRmu" ;; sh <- column "nG" ;;
    sd <- getnum "spontRstd" ;; sh' <- column "nG" ;; z <- normal sh' ;;
    setattr "Rspont" (VArr (azip nadd (scale mu (ones sh)) (scale sd z))) ;;
    w <- getarr "Rspont" ;;
    setattr "Rspont" (VArr (clamp0 w))
  else
    g <- gamma_vector "spontRmu" "spontRstd" "nG" ;;
    base <- getnum "spontRbase" ;;
    setattr "Rspont" (VArr (shift base g)).

(** lines 74-82 *)
Definition stage_R2 : M unit :=
  mu <- getnum "R2Gmu" ;; sh <- column "nG" ;;
  sd <- getnum "R2Gstd" ;; sh' <- column "nG" ;; z <- normal sh' ;;
  setattr "R2G" (VArr (azip nadd (scale mu (ones sh)) (scale sd z))) ;;
  x <- noisy "R2Pmult" "R2Pstd" (column "nG") ;; g <- getarr "R2G" ;;
  setattr "R2P" (VArr (azip nmul x g)) ;;
  x <- noisy "R2Lmult" "R2Lstd" (column "nG") ;; g <- getarr "R2G" ;;
  setattr "R2L" (VArr (azip nmul x g)) ;;
  x <- noisy "R2PImult" "R2PIstd" (column "nG") ;; g <- getarr "R2G" ;;
  setattr "R2PIcol" (VArr (azip nmul x g)).

(** line 98: [L2G[(L2G > 0) & (randList == 1)] = 0] *)
Definition kill (w randList : ndarray) : ndarray :=
  azip (fun x t => if ngt x (Fin 0) && neqb t (Fin 1) then Fin 0%Q else x) w randList.

(** line 93: the zeros of [L2G], less the [nG] on the diagonal *)
Definition numZero (w : ndarray) (nG : Z) : Z :=
  (Z.of_nat (count_if (fun x => neqb x (Fin 0)) (data (flatten w))) - nG)%Z.

(** line 94 *)
Definition numToKill (w : ndarray) (nG : Z) (fr : Q) : Z :=
  Qfloor ((1 - fr) * inject_Z (nG ^ 2 - nG) - inject_Z (numZero w nG)).

(** line 97: the threshold the uniform draws are compared with *)
Definition kill_prob (w : ndarray) (nG : Z) (fr : Q) : num :=
  ndiv (Fin (inject_Z (numToKill w nG fr)))
       (Fin (inject_Z (nG ^ 2 - nG - numZero w nG))).

(** lines 88-100 *)
Definition stage_L2G : M unit :=
  x <- noisy "L2Gmu" "L2Gstd" (matrix "nG" "nG") ;;
  setattr "L2G" (VArr x) ;;
  w <- getarr "L2G" ;;
  setattr "L2G" (VArr (clamp0 w)) ;;
  w <- getarr "L2G" ;;
  setattr "L2G" (VArr (azip nsub w (diag_part w))) ;;
  w0 <- getarr "L2G" ;; nG <- getint "nG" ;;
  fr <- getnum "L2Gfr" ;;
  (if (0 <? numToKill w0 nG fr)%Z then
     w <- getarr "L2G" ;;
     setattr "L2G" (VArr (flatten w)) ;;
     w <- getarr "L2G" ;;
     u <- rand (shape w) ;;
     let randList := below (kill_prob w0 nG fr) u in
     w <- getarr "L2G" ;;
     setattr "L2G" (VArr (kill w randList))
   else ret tt) ;;
  w <- getarr "L2G" ;;
  setattr "L2G" (VArr (reshape_F w (Z.to_nat nG) (Z.to_nat nG))).

(** [np.maximum(0, mP.base + mP.sd * r.normal(0,1,(nG,nG))) * L2GgabaSens] *)
Definition lateral (base sd : string) (L2GgabaSens : ndarray) : M ndarray :=
  x <- noisy base sd (matrix "nG" "nG") ;;
  ret (azip nmul (clamp0 x) L2GgabaSens).

(** lines 107-118 *)
Definition stage_L2 : M unit :=
  gabaSens <- noisy "GsensMu" "GsensStd" (column "nG") ;;
  w <- getarr "L2G" ;; nG <- dim "nG" ;;
  let L2GgabaSens := azip nmul w (tile_cols gabaSens nG) in
  w <- getarr "L2G" ;; c <- getnum "GsensMu" ;;
  setattr "L2G" (VArr (amap (fun x => nmul x (Fin c)) w)) ;;
  x <- lateral "L2Rmult" "L2Rstd" L2GgabaSens ;; setattr "L2R" (VArr x) ;;
  x <- lateral "L2Pmult" "L2Pstd" L2GgabaSens ;; setattr "L2P" (VArr x) ;;
  x <- lateral "L2Lmult" "L2Lstd" L2GgabaSens ;; setattr "L2L" (VArr x) ;;
  x <- lateral "L2Lmult" "L2PIstd" L2GgabaSens ;; setattr "L2PI" (VArr x).

(** lines 122-128; [P2KconnMatrix] is a local, returned here. *)
Definition stage_P2K : M ndarray :=
  sh <- matrix "nK" "nP" ;; u <- rand sh ;; p <- getnum "KperPfrMu" ;;
  let P2KconnMatrix := below (Fin p) u in
  x <- noisy "P2Kmu" "P2Kstd" (matrix "nK" "nP") ;;
  setattr "P2K" (VArr (clamp0 x)) ;;
  w <- getarr "P2K" ;;
  setattr "P2K" (VArr (azip nmul w P2KconnMatrix)) ;;
  c <- getnum "hebMaxPK" ;; w <- getarr "P2K" ;;
  setattr "P2K" (VArr (cap c w)) ;;
  ret P2KconnMatrix.

(** line 146: divide every row by its sum *)
Definition normalize_rows (w : ndarray) : ndarray :=
  azip ndiv w (tile_cols (as_column (sum_axis1 w)) (ncols w)).

(** lines 143-152 *)
Definition stage_G2PI : M unit :=
  sh <- matrix "nPI" "nG" ;; u <- rand sh ;; p <- getnum "GperPIfrMu" ;;
  setattr "G2PIconn" (VArr (below (Fin p) u)) ;;
  sd <- getnum "G2PIstd" ;; sh <- matrix "nPI" "nG" ;; z <- normal sh ;;
  mu <- getnum "G2PImu" ;;
  setattr "G2PI" (VArr (clamp0 (amap (fun x => nadd x (Fin mu)) (scale sd z)))) ;;
  w <- getarr "G2PI" ;; m <- getarr "G2PIconn" ;;
  setattr "G2PI" (VArr (azip nmul w m)) ;;
  w <- getarr "G2PI" ;;
  setattr "G2PI" (VArr (normalize_rows w)) ;;
  w <- getarr "G2PI" ;; l <- getarr "L2G" ;;
  setattr "L2PI" (VArr (matmul w l)) ;;
  w <- getarr "G2PI" ;; c <- getarr "R2PIcol" ;;
  setattr "R2PI" (VArr (mul_rows w (transpose c))).

(** lines 157-161 *)
Definition stage_PI2K : M unit :=
  n <- getnum "nPI" ;;
  if Qlt_le_dec 0 n then
    sh <- matrix "nK" "nPI" ;; u <- rand sh ;; p <- getnum "KperPIfrMu" ;;
    setattr "PI2Kconn" (VArr (below (Fin p) u)) ;;
    x <- noisy "PI2Kmu" "PI2Kstd" (matrix "nK" "nPI") ;;
    setattr "PI2K" (VArr (clamp0 x)) ;;
    w <- getarr "PI2K" ;; m <- getarr "PI2Kconn" ;;
    setattr "PI2K" (VArr (azip nmul w m)) ;;
    c <- getnum "hebMaxPIK" ;; w <- getarr "PI2K" ;;
    setattr "PI2K" (VArr (cap c w))
  else ret tt.

(** lines 172-177 *)
Definition stage_K2E : M unit :=
  sh <- matrix "nE" "nK" ;; u <- rand sh ;; p <- getnum "KperEfrMu" ;;
  setattr "K2EconnMatrix" (VArr (below (Fin p) u)) ;;
  x <- noisy "K2Emu" "K2Estd" (matrix "nE" "nK") ;;
  setattr "K2E" (VArr (clamp0 x)) ;;
  w <- getarr "K2E" ;; m <- getarr "K2EconnMatrix" ;;
  setattr "K2E" (VArr (azip nmul w m)) ;;
  c <- getnum "hebMaxKE" ;; w <- getarr "K2E" ;;
  setattr "K2E" (VArr (cap c w)).

(** [np.maximum(0, mP.mult*mP.octo2G + mP.sd*r.normal(0,1,(nG,1)))] *)
Definition octo_of_G (mult sd : string) : M ndarray :=
  c <- getnum mult ;; g <- getarr "octo2G" ;;
  s <- getnum sd ;; sh <- column "nG" ;; z <- normal sh ;;
  ret (clamp0 (azip nadd (scale c g) (scale s z))).

(** lines 182-201 *)
Definition stage_octo : M unit :=
  x <- noisy "octo2Gmu" "octo2Gstd" (column "nG") ;; setattr "octo2G" (VArr (clamp0 x)) ;;
  x <- noisy "octo2Kmu" "octo2Kstd" (column "nK") ;; setattr "octo2K" (VArr (clamp0 x)) ;;
  x <- octo_of_G "octo2Pmult" "octo2Pstd" ;; setattr "octo2P" (VArr x) ;;
  x <- octo_of_G "octo2Lmult" "octo2Lstd" ;; setattr "octo2L" (VArr x) ;;
  x <- octo_of_G "octo2Rmult" "octo2Rstd" ;; setattr "octo2R" (VArr x) ;;
  w <- getarr "G2PI" ;; c <- getnum "octo2PImult" ;; g <- getarr "octo2G" ;;
  setattr "octo2PIwts" (VArr (mul_rows w (scale c (transpose g)))) ;;
  t <- getarr "octo2PIwts" ;; m <- getarr "G2PIconn" ;;
  setattr "octo2PI" (VArr (azip ndiv (sum_axis1 t) (sum_axis1 m))) ;;
  x <- noisy "octo2Emu" "octo2Estd" (column "nE") ;; setattr "octo2E" (VArr (clamp0 x)).

(** lines 209-229 *)
Definition stage_noise : M unit :=
  x <- noisy "noisePI" "PInoiseStd" (column "nPI") ;; setattr "noisePIvec" (VArr (clamp0 x)) ;;
  x <- noisy "noiseK" "KnoiseStd" (column "nK") ;; setattr "noiseKvec" (VArr (clamp0 x)) ;;
  x <- noisy "noiseE" "EnoiseStd" (column "nE") ;; setattr "noiseEvec" (VArr (clamp0 x)) ;;
  g <- gamma_vector "noiseR" "RnoiseStd" "nR" ;; setattr "noiseRvec" (VArr g) ;;
  w <- getarr "noiseRvec" ;; setattr "noiseRvec" (VArr (zero_above 15 w)) ;;
  g <- gamma_vector "noiseP" "PnoiseStd" "nR" ;; setattr "noisePvec" (VArr g) ;;
  w <- getarr "noisePvec" ;; setattr "noisePvec" (VArr (zero_above 15 w)) ;;
  g <- gamma_vector "noiseL" "LnoiseStd" "nG" ;; setattr "noiseLvec" (VArr g) ;;
  x <- noisy "kGlobalDampFactor" "kGlobalDampStd" (column "nK") ;;
  setattr "kGlobalDampVec" (VArr x).

(** The builder returns [mP] itself: the model is the final store. *)
Definition initializeConnectionMatrices : M unit :=
  stage_F2Rbinary ;;
  stage_F2R ;;
  stage_Rspont ;;
  stage_R2 ;;
  stage_L2G ;;
  stage_L2 ;;
  stage_P2K ;;
  stage_G2PI ;;
  stage_PI2K ;;
  stage_K2E ;;
  stage_octo ;;
  stage_noise.

(** ** Notions used in the statements *)

Definition final_store {A} (x : result A) : store :=
  match x with Ok _ s _ | Raise _ s _ => s end.

Definition returns {A} (x : result A) : Prop :=
  match x with Ok _ _ _ => True | Raise _ _ _ => False end.

Definition raised {A} (x : result A) : option exn :=
  match x with Ok _ _ _ => None | Raise e _ _ => Some e end.

(** A size that has been read as a dimension. *)
Definition is_dim (s : store) (k : string) (n : nat) : Prop :=
  ∃ v z, s !! k = Some v ∧ int_of v = Some z ∧ (0 ≤ z)%Z ∧ n = Z.to_nat z.

Definition has_num (s : store) (k : string) (q : Q) : Prop :=
  ∃ v, s !! k = Some v ∧ num_of v = Some q.

(** The draws the next [normal] and [rand] calls return. *)
Definition gauss_draws (r : RandomState) (sh : list nat) : ndarray :=
  NdArray sh (draws (gauss r) r (numel sh)).

Definition uniform_draws (r : RandomState) (sh : list nat) : ndarray :=
  NdArray sh (draws (uniform r) r (numel sh)).

Definition array_at (s : store) (k : string) : option ndarray :=
  match s !! k with Some (VArr a) => Some a | _ => None end.

(** ** A small parameter object and a generator to run the builder on *)

Definition example_fields : list (string * value) :=
  [ ("nR", VInt 2); ("nF", VInt 2); ("nG", VInt 3); ("nK", VInt 2);
    ("nP", VInt 3); ("nPI", VInt 1); ("nE", VInt 1);
    ("RperFFrMu", VFloat 0); ("RperSFrMu", VFloat (1 # 2)); ("RperFRawNum", VInt 2);
    ("F2Rmu", VFloat 1); ("F2Rstd", VFloat 0);
    ("spontRdistFlag", VInt 2); ("spontRmu", VFloat 9); ("spontRstd", VFloat 3);
    ("spontRbase", VFloat 0);
    ("R2Gmu", VFloat 1); ("R2Gstd", VFloat 0);
    ("R2Pmult", VFloat 1); ("R2Pstd", VFloat 0);
    ("R2Lmult", VFloat 1); ("R2Lstd", VFloat 0);
    ("R2PImult", VFloat 1); ("R2PIstd", VFloat 0);
    ("L2Gmu", VFloat 1); ("L2Gstd", VFloat 0); ("L2Gfr", VFloat (1 # 2));
    ("GsensMu", VFloat 1); ("GsensStd", VFloat 0);
    ("L2Rmult", VFloat 1); ("L2Rstd", VFloat 0);
    ("L2Pmult", VFloat 1); ("L2Pstd", VFloat 0);
    ("L2Lmult", VFloat 1); ("L2Lstd", VFloat 0); ("L2PIstd", VFloat 0);
    ("KperPfrMu", VFloat 1); ("P2Kmu", VFloat 1); ("P2Kstd", VFloat 0);
    ("hebMaxPK", VFloat 5);
    ("GperPIfrMu", VFloat 1); ("G2PIstd", VFloat 0); ("G2PImu", VFloat 1);
    ("KperPIfrMu", VFloat 1); ("PI2Kmu", VFloat 1); ("PI2Kstd", VFloat 0);
    ("hebMaxPIK", VFloat 5);
    ("KperEfrMu", VFloat 1); ("K2Emu", VFloat 1); ("K2Estd", VFloat 0);
    ("hebMaxKE", VFloat 5);
    ("octo2Gmu", VFloat 1); ("octo2Gstd", VFloat 0);
    ("octo2Kmu", VFloat 1); ("octo2Kstd", VFloat 0);
    ("octo2Pmult", VFloat 1); ("octo2Pstd", VFloat 0);
    ("octo2Lmult", VFloat 1); ("octo2Lstd", VFloat 0);
    ("octo2Rmult", VFloat 1); ("octo2Rstd", VFloat 0);
    ("octo2PImult", VFloat 1); ("octo2Emu", VFloat 1); ("octo2Estd", VFloat 0);
    ("noisePI", VFloat 1); ("PInoiseStd", VFloat 0);
    ("noiseK", VFloat 1); ("KnoiseStd", VFloat 0);
    ("noiseE", VFloat 1); ("EnoiseStd", VFloat 0);
    ("noiseR", VFloat 4); ("RnoiseStd", VFloat 2);
    ("noiseP", VFloat 4); ("PnoiseStd", VFloat 2);
    ("noiseL", VFloat 4); ("LnoiseStd", VFloat 2);
    ("kGlobalDampFactor", VFloat 1); ("kGlobalDampStd", VFloat 1) ].

Definition example_mP : store := list_to_map example_fields.

(** Every uniform draw is 0.9, every Gaussian draw is -2, every standard
    gamma draw is 1, and the [i]-th raw integer is [i]. *)
Definition example_rs : RandomState :=
  {| uniform := fun _ => (9 # 10)%Q; gauss := fun _ => (- 2)%Q;
     integer := fun i => i; std_gamma := fun _ _ => 1%Q; cursor := 0 |}.

(** The model the builder returns on the example. *)
Definition example_model : store :=
  final_store (initializeConnectionMatrices example_mP example_rs).

(** Variants of the example. *)
Definition mP_std0 : store := <["RnoiseStd" := VFloat 0]> example_mP.
Definition mP_no_conn : store := <["GperPIfrMu" := VFloat 0]> example_mP.
Definition mP_prob : store := <["RperFFrMu" := VFloat 1]> example_mP.

(** ** The claims of the specification that the code does not meet *)

(** Fill ratio: the off-diagonal non-zero count of [L2G] within one of
    [round(f * (N^2 - N))]. *)
Definition round_nearest (q : Q) : Z := Qfloor (q + (1 # 2)).

Definition meets_fill_target (f : Q) (n : nat) (a : ndarray) : Prop :=
  (Z.abs (Z.of_nat (count_if nonzero (data a))
          - round_nearest (f * inject_Z (Z.of_nat (n * n - n)))) ≤ 1)%Z.

(** Moment matching: shape [(m/s)^2] and scale [s^2/m]. *)
Definition moment_matched (m s : Q) (ab : Q * Q) : Prop :=
  (fst ab == (m / s) ^ 2 ∧ snd ab == s ^ 2 / m)%Q.

(** All entries of the array at attribute [k] are non-negative. *)
Definition all_nonneg (s : store) (k : string) : Prop :=
  ∃ a, s !! k = Some (VArr a) ∧ Forall nonneg (data a).

(** No model, not even a partial one: the run raises and [mP] is as the
    caller passed it. *)
Definition aborts_entirely (s : store) (r : RandomState) : Prop :=
  ∃ e r', initializeConnectionMatrices s r = Raise e s r'.

(** The number of active entries in column [j] of a 0/1 mask. *)
Definition column_ones (a : ndarray) (j : nat) : nat :=
  count_if nonzero (map (fun i => get2 a i j) (seq 0 (nrows a))).

(** A run that leaves the attribute [k] of [mP] as it was. *)
Definition keeps (k : string) {A} (m : M A) : Prop :=
  ∀ s r, final_store (m s r) !! k = s !! k.

(** A value that a [Decimal] of four significant digits holds exactly. *)
Definition exact4 (q : Q) : Prop := (decimal_round q == q)%Q.

(** Some gamma-sampled vector has a non-positive std: one of the three
    noise vectors, or [Rspont] when its gamma branch is taken. *)
Definition nonpositive_gamma_std (s : store) : Prop :=
  (∃ k q, k ∈ ["RnoiseStd"; "PnoiseStd"; "LnoiseStd"] ∧ has_num s k q ∧ (q <= 0)%Q) ∨
  (∃ f q, has_num s "spontRdistFlag" f ∧ ¬ (f == 1)%Q ∧
          has_num s "spontRstd" q ∧ (q <= 0)%Q).

(** Sums over an index range, for counting entries. *)
Fixpoint sum_to (n : nat) (f : nat → nat) : nat :=
  match n with
  | O => 0
  | S m => sum_to m f + f m
  end.

Definition ind (b : bool) : nat := if b then 1 else 0.

(** Positions at which a predicate on two aligned buffers holds. *)
Fixpoint count2 (p : num → num → bool) (l t : list num) : nat :=
  match l, t with
  | x :: l', y :: t' => ind (p x y) + count2 p l' t'
  | _, _ => 0
  end.

(** lines 88-90: [L2G] with the negative draws and the diagonal zeroed,
    before the correction. *)
Definition L2G_raw (mu sd : Q) (n : nat) (r : RandomState) : ndarray :=
  let c := clamp0 (shift mu (scale sd (gauss_draws r [n; n]))) in
  azip nsub c (diag_part c).

(** lines 93-100 on [w0], the matrix of lines 88-90; [r1] is the generator
    after the Gaussian draws. *)
Definition L2G_sparse (w0 : ndarray) (n : nat) (fr : Q) (r1 : RandomState) : ndarray :=
  if (0 <? numToKill w0 (Z.of_nat n) fr)%Z then
    reshape_F (kill (flatten w0)
                 (below (kill_prob w0 (Z.of_nat n) fr)
                        (uniform_draws r1 (shape (flatten w0))))) n n
  else reshape_F w0 n n.

(** The entries the correction removes: the positive ones whose own uniform
    draw is below the threshold. *)
Definition removed_by_draws (w0 : ndarray) (n : nat) (fr : Q) (r1 : RandomState) : nat :=
  if (0 <? numToKill w0 (Z.of_nat n) fr)%Z then
    count2 (fun x u => ngt x (Fin 0) && nlt u (kill_prob w0 (Z.of_nat n) fr))
           (data w0) (data (uniform_draws r1 (shape (flatten w0))))
  else 0%nat.

(** A square matrix with no self-connection. *)
Definition zero_diagonal (n : nat) (a : ndarray) : Prop :=
  shape a = [n; n] ∧ ∀ i, (i < n)%nat → is_zero (get2 a i i).

(** The array at attribute [k] holds no [nan] and no infinity. *)
Definition finite_at (s : store) (k : string) : Prop :=
  ∃ a, s !! k = Some (VArr a) ∧ Forall finite (data a).

(** The attributes the builder assigns. *)
Definition derived_fields : list string :=
  [ "F2Rbinary"; "F2R"; "Rspont"; "R2G"; "R2P"; "R2L"; "R2PIcol";
    "L2G"; "L2R"; "L2P"; "L2L"; "L2PI"; "P2K"; "G2PIconn"; "G2PI"; "R2PI";
    "PI2Kconn"; "PI2K"; "K2EconnMatrix"; "K2E";
    "octo2G"; "octo2K"; "octo2P"; "octo2L"; "octo2R"; "octo2PIwts"; "octo2PI";
    "octo2E"; "noisePIvec"; "noiseKvec"; "noiseEvec"; "noiseRvec"; "noisePvec";
    "noiseLvec"; "kGlobalDampVec" ].

(** No entry of the array at [k] is above [c]. *)
Definition all_at_most (s : store) (k : string) (c : Q) : Prop :=
  ∃ a, s !! k = Some (VArr a) ∧ Forall (fun x => ngt x (Fin c) = false) (data a).

(** A 0/1 mask. *)
Definition is_mask (a : ndarray) : Prop :=
  Forall (fun x => x = Fin 0 ∨ x = Fin 1) (data a).

(** The number of active entries in row [i] of a 0/1 mask. *)
Definition row_ones (a : ndarray) (i : nat) : nat := count_if nonzero (row a i).

Definition sumZ (l : list Z) : Z := fold_right Z.add 0%Z l.

(** line 47, [np.ceil(mP.nF*mP.RperFRawNum/mP.nR)], for sizes [c], [k], [n] *)
Definition maxFperR (c k n : nat) : Z :=
  Qceiling (inject_Z (Z.of_nat c) * inject_Z (Z.of_nat k) / inject_Z (Z.of_nat n)).

(** The state of the round-robin (lines 49-54) before the assignment for
    column [j] in round [i]: [counts] sums to the assignments made, bounds
    the active entries of each row and stays within the capacity; column
    [j'] has at most one active entry per round it has been served in, and
    at least one once it has been served. *)
Definition round_robin_inv (n c : nat) (mx : Z) (i j : nat)
    (counts : list Z) (b : ndarray) : Prop :=
  length counts = n ∧ shape b = [n; c] ∧ length (data b) = (n * c)%nat ∧ is_mask b ∧
  sumZ counts = Z.of_nat (i * c + j) ∧
  (∀ t, (t < n)%nat →
     (Z.of_nat (sum_to c (fun j' => ind (nonzero (get2 b t j')))) ≤ nth t counts 0 ≤ mx)%Z) ∧
  (∀ j', (j' < c)%nat →
     (sum_to n (fun t => ind (nonzero (get2 b t j'))) ≤ i + ind (j' <? j))%nat) ∧
  (∀ j', (j' < c)%nat → (0 < i)%nat ∨ (j' < j)%nat →
     ∃ t, (t < n)%nat ∧ get2 b t j' = Fin 1).

(** The example with no source row. *)
Definition mP_no_rows : store := <["nR" := VInt 0]> example_mP.

(** line 98 on one entry: a positive weight whose uniform draw [u] is below
    the threshold [p] is set to zero. *)
Definition killed (x : num) (u : Q) (p : num) : num :=
  if ngt x (Fin 0) && nlt (Fin u) p then Fin 0%Q else x.

(** The example with no PI. *)
Definition mP_no_PI : store := <["nPI" := VInt 0]> example_mP.

Definition is_one (x : num) : Prop :=
  match x with Fin q => (q == 1)%Q | _ => False end.

(** A row of a normalized matrix: its entries sum to one, or they are all
    [nan]. *)
Definition unit_or_nan (l : list num) : Prop :=
  is_one (nsum l) ∨ Forall (fun x => x = NaN) l.

(** A statement that returns only when [mP] has the attribute [k]. *)
Definition needs (k : string) {A} (m : M A) : Prop :=
  ∀ s r a s' r', m s r = Ok a s' r' → is_Some (s !! k).

(** The inputs the builder reads on every path, stage by stage. *)
Definition required_inputs : list string :=
  [ "RperFFrMu"; "nR"; "nF";
    "F2Rmu"; "F2Rstd";
    "spontRdistFlag"; "spontRmu"; "spontRstd"; "nG";
    "R2Gmu"; "R2Gstd"; "R2Pmult"; "R2Pstd"; "R2Lmult"; "R2Lstd"; "R2PImult"; "R2PIstd";
    "L2Gmu"; "L2Gstd"; "L2Gfr";
    "GsensMu"; "GsensStd"; "L2Rmult"; "L2Rstd"; "L2Pmult"; "L2Pstd"; "L2Lmult";
    "L2Lstd"; "L2PIstd";
    "nK"; "nP"; "KperPfrMu"; "P2Kmu"; "P2Kstd"; "hebMaxPK";
    "nPI"; "GperPIfrMu"; "G2PIstd"; "G2PImu";
    "nE"; "KperEfrMu"; "K2Emu"; "K2Estd"; "hebMaxKE";
    "octo2Gmu"; "octo2Gstd"; "octo2Kmu"; "octo2Kstd"; "octo2Pmult"; "octo2Pstd";
    "octo2Lmult"; "octo2Lstd"; "octo2Rmult"; "octo2Rstd"; "octo2PImult";
    "octo2Emu"; "octo2Estd";
    "noisePI"; "PInoiseStd"; "noiseK"; "KnoiseStd"; "noiseE"; "EnoiseStd";
    "noiseR"; "RnoiseStd"; "noiseP"; "PnoiseStd"; "noiseL"; "LnoiseStd";
    "kGlobalDampFactor"; "kGlobalDampStd" ].

(** A value that an [if] takes as true. *)
Definition is_true (v : value) : Prop := ∀ s r, truthy v s r = Ok true s r.

(** line 36, [row.sum() > 1], for some row of the mask *)
Definition crowded_row (b : ndarray) (n : nat) : bool :=
  existsb (fun i => nlt (Fin 1) (nsum (row b i))) (seq 0 n).

(** The probabilistic mode with the flag set. *)
Definition mP_flag : store := <["makeFeaturesOrthogonalFlag" := VBool true]> mP_prob.

(** An array whose buffer has the length its shape asks for. *)
Definition well_shaped (a : ndarray) : Prop := length (data a) = numel (shape a).

(** The weights [w] have the shape of the mask [m] and are zero wherever
    the mask is. *)
Definition zero_where_masked (m w : ndarray) : Prop :=
  shape w = shape m ∧
  Forall2 (fun x y => is_zero x → is_zero y) (data m) (data w).

(** The attributes [km] and [kw] of a model hold a mask and weights that
    respect it. *)
Definition respects_mask (s : store) (km kw : string) : Prop :=
  ∃ m w, s !! km = Some (VArr m) ∧ s !! kw = Some (VArr w) ∧ zero_where_masked m w.

(** The PI matrices as lines 150, 152, 196 and 198 derive them from other
    attributes of the same model. *)
Definition PI_matrices_derived (s : store) (octo2PImult : Q) : Prop :=
  ∃ G2PI L2G R2PIcol octo2G G2PIconn octo2PIwts,
    s !! "G2PI" = Some (VArr G2PI) ∧ s !! "L2G" = Some (VArr L2G) ∧
    s !! "R2PIcol" = Some (VArr R2PIcol) ∧ s !! "octo2G" = Some (VArr octo2G) ∧
    s !! "G2PIconn" = Some (VArr G2PIconn) ∧
    s !! "L2PI" = Some (VArr (matmul G2PI L2G)) ∧
    s !! "R2PI" = Some (VArr (mul_rows G2PI (transpose R2PIcol))) ∧
    s !! "octo2PIwts" = Some (VArr octo2PIwts) ∧
    octo2PIwts = mul_rows G2PI (scale octo2PImult (transpose octo2G)) ∧
    s !! "octo2PI"
      = Some (VArr (azip ndiv (sum_axis1 octo2PIwts) (sum_axis1 G2PIconn))).

(** * The pixel selection of [selectActivePixels] (selectPix.py, lines 43-61)

    The selection works on [this = cA[:, :-1]], the class averages: one row
    per pixel, one column per class, finite values.  [thisLogical] is the
    0/1 array of line 45, held as booleans. *)

Definition averages := list (list Q).

(** [np.sort(l)[::-1]]: in descending order. *)
Fixpoint insert_desc (x : Q) (l : list Q) : list Q :=
  match l with
  | [] => [x]
  | y :: l' => if Qle_bool y x then x :: l else y :: insert_desc x l'
  end.

Definition sort_desc (l : list Q) : list Q := fold_right insert_desc [] l.

(** [vals.max()], which numpy refuses on an empty array. *)
Definition max_of (vals : list Q) : option Q :=
  match vals with
  | [] => None
  | x :: l => Some (fold_left Qmax l x)
  end.

(** line 54: [thisLogical[this >= thresh] = 1] *)
Definition mark (this : averages) (thresh : Q) (thisLogical : list (list bool))
  : list (list bool) :=
  zip_with (zip_with (fun x l => Qle_bool thresh x || l)) this thisLogical.

(** line 55: [thisLogical.sum(axis=1)] *)
Definition row_sums (thisLogical : list (list bool)) : list nat :=
  map (fun row => length (List.filter (fun b : bool => b) row)) thisLogical.

(** line 57: [(activePixels > 0).sum()] *)
Definition num_active (activePixels : list nat) : nat :=
  length (List.filter (fun a => (0 <? a)%nat) activePixels).

(** line 61: [np.nonzero(activePixels > 0)[0]] *)
Definition nonzero_inds (activePixels : list nat) : list nat :=
  List.filter (fun i => (0 <? nth i activePixels 0)%nat) (seq 0 (length activePixels)).

(** lines 52-59, the [while] loop; every turn removes the maximum from
    [vals], so [fuel] above the length of [vals] is never used up. *)
Fixpoint select_loop (fuel : nat) (this : averages) (numFeatures : Z)
    (thisLogical : list (list bool)) (vals : list Q) : option (exn + list nat) :=
  match fuel with
  | O => None
  | S fuel' =>
      match max_of vals with
      | None => Some (inl (ValueError "zero-size array to reduction operation maximum which has no identity"))
      | Some thresh =>
          let thisLogical' := mark this thresh thisLogical in
          let activePixels := row_sums thisLogical' in
          let stop := (numFeatures <=? Z.of_nat (num_active activePixels))%Z in
          let vals' := List.filter (fun v => negb (Qle_bool thresh v)) vals in
          if stop then Some (inr (nonzero_inds activePixels))
          else select_loop fuel' this numFeatures thisLogical' vals'
      end
  end.

(** lines 43-61 on the class averages [this] *)
Definition selectActivePixels (this : averages) (numFeatures : Z)
  : option (exn + list nat) :=
  let thisLogical := map (map (fun _ : Q => false)) this in
  let vals := sort_desc (concat this) in
  select_loop (S (length vals)) this numFeatures thisLogical vals.

(** The pixels with a class average of at least [t], in ascending order. *)
Definition pixels_at_least (this : averages) (t : Q) : list nat :=
  List.filter (fun i => existsb (Qle_bool t) (nth i this [])) (seq 0 (length this)).

(** The pixels that have a class average at all. *)
Definition pixels_with_values (this : averages) : list nat :=
  List.filter (fun i => match nth i this [] with [] => false | _ => true end)
              (seq 0 (length this)).

(** A threshold that is no upper bound yet ([None]) or the last one used. *)
Definition above (p : option Q) (x : Q) : bool :=
  match p with None => false | Some p => Qle_bool p x end.

(** Class averages of three pixels in two classes. *)
Definition example_averages : averages := [[1; 5]; [3; 2]; [0; 0]]%Q.

(** * Properties *)

(** ** Reasoning about runs *)

Lemma bind_Ok {A B} (m : M A) (k : A → M B) s r b s' r' :
  bind m k s r = Ok b s' r' →
  ∃ a s1 r1, m s r = Ok a s1 r1 ∧ k a s1 r1 = Ok b s' r'.
Proof.
  unfold bind. destruct (m s r) as [a s1 r1|]; [|discriminate].
  intros H. by exists a, s1, r1.
Qed.

Lemma lift_Ok {A} (o : option A) s r a s' r' :
  lift o s r = Ok a s' r' → s' = s ∧ r' = r ∧ o = Some a.
Proof. destruct o; unfold lift, ret, raise; intros H; by simplify_eq. Qed.

Lemma lift_exn_Ok {A} (x : exn + A) s r a s' r' :
  lift_exn x s r = Ok a s' r' → s' = s ∧ r' = r ∧ x = inr a.
Proof. destruct x; unfold lift_exn, ret, raise; intros H; by simplify_eq. Qed.

Lemma attr_Ok k s r v s' r' :
  attr k s r = Ok v s' r' → s' = s ∧ r' = r ∧ s !! k = Some v.
Proof. unfold attr. destruct (s !! k); intros H; by simplify_eq. Qed.

Lemma getnum_Ok k s r q s' r' :
  getnum k s r = Ok q s' r' → s' = s ∧ r' = r ∧ has_num s k q.
Proof.
  unfold getnum. intros (v & s1 & r1 & H1 & H2)%bind_Ok.
  apply attr_Ok in H1 as (-> & -> & ?). apply lift_Ok in H2 as (-> & -> & ?).
  repeat split. by exists v.
Qed.

Lemma getint_Ok k s r z s' r' :
  getint k s r = Ok z s' r' →
  s' = s ∧ r' = r ∧ ∃ v, s !! k = Some v ∧ int_of v = Some z.
Proof.
  unfold getint. intros (v & s1 & r1 & H1 & H2)%bind_Ok.
  apply attr_Ok in H1 as (-> & -> & ?). apply lift_Ok in H2 as (-> & -> & ?). eauto.
Qed.

Lemma getarr_Ok k s r a s' r' :
  getarr k s r = Ok a s' r' → s' = s ∧ r' = r ∧ s !! k = Some (VArr a).
Proof.
  unfold getarr. intros (v & s1 & r1 & H1 & H2)%bind_Ok.
  apply attr_Ok in H1 as (-> & -> & ?). apply lift_Ok in H2 as (-> & -> & ?).
  destruct v; by simplify_eq.
Qed.

Lemma as_dim_Ok v s r n s' r' :
  as_dim v s r = Ok n s' r' →
  s' = s ∧ r' = r ∧ ∃ z, int_of v = Some z ∧ (0 ≤ z)%Z ∧ n = Z.to_nat z.
Proof.
  unfold as_dim. intros (z & s1 & r1 & H1 & H2)%bind_Ok.
  apply lift_Ok in H1 as (-> & -> & ?).
  destruct (z <? 0)%Z eqn:E; unfold ret, raise in H2; simplify_eq.
  apply Z.ltb_ge in E. repeat split. by exists z.
Qed.

Lemma dim_Ok k s r n s' r' :
  dim k s r = Ok n s' r' → s' = s ∧ r' = r ∧ is_dim s k n.
Proof.
  unfold dim. intros (z & s1 & r1 & H1 & H2)%bind_Ok.
  apply getint_Ok in H1 as (-> & -> & v & ? & ?).
  destruct (z <? 0)%Z eqn:E; unfold ret, raise in H2; simplify_eq.
  apply Z.ltb_ge in E. repeat split. by exists v, z.
Qed.

Lemma column_Ok k s r sh s' r' :
  column k s r = Ok sh s' r' →
  s' = s ∧ r' = r ∧ ∃ n, sh = [n; 1%nat] ∧ is_dim s k n.
Proof.
  unfold column. intros (v & s1 & r1 & H1 & (n & s2 & r2 & H2 & H3)%bind_Ok)%bind_Ok.
  apply attr_Ok in H1 as (-> & -> & ?).
  apply as_dim_Ok in H2 as (-> & -> & z & ? & ? & ->).
  unfold ret in H3. simplify_eq. repeat split. eexists. split; [done|]. by exists v, z.
Qed.

Lemma matrix_Ok k1 k2 s r sh s' r' :
  matrix k1 k2 s r = Ok sh s' r' →
  s' = s ∧ r' = r ∧ ∃ n1 n2, sh = [n1; n2] ∧ is_dim s k1 n1 ∧ is_dim s k2 n2.
Proof.
  unfold matrix.
  intros (v1 & ? & ? & H1 & (v2 & ? & ? & H2 &
    (n1 & ? & ? & H3 & (n2 & ? & ? & H4 & H5)%bind_Ok)%bind_Ok)%bind_Ok)%bind_Ok.
  apply attr_Ok in H1 as (-> & -> & ?). apply attr_Ok in H2 as (-> & -> & ?).
  apply as_dim_Ok in H3 as (-> & -> & z1 & ? & ? & ->).
  apply as_dim_Ok in H4 as (-> & -> & z2 & ? & ? & ->).
  unfold ret in H5. simplify_eq. repeat split.
  eexists _, _. split; [done|]. split; [by exists v1, z1 | by exists v2, z2].
Qed.

Lemma is_dim_fun s k n m : is_dim s k n → is_dim s k m → n = m.
Proof. intros (? & ? & ? & ? & ? & ->) (? & ? & ? & ? & ? & ->). by simplify_eq. Qed.

Lemma has_num_fun s k p q : has_num s k p → has_num s k q → p = q.
Proof. intros (? & ? & ?) (? & ? & ?). by simplify_eq. Qed.

Lemma noisy_column_Ok base sd k s r x s' r' :
  noisy base sd (column k) s r = Ok x s' r' →
  s' = s ∧ ∃ c d n, has_num s base c ∧ has_num s sd d ∧ is_dim s k n ∧
    r' = advance r (numel [n; 1%nat]) ∧ x = shift c (scale d (gauss_draws r [n; 1%nat])).
Proof.
  unfold noisy.
  intros (c & ? & ? & H1 & (d & ? & ? & H2 &
    (sh & ? & ? & H3 & (z & ? & ? & H4 & H5)%bind_Ok)%bind_Ok)%bind_Ok)%bind_Ok.
  apply getnum_Ok in H1 as (-> & -> & ?). apply getnum_Ok in H2 as (-> & -> & ?).
  apply column_Ok in H3 as (-> & -> & n & -> & ?).
  unfold normal in H4. unfold ret in H5. simplify_eq.
  split; [done|]. by exists c, d, n.
Qed.

Lemma noisy_matrix_Ok base sd k1 k2 s r x s' r' :
  noisy base sd (matrix k1 k2) s r = Ok x s' r' →
  s' = s ∧ ∃ c d n1 n2, has_num s base c ∧ has_num s sd d ∧
    is_dim s k1 n1 ∧ is_dim s k2 n2 ∧
    r' = advance r (numel [n1; n2]) ∧ x = shift c (scale d (gauss_draws r [n1; n2])).
Proof.
  unfold noisy.
  intros (c & ? & ? & H1 & (d & ? & ? & H2 &
    (sh & ? & ? & H3 & (z & ? & ? & H4 & H5)%bind_Ok)%bind_Ok)%bind_Ok)%bind_Ok.
  apply getnum_Ok in H1 as (-> & -> & ?). apply getnum_Ok in H2 as (-> & -> & ?).
  apply matrix_Ok in H3 as (-> & -> & n1 & n2 & -> & ? & ?).
  unfold normal in H4. unfold ret in H5. simplify_eq.
  split; [done|]. by exists c, d, n1, n2.
Qed.

Lemma has_num_insert s k k' v q :
  k' ≠ k → has_num (<[k' := v]> s) k q ↔ has_num s k q.
Proof. intros Hne. unfold has_num. by rewrite lookup_insert_ne. Qed.

Lemma is_dim_insert s k k' v n :
  k' ≠ k → is_dim (<[k' := v]> s) k n ↔ is_dim s k n.
Proof. intros Hne. unfold is_dim. by rewrite lookup_insert_ne. Qed.

(** A run step by step: [step H] splits the first statement off a run
    [H : (x <- m ;; k) s r = Ok _ _ _] and inverts it. *)
Ltac clean_lookup H :=
  repeat first [ rewrite lookup_insert_eq in H
               | rewrite lookup_insert_ne in H by discriminate
               | rewrite has_num_insert in H by discriminate
               | rewrite is_dim_insert in H by discriminate
               | match goal with
                 | Hw : ?m !! ?k = Some _ |- _ =>
                     tryif constr_eq Hw H then fail else
                     lazymatch type of H with
                     | m !! k = _ => rewrite Hw in H
                     end
                 end ].

(** Two reads of one attribute return one value: [same_dim Hn] replaces
    the other sizes read from the attribute of [Hn] by the one of [Hn]. *)
Ltac same_dim Hn :=
  repeat match goal with
    | H2 : is_dim ?s ?k ?m |- _ =>
        lazymatch type of Hn with
        | is_dim s k ?n =>
            tryif constr_eq m n then fail else
              (is_var m; pose proof (is_dim_fun _ _ _ _ Hn H2); subst m; clear H2)
        end
    end.

Ltac same_num Hq :=
  repeat match goal with
    | H2 : has_num ?s ?k ?m |- _ =>
        lazymatch type of Hq with
        | has_num s k ?q =>
            tryif constr_eq m q then fail else
              (is_var m; pose proof (has_num_fun _ _ _ _ Hq H2); subst m; clear H2)
        end
    end.

Ltac invert_read H :=
  first
    [ apply getarr_Ok in H as (-> & -> & H); clean_lookup H;
      try (injection H as <-)
    | apply getnum_Ok in H as (-> & -> & H); clean_lookup H
    | apply getint_Ok in H as (-> & -> & ? & H & ?); clean_lookup H
    | apply attr_Ok in H as (-> & -> & H); clean_lookup H
    | apply dim_Ok in H as (-> & -> & H); clean_lookup H
    | apply column_Ok in H as (-> & -> & ? & -> & H); clean_lookup H
    | apply matrix_Ok in H as (-> & -> & ? & ? & -> & H & ?)
    | apply noisy_column_Ok in H as (-> & H)
    | apply noisy_matrix_Ok in H as (-> & H)
    | apply lift_Ok in H as (-> & -> & H)
    | apply lift_exn_Ok in H as (-> & -> & H)
    | (unfold normal, rand, setattr, ret in H; injection H as <- <- <-) ].

Ltac step H :=
  match type of H with
  | bind _ _ _ _ = Ok _ _ _ =>
      let a := fresh "a" in let s1 := fresh "s" in let r1 := fresh "r" in
      let H1 := fresh "H" in
      apply bind_Ok in H as (a & s1 & r1 & H1 & H);
      try invert_read H1
  end.

Ltac finish H :=
  unfold setattr, ret in H; injection H as <- <-.

(** ** Which attributes a run leaves alone *)

Lemma keeps_ret k {A} (a : A) : keeps k (ret a).
Proof. by intros s r. Qed.

Lemma keeps_raise k {A} e : keeps k (@raise A e).
Proof. by intros s r. Qed.

Lemma keeps_bind k {A B} (m : M A) (f : A → M B) :
  keeps k m → (∀ a, keeps k (f a)) → keeps k (bind m f).
Proof.
  intros Hm Hf s r. unfold bind. specialize (Hm s r).
  destruct (m s r) as [a s1 r1|]; [|done].
  rewrite Hf. exact Hm.
Qed.

Lemma keeps_attr k k' : keeps k (attr k').
Proof. intros s r. unfold attr. by destruct (s !! k'). Qed.

Lemma keeps_lift k {A} (o : option A) : keeps k (lift o).
Proof. by destruct o. Qed.

Lemma keeps_lift_exn k {A} (x : exn + A) : keeps k (lift_exn x).
Proof. by destruct x. Qed.

Lemma keeps_setattr k k' v : k' ≠ k → keeps k (setattr k' v).
Proof. intros Hne s r. simpl. by rewrite lookup_insert_ne. Qed.

Lemma keeps_rand k sh : keeps k (rand sh).
Proof. by intros s r. Qed.

Lemma keeps_normal k sh : keeps k (normal sh).
Proof. by intros s r. Qed.

Lemma keeps_randint k n : keeps k (randint n).
Proof. intros s r. by destruct n. Qed.

Lemma keeps_gamma k a b sh : keeps k (gamma a b sh).
Proof. intros s r. unfold gamma. by repeat destruct (Qlt_le_dec _ _). Qed.

Lemma keeps_truthy k v : keeps k (truthy v).
Proof. intros s r. destruct v as [| | |[sh [|x [|]]]]; done. Qed.

Lemma keeps_for_ k {A} (l : list A) body :
  (∀ x, keeps k (body x)) → keeps k (for_ l body).
Proof.
  intros Hb. induction l as [|x l IH]; simpl; [apply keeps_ret|].
  apply keeps_bind; auto.
Qed.

Lemma keeps_foldM k {A B} (body : B → A → M B) l b :
  (∀ b x, keeps k (body b x)) → keeps k (foldM body l b).
Proof.
  intros Hb. revert b. induction l as [|x l IH]; intros b; simpl; [apply keeps_ret|].
  apply keeps_bind; auto.
Qed.

Ltac keeps_step :=
  lazymatch goal with
  | |- keeps _ (bind _ _) => apply keeps_bind; [|intros ?]
  | |- keeps _ (ret _) => apply keeps_ret
  | |- keeps _ (raise _) => apply keeps_raise
  | |- keeps _ (attr _) => apply keeps_attr
  | |- keeps _ (lift _) => apply keeps_lift
  | |- keeps _ (lift_exn _) => apply keeps_lift_exn
  | |- keeps _ (setattr _ _) => apply keeps_setattr; discriminate
  | |- keeps _ (rand _) => apply keeps_rand
  | |- keeps _ (normal _) => apply keeps_normal
  | |- keeps _ (randint _) => apply keeps_randint
  | |- keeps _ (gamma _ _ _) => apply keeps_gamma
  | |- keeps _ (truthy _) => apply keeps_truthy
  | |- keeps _ (for_ _ _) => apply keeps_for_; intros ?
  | |- keeps _ (foldM _ _ _) => apply keeps_foldM; intros ? ?
  | |- keeps _ (if ?b then _ else _) => destruct b
  | |- keeps _ (match ?x with _ => _ end) => destruct x
  | |- keeps _ ?m => let h := head_of m in unfold h
  end
with head_of m :=
  lazymatch m with
  | ?f _ => head_of f
  | _ => m
  end.

Ltac keeps_tac := repeat keeps_step.

Lemma keeps_after k {A B} (m : M A) (f : A → M B) s r a s1 r1 b s' r' :
  m s r = Ok a s1 r1 → f a s1 r1 = Ok b s' r' → keeps k (f a) → s' !! k = s1 !! k.
Proof. intros _ Hf Hk. specialize (Hk s1 r1). by rewrite Hf in Hk. Qed.

Lemma keeps_Ok k {A} (m : M A) s r a s' r' :
  keeps k m → m s r = Ok a s' r' → s' !! k = s !! k.
Proof. intros Hk Hm. specialize (Hk s r). by rewrite Hm in Hk. Qed.

(** Running a statement forwards. *)
Lemma bind_run {A B} (m : M A) (k : A → M B) s r a s1 r1 :
  m s r = Ok a s1 r1 → bind m k s r = k a s1 r1.
Proof. unfold bind. by intros ->. Qed.

Lemma bind_raise {A B} (m : M A) (k : A → M B) s r e s1 r1 :
  m s r = Raise e s1 r1 → bind m k s r = Raise e s1 r1.
Proof. unfold bind. by intros ->. Qed.

Lemma attr_run k s r v : s !! k = Some v → attr k s r = Ok v s r.
Proof. unfold attr. by intros ->. Qed.

Lemma getnum_run k s r q : has_num s k q → getnum k s r = Ok q s r.
Proof.
  intros (v & Hv & Hq). unfold getnum.
  rewrite (bind_run _ _ _ _ _ _ _ (attr_run _ _ _ _ Hv)). by rewrite Hq.
Qed.

Lemma as_dim_run v s r z :
  int_of v = Some z → (0 ≤ z)%Z → as_dim v s r = Ok (Z.to_nat z) s r.
Proof.
  intros Hz Hpos. unfold as_dim. rewrite Hz. unfold bind, lift, ret.
  by destruct (Z.ltb_spec z 0); [lia|].
Qed.

Lemma matrix_run k1 k2 s r n1 n2 :
  is_dim s k1 n1 → is_dim s k2 n2 → matrix k1 k2 s r = Ok [n1; n2] s r.
Proof.
  intros (v1 & z1 & H1 & Hz1 & ? & ->) (v2 & z2 & H2 & Hz2 & ? & ->). unfold matrix.
  rewrite (bind_run _ _ _ _ _ _ _ (attr_run _ _ _ _ H1)).
  rewrite (bind_run _ _ _ _ _ _ _ (attr_run _ _ _ _ H2)).
  rewrite (bind_run _ _ _ _ _ _ _ (as_dim_run _ _ _ _ Hz1 ltac:(done))).
  by rewrite (bind_run _ _ _ _ _ _ _ (as_dim_run _ _ _ _ Hz2 ltac:(done))).
Qed.

Lemma not_Ok_raises {A} (x : result A) :
  (∀ a s r, x ≠ Ok a s r) → ∃ e s r, x = Raise e s r.
Proof. destruct x as [a s r|e s r]; [intros H; by destruct (H a s r) | eauto]. Qed.

(** ** The probabilistic mask mode (lines 28-41) *)

(** C10: with [RperFFrMu > 0] and no attribute [makeFeaturesOrthogonalFlag],
    the builder raises and returns no model; when the mask can be drawn (the
    sizes [nR], [nF] and the probability [RperSFrMu] are there), the error
    is the [AttributeError] for the flag, raised right after [F2Rbinary] has
    been assigned, and the mask keeps the uniform draws that fall below
    [RperSFrMu] (not [RperFFrMu], which only selects the mode). *)
Theorem probabilistic_mode_needs_flag (s : store) (r : RandomState) (q : Q) :
  has_num s "RperFFrMu" q → (0 < q)%Q →
  s !! "makeFeaturesOrthogonalFlag" = None →
  (∃ e s' r', initializeConnectionMatrices s r = Raise e s' r') ∧
  (∀ nR nF p,
     is_dim s "nR" nR → is_dim s "nF" nF → has_num s "RperSFrMu" p →
     initializeConnectionMatrices s r =
       Raise (AttributeError "makeFeaturesOrthogonalFlag")
             (<["F2Rbinary" := VArr (below (Fin p) (uniform_draws r [nR; nF]))]> s)
             (advance r (numel [nR; nF]))).
Proof.
  intros Hmode Hpos Hflag. split.
  - apply not_Ok_raises. intros [] s' r' H.
    unfold initializeConnectionMatrices in H. step H.
    unfold stage_F2Rbinary in H0. step H0.
    rewrite (has_num_fun _ _ _ _ H1 Hmode) in H0.
    destruct (Qlt_le_dec 0 q) as [_|Hle]; [|by apply Qle_not_lt in Hle].
    do 5 step H0. congruence.
  - intros nR nF p HnR HnF Hp.
    unfold initializeConnectionMatrices. apply bind_raise.
    unfold stage_F2Rbinary.
    rewrite (bind_run _ _ _ _ _ _ _ (getnum_run _ _ r _ Hmode)).
    destruct (Qlt_le_dec 0 q) as [_|Hle]; [|by apply Qle_not_lt in Hle].
    rewrite (bind_run _ _ _ _ _ _ _ (matrix_run _ _ _ r _ _ HnR HnF)).
    unfold bind at 1. unfold rand at 1.
    rewrite (bind_run _ _ _ _ _ _ _ (getnum_run _ _ _ _ Hp)).
    unfold bind, setattr, attr.
    by rewrite lookup_insert_ne, Hflag.
Qed.

Lemma probabilistic_mode_needs_flag_witness :
  has_num mP_prob "RperFFrMu" 1 ∧ (0 < 1)%Q ∧
  mP_prob !! "makeFeaturesOrthogonalFlag" = None ∧
  (∃ e s' r', initializeConnectionMatrices mP_prob example_rs = Raise e s' r') ∧
  (∀ nR nF p,
     is_dim mP_prob "nR" nR → is_dim mP_prob "nF" nF → has_num mP_prob "RperSFrMu" p →
     initializeConnectionMatrices mP_prob example_rs =
       Raise (AttributeError "makeFeaturesOrthogonalFlag")
             (<["F2Rbinary" := VArr (below (Fin p) (uniform_draws example_rs [nR; nF]))]> mP_prob)
             (advance example_rs (numel [nR; nF]))).
Proof.
  assert (H1 : has_num mP_prob "RperFFrMu" 1) by (exists (VFloat 1); split; reflexivity).
  assert (H2 : (0 < 1)%Q) by reflexivity.
  assert (H3 : mP_prob !! "makeFeaturesOrthogonalFlag" = None) by reflexivity.
  split; [exact H1|]. split; [exact H2|]. split; [exact H3|].
  exact (probabilistic_mode_needs_flag mP_prob example_rs 1 H1 H2 H3).
Defined.

(** ** The builder on the examples *)

Lemma returns_Ok {A} (x : result A) : returns x → ∃ a s r, x = Ok a s r.
Proof. destruct x as [a s r|]; [eauto | intros []]. Qed.

Lemma example_returns : returns (initializeConnectionMatrices example_mP example_rs).
Proof. vm_compute. exact I. Qed.

(** C8: [noisePvec] is drawn with [size=(mP.nR, 1)] (line 221).  On the
    example, with [nP = 3] and [nR = 2], the builder returns and the noise
    vector of the P population has shape [(2, 1)], the size of R. *)
Theorem noisePvec_sized_by_nR :
  returns (initializeConnectionMatrices example_mP example_rs) ∧
  is_dim example_mP "nP" 3 ∧ is_dim example_mP "nR" 2 ∧
  shape <$> array_at example_model "noisePvec" = Some [2; 1]%nat.
Proof.
  split; [exact example_returns|].
  split; [by exists (VInt 3), 3%Z|].
  split; [by exists (VInt 2), 2%Z|].
  vm_compute. reflexivity.
Qed.

(** C3: line 146 divides every row of [G2PI] by its sum, whatever the sum.
    With [GperPIfrMu = 0] the mask [G2PIconn] selects nothing, the only row
    sums to zero, and the builder returns with that row of [G2PI] all
    [nan]. *)
Theorem zero_row_normalized_to_nan :
  returns (initializeConnectionMatrices mP_no_conn example_rs) ∧
  array_at (final_store (initializeConnectionMatrices mP_no_conn example_rs)) "G2PIconn"
    = Some (NdArray [1; 3]%nat [Fin 0; Fin 0; Fin 0]) ∧
  array_at (final_store (initializeConnectionMatrices mP_no_conn example_rs)) "G2PI"
    = Some (NdArray [1; 3]%nat [NaN; NaN; NaN]).
Proof. split; [vm_compute; exact I|]. split; vm_compute; reflexivity. Qed.

(** C6: on the same input the mask entry [G2PIconn[0,0]] is 0 and the
    weight [G2PI[0,0]] is [nan], not 0. *)
Theorem masked_weight_not_zero :
  ∃ m w,
    array_at (final_store (initializeConnectionMatrices mP_no_conn example_rs)) "G2PIconn"
      = Some m ∧
    array_at (final_store (initializeConnectionMatrices mP_no_conn example_rs)) "G2PI"
      = Some w ∧
    get2 m 0 0 = Fin 0 ∧ get2 w 0 0 = NaN ∧ ¬ is_zero (get2 w 0 0).
Proof.
  eexists _, _. split; [vm_compute; reflexivity|]. split; [vm_compute; reflexivity|].
  split; [reflexivity|]. split; [reflexivity|]. intros [].
Qed.

(** C2: capacity mode with [nR = 2], [nF = 2], [RperFRawNum = 2]; the
    capacity per row is [ceil(2*2/2) = 2], so the four assignments fit.
    The draws pick row 0 for column 0 in both rounds: column 0 ends with one
    active entry, not two. *)
Theorem round_robin_repeats_a_source :
  returns (initializeConnectionMatrices example_mP example_rs) ∧
  array_at example_model "F2Rbinary"
    = Some (NdArray [2; 2]%nat [Fin 1; Fin 0; Fin 0; Fin 1]) ∧
  column_ones (NdArray [2; 2]%nat [Fin 1; Fin 0; Fin 0; Fin 1]) 0 = 1%nat.
Proof.
  split; [exact example_returns|]. split; [vm_compute; reflexivity | reflexivity].
Qed.

(** ** Counterexamples *)

(** C1 fails: [nG = 3], [L2Gfr = 1/2], all six off-diagonal draws positive.
    [numToKill = 3] and the threshold is 3/6, but every uniform draw is
    0.9, so nothing is removed: six non-zero entries against a target of
    three. *)
Lemma fill_target_missed :
  ∃ a, array_at (final_store (stage_L2G example_mP example_rs)) "L2G" = Some a ∧
       has_num example_mP "L2Gfr" (1 # 2) ∧ is_dim example_mP "nG" 3 ∧
       ¬ meets_fill_target (1 # 2) 3 a.
Proof.
  eexists. split; [vm_compute; reflexivity|].
  split; [by exists (VFloat (1 # 2))|]. split; [by exists (VInt 3), 3%Z|].
  vm_compute. intros H. by apply H.
Qed.

(** C4 fails: for mean 4 and std 2 the code draws with shape 2 and scale 2,
    where moment matching asks for shape 4 and scale 1. *)
Lemma gamma_params_not_moment_matched :
  ∃ ab, gamma_params 4 2 = inr ab ∧ (fst ab == 2)%Q ∧ (snd ab == 2)%Q ∧
        ¬ moment_matched 4 2 ab.
Proof.
  eexists. split; [vm_compute; reflexivity|].
  split; [reflexivity|]. split; [reflexivity|].
  intros [H _]. vm_compute in H. discriminate.
Qed.

(** C5 fails: [kGlobalDampVec] is [kGlobalDampFactor + kGlobalDampStd * z]
    with no clamp; with factor 1, std 1 and draws of -2 its entries are
    -1. *)
Lemma kGlobalDampVec_negative : ¬ all_nonneg example_model "kGlobalDampVec".
Proof.
  intros (a & Ha & Hall).
  assert (Hv : example_model !! "kGlobalDampVec"
               = Some (VArr (NdArray [2; 1]%nat [Fin (-1); Fin (-1)])))
    by (vm_compute; reflexivity).
  rewrite Hv in Ha. injection Ha as <-.
  apply Forall_cons in Hall as [H _]. vm_compute in H. by apply H.
Qed.

(** C9 fails: with [RnoiseStd = 0] the builder stops at line 213 on the
    [Decimal] library's [DivisionByZero], and by then [mP], the caller's
    object, already holds the matrices assigned on the way. *)
Lemma std0_leaves_partial_model : ¬ aborts_entirely mP_std0 example_rs.
Proof.
  intros (e & r' & H).
  assert (Hs : final_store (initializeConnectionMatrices mP_std0 example_rs) !! "F2R"
               = Some (VArr (NdArray [2; 2]%nat [Fin 1; Fin 0; Fin 0; Fin 1])))
    by (vm_compute; reflexivity).
  assert (Hn : mP_std0 !! "F2R" = None) by (vm_compute; reflexivity).
  rewrite H in Hs. unfold final_store in Hs. rewrite Hn in Hs. discriminate.
Qed.

Lemma std0_raises_division_by_zero :
  raised (initializeConnectionMatrices mP_std0 example_rs) = Some DivisionByZero.
Proof. vm_compute. reflexivity. Qed.

(** ** Decimal rounding keeps the sign *)

Lemma decimal_round_proper (p q : Q) : (p == q)%Q → decimal_round p = decimal_round q.
Proof. intros H. unfold decimal_round. by rewrite (Qred_complete p q H). Qed.

Lemma pow2_size_nat (d : positive) : (Z.pos d < 2 ^ Z.of_nat (Pos.size_nat d))%Z.
Proof.
  induction d as [d IH|d IH|]; cbn [Pos.size_nat];
    rewrite ?Nat2Z.inj_succ, ?Z.pow_succ_r by lia; lia.
Qed.

Lemma pow10_size_nat (d : positive) : (Z.pos d < 10 ^ Z.of_nat (Pos.size_nat d))%Z.
Proof.
  eapply Z.lt_le_trans; [apply pow2_size_nat|].
  apply Z.pow_le_mono_l. lia.
Qed.

Lemma scale_up_reaches (fuel : nat) (x : Q) (e : Z) :
  (1000 <= x * inject_Z (10 ^ Z.of_nat fuel))%Q →
  (1000 <= fst (scale_up fuel x e))%Q.
Proof.
  revert x e. induction fuel as [|f IH]; intros x e H; cbn [scale_up].
  - change (inject_Z (10 ^ Z.of_nat 0)) with 1%Q in H. rewrite Qmult_1_r in H. exact H.
  - destruct (Qle_bool 1000 x) eqn:E; [apply Qle_bool_iff in E; exact E|].
    apply IH. rewrite Nat2Z.inj_succ, Z.pow_succ_r, inject_Z_mult in H by lia.
    eapply Qle_trans; [exact H|]. apply Qle_lteq. right.
    change (inject_Z 10) with 10%Q. ring.
Qed.

Lemma scale_down_keeps (fuel : nat) (y : Q) (e : Z) :
  (1000 <= y)%Q → (1000 <= fst (scale_down fuel y e))%Q.
Proof.
  revert y e. induction fuel as [|f IH]; intros y e H; cbn [scale_down]; [done|].
  destruct (Qle_bool 10000 y) eqn:E; [|done].
  apply IH. apply Qle_bool_iff in E. apply Qle_shift_div_l; [reflexivity|].
  exact E.
Qed.

Lemma round_half_even_floor (q : Q) : (Qfloor q <= round_half_even q)%Z.
Proof.
  unfold round_half_even. destruct (q - inject_Z (Qfloor q) ?= 1 # 2)%Q; [|lia|lia].
  destruct (Z.even _); lia.
Qed.

Lemma round4_pos_positive (x : Q) : (0 < x)%Q → (0 < round4_pos x)%Q.
Proof.
  intros Hx. unfold round4_pos.
  destruct (scale_up _ x 0) as [y e] eqn:Eu.
  destruct (scale_down _ y e) as [z e'] eqn:Ed.
  assert (Hy : (1000 <= y)%Q).
  { change y with (fst (y, e)). rewrite <- Eu. apply scale_up_reaches.
    destruct x as [n d]. unfold Qlt in Hx. simpl in Hx. cbn [Qden].
    unfold Qle, Qmult, inject_Z. cbn [Qnum Qden].
    rewrite Nat2Z.inj_add, Z.pow_add_r by lia.
    pose proof (pow10_size_nat d) as Hd.
    change (10 ^ Z.of_nat 4)%Z with 10000%Z. nia. }
  assert (Hz : (1000 <= z)%Q).
  { change z with (fst (z, e')). rewrite <- Ed. by apply scale_down_keeps. }
  apply Qmult_lt_0_compat; [|by apply Qpower_0_lt].
  change 0%Q with (inject_Z 0). rewrite <- Zlt_Qlt.
  pose proof (round_half_even_floor z).
  apply (Qfloor_resp_le 1000 z) in Hz. change (Qfloor 1000) with 1000%Z in Hz. lia.
Qed.

Lemma decimal_round_pos (q : Q) : (0 < q)%Q → (0 < decimal_round q)%Q.
Proof.
  intros Hq. unfold decimal_round.
  assert (H : (0 < Qred q)%Q) by by rewrite Qred_correct.
  rewrite (proj1 (Qgt_alt (Qred q) 0) H). by apply round4_pos_positive.
Qed.

Lemma decimal_round_neg (q : Q) : (q < 0)%Q → (decimal_round q < 0)%Q.
Proof.
  intros Hq. unfold decimal_round.
  assert (H : (Qred q < 0)%Q) by by rewrite Qred_correct.
  rewrite (proj1 (Qlt_alt (Qred q) 0) H).
  assert (H' : (0 < - Qred q)%Q).
  { apply (Qopp_lt_compat (Qred q) 0) in H. exact H. }
  apply round4_pos_positive in H'.
  apply (Qopp_lt_compat 0 (round4_pos (- Qred q))) in H'. exact H'.
Qed.

Lemma decimal_round_zero (q : Q) : (q == 0)%Q → decimal_round q = 0%Q.
Proof. intros H. by rewrite (decimal_round_proper q 0 H). Qed.

(** ** The gamma sampler (lines 68-70, 213-227) *)

(** C4, as the code has it: the shape is [m/s] and the scale is [m/shape],
    which is [s], each rounded to four significant digits.  When the two
    quotients are exact, shape times scale is the mean [m] and shape times
    scale squared is [m*s] (not [s^2]). *)
Theorem gamma_params_shape_scale (m s : Q) :
  ¬ (m == 0)%Q → ¬ (s == 0)%Q → exact4 (m / s) → exact4 s →
  ∃ a b, gamma_params m s = inr (a, b) ∧
         (a == m / s)%Q ∧ (b == s)%Q ∧ (a * b == m)%Q ∧ (a * b * b == m * s)%Q.
Proof.
  intros Hm Hs Ea Eb. unfold exact4 in Ea, Eb.
  assert (Ha0 : ¬ (decimal_round (m / s) == 0)%Q).
  { rewrite Ea. intros H. apply Hm.
    rewrite <- (Qmult_div_r m s Hs), H. ring. }
  assert (Hb : decimal_round (m / decimal_round (m / s)) = decimal_round s).
  { apply decimal_round_proper. rewrite Ea. field. split; assumption. }
  exists (decimal_round (m / s)), (decimal_round s).
  split.
  - unfold gamma_params, decimal_div.
    destruct (Qeq_bool s 0) eqn:E1; [by apply Qeq_bool_iff in E1|].
    destruct (Qeq_bool (decimal_round (m / s)) 0) eqn:E2; [by apply Qeq_bool_iff in E2|].
    by rewrite Hb.
  - rewrite Ea, Eb. repeat split; try reflexivity; field; assumption.
Qed.

Lemma gamma_params_shape_scale_witness :
  ¬ (4 == 0)%Q ∧ ¬ (2 == 0)%Q ∧ exact4 (4 / 2) ∧ exact4 2 ∧
  ∃ a b, gamma_params 4 2 = inr (a, b) ∧
         (a == 4 / 2)%Q ∧ (b == 2)%Q ∧ (a * b == 4)%Q ∧ (a * b * b == 4 * 2)%Q.
Proof.
  assert (H1 : ¬ (4 == 0)%Q) by discriminate.
  assert (H2 : ¬ (2 == 0)%Q) by discriminate.
  assert (H3 : exact4 (4 / 2)) by reflexivity.
  assert (H4 : exact4 2) by reflexivity.
  split; [exact H1|]. split; [exact H2|]. split; [exact H3|]. split; [exact H4|].
  exact (gamma_params_shape_scale 4 2 H1 H2 H3 H4).
Defined.

(** ** A non-positive std in the gamma sampler *)

Lemma Qdiv_neg_den (m q : Q) : ¬ (q == 0)%Q → (m / q == (- m) / (- q))%Q.
Proof. intros H. field. exact H. Qed.

Lemma Qopp_pos (q : Q) : (q < 0)%Q → (0 < - q)%Q.
Proof. intros H. apply (Qopp_lt_compat q 0) in H. exact H. Qed.

Lemma Qopp_neg (q : Q) : (0 < q)%Q → (- q < 0)%Q.
Proof. intros H. apply (Qopp_lt_compat 0 q) in H. exact H. Qed.

Lemma Qdiv_pos_pos (m c : Q) : (0 < m)%Q → (0 < c)%Q → (0 < m / c)%Q.
Proof. intros Hm Hc. apply Qlt_shift_div_l; [done|]. by rewrite Qmult_0_l. Qed.

Lemma Qdiv_neg_pos (m c : Q) : (m < 0)%Q → (0 < c)%Q → (m / c < 0)%Q.
Proof. intros Hm Hc. apply Qlt_shift_div_r; [done|]. by rewrite Qmult_0_l. Qed.

Lemma Qlt_neq0 (q : Q) : (q < 0)%Q → ¬ (q == 0)%Q.
Proof. intros H E. rewrite E in H. discriminate. Qed.

(** The quotients of a non-positive std: one of them is negative, unless a
    division already failed. *)
Lemma gamma_params_nonpos_std (m s a b : Q) :
  (s <= 0)%Q → gamma_params m s = inr (a, b) → (a < 0)%Q ∨ (b < 0)%Q.
Proof.
  intros Hs. unfold gamma_params, decimal_div.
  destruct (Qeq_bool s 0) eqn:E1; [by destruct (Qeq_bool m 0)|].
  apply Qeq_bool_neq in E1.
  destruct (Qeq_bool (decimal_round (m / s)) 0) eqn:E2; [by destruct (Qeq_bool m 0)|].
  apply Qeq_bool_neq in E2. intros [= <- <-].
  assert (Hs' : (s < 0)%Q).
  { apply Qle_lteq in Hs as [?|?]; [done|by destruct E1]. }
  destruct (Q_dec m 0) as [[Hm|Hm]|Hm].
  - right. apply decimal_round_neg. apply Qdiv_neg_pos; [done|].
    apply decimal_round_pos. rewrite (Qdiv_neg_den m s E1).
    apply Qdiv_pos_pos; by apply Qopp_pos.
  - left. apply decimal_round_neg. rewrite (Qdiv_neg_den m s E1).
    apply Qdiv_neg_pos; [by apply Qopp_neg | by apply Qopp_pos].
  - destruct E2. rewrite (decimal_round_proper (m / s) 0); [reflexivity|].
    rewrite Hm. unfold Qdiv. ring.
Qed.

Lemma gamma_vector_nonpos_std mean std size s r q a s' r' :
  has_num s std q → (q <= 0)%Q → gamma_vector mean std size s r ≠ Ok a s' r'.
Proof.
  intros Hq Hle H. unfold gamma_vector in H.
  do 4 step H. rewrite (has_num_fun _ _ _ _ H1 Hq) in H2.
  destruct a2 as [x' y']. apply gamma_params_nonpos_std in H2; [|done].
  unfold gamma in H. cbn [fst snd] in H.
  destruct (Qlt_le_dec x' 0) as [|Hx]; [discriminate|].
  destruct (Qlt_le_dec y' 0) as [|Hy]; [discriminate|].
  destruct H2 as [H2|H2]; [by apply Qle_not_lt in Hx | by apply Qle_not_lt in Hy].
Qed.

Lemma has_num_insert_ne s k k' v q :
  k' ≠ k → has_num s k q → has_num (<[k' := v]> s) k q.
Proof. intros Hne (w & Hw & Hq). exists w. by rewrite lookup_insert_ne. Qed.

Lemma has_num_keeps k {A} (m : M A) s r a s' r' q :
  keeps k m → m s r = Ok a s' r' → has_num s k q → has_num s' k q.
Proof.
  intros Hk Hm (w & Hw & Hq). exists w. split; [|done].
  by rewrite (keeps_Ok k m s r a s' r' Hk Hm).
Qed.

Ltac carry Hq Hrun :=
  lazymatch type of Hrun with
  | ?m ?s ?r = Ok ?a ?s' ?r' =>
      lazymatch type of Hq with
      | has_num _ ?k ?q =>
          let Hk := fresh in
          assert (Hk : keeps k m) by keeps_tac;
          apply (has_num_keeps k m s r a s' r' q Hk Hrun) in Hq; clear Hk
      end
  end.

(** [has_num] goals about a store reached from one where it holds. *)
Ltac solve_has_num :=
  repeat first
    [ assumption
    | apply has_num_insert_ne; [discriminate|]
    | eapply has_num_keeps; [ | eassumption | ]; [keeps_tac|] ].

(** The stages of a run that returns. *)
Lemma builder_stages s r u s' r' :
  initializeConnectionMatrices s r = Ok u s' r' →
  ∃ s1 r1 s2 r2 s3 r3 s4 r4 s5 r5 s6 r6 conn s7 r7 s8 r8 s9 r9 s10 r10 s11 r11,
    stage_F2Rbinary s r = Ok tt s1 r1 ∧ stage_F2R s1 r1 = Ok tt s2 r2 ∧
    stage_Rspont s2 r2 = Ok tt s3 r3 ∧ stage_R2 s3 r3 = Ok tt s4 r4 ∧
    stage_L2G s4 r4 = Ok tt s5 r5 ∧ stage_L2 s5 r5 = Ok tt s6 r6 ∧
    stage_P2K s6 r6 = Ok conn s7 r7 ∧ stage_G2PI s7 r7 = Ok tt s8 r8 ∧
    stage_PI2K s8 r8 = Ok tt s9 r9 ∧ stage_K2E s9 r9 = Ok tt s10 r10 ∧
    stage_octo s10 r10 = Ok tt s11 r11 ∧ stage_noise s11 r11 = Ok u s' r'.
Proof.
  unfold initializeConnectionMatrices. intros H.
  apply bind_Ok in H as ([] & s1 & r1 & H1 & H).
  apply bind_Ok in H as ([] & s2 & r2 & H2 & H).
  apply bind_Ok in H as ([] & s3 & r3 & H3 & H).
  apply bind_Ok in H as ([] & s4 & r4 & H4 & H).
  apply bind_Ok in H as ([] & s5 & r5 & H5 & H).
  apply bind_Ok in H as ([] & s6 & r6 & H6 & H).
  apply bind_Ok in H as (conn & s7 & r7 & H7 & H).
  apply bind_Ok in H as ([] & s8 & r8 & H8 & H).
  apply bind_Ok in H as ([] & s9 & r9 & H9 & H).
  apply bind_Ok in H as ([] & s10 & r10 & H10 & H).
  apply bind_Ok in H as ([] & s11 & r11 & H11 & H).
  exists s1, r1, s2, r2, s3, r3, s4, r4, s5, r5, s6, r6, conn,
    s7, r7, s8, r8, s9, r9, s10, r10, s11, r11.
  repeat split; assumption.
Qed.

(** C9, as the code has it: a non-positive std of a gamma-sampled vector
    makes the builder raise, so no model is returned.  The error comes from
    the arithmetic (a [Decimal] division or numpy's check of the shape and
    scale), and [mP] keeps what was assigned before it. *)
Theorem nonpositive_std_raises (s : store) (r : RandomState) :
  nonpositive_gamma_std s →
  ∃ e s' r', initializeConnectionMatrices s r = Raise e s' r'.
Proof.
  intros Hstd. apply not_Ok_raises. intros [] s' r' H.
  apply builder_stages in H as
    (s1 & r1 & s2 & r2 & s3 & r3 & s4 & r4 & s5 & r5 & s6 & r6 & conn &
     s7 & r7 & s8 & r8 & s9 & r9 & s10 & r10 & s11 & r11 &
     H1 & H2 & H3 & H4 & H5 & H6 & H7 & H8 & H9 & H10 & H11 & H).
  destruct Hstd as [(k & q & Hk & Hq & Hle)|(f & q & Hf & Hf1 & Hq & Hle)].
  - assert (Hq' : has_num s11 k q).
    { apply list_elem_of_In in Hk. simpl in Hk.
      destruct Hk as [<-|[<-|[<-|[]]]];
        carry Hq H1; carry Hq H2; carry Hq H3; carry Hq H4; carry Hq H5; carry Hq H6;
        carry Hq H7; carry Hq H8; carry Hq H9; carry Hq H10; carry Hq H11; exact Hq. }
    clear Hq H1 H2 H3 H4 H5 H6 H7 H8 H9 H10 H11. unfold stage_noise in H.
    do 6 step H.
    apply bind_Ok in H as (g & sg & rg & Hg & H).
    apply list_elem_of_In in Hk. simpl in Hk. destruct Hk as [<-|[<-|[<-|[]]]].
    + eapply gamma_vector_nonpos_std; [|exact Hle|exact Hg]. solve_has_num.
    + do 3 step H. apply bind_Ok in H as (g' & sg' & rg' & Hg' & H).
      eapply gamma_vector_nonpos_std; [|exact Hle|exact Hg']. solve_has_num.
    + do 3 step H. apply bind_Ok in H as (g' & sg' & rg' & Hg' & H).
      do 3 step H. apply bind_Ok in H as (g'' & sg'' & rg'' & Hg'' & H).
      eapply gamma_vector_nonpos_std; [|exact Hle|exact Hg'']. solve_has_num.
  - carry Hf H1. carry Hf H2. carry Hq H1. carry Hq H2.
    unfold stage_Rspont in H3. step H3.
    rewrite (has_num_fun _ _ _ _ H0 Hf) in H3.
    destruct (Qeq_bool f 1) eqn:E; [by apply Qeq_bool_iff in E|].
    apply bind_Ok in H3 as (g & sg & rg & Hg & _).
    eapply gamma_vector_nonpos_std; [exact Hq|exact Hle|exact Hg].
Qed.

Lemma nonpositive_std_raises_witness :
  nonpositive_gamma_std mP_std0 ∧
  ∃ e s' r', initializeConnectionMatrices mP_std0 example_rs = Raise e s' r'.
Proof.
  assert (H : nonpositive_gamma_std mP_std0).
  { left. exists "RnoiseStd", 0%Q. split; [|split].
    - apply list_elem_of_In. simpl. by left.
    - exists (VFloat 0). split; reflexivity.
    - discriminate. }
  split; [exact H|]. exact (nonpositive_std_raises mP_std0 example_rs H).
Defined.

(** ** Buffers and index arithmetic *)

Lemma length_draws f r n : length (draws f r n) = n.
Proof. unfold draws. by rewrite length_map, length_seq. Qed.

Lemma draws_finite f r n : Forall finite (draws f r n).
Proof. unfold draws. induction (seq 0 n); simpl; constructor; [exact I | assumption]. Qed.

Lemma tabulate2_S r c f :
  tabulate2 (S r) c f = (tabulate2 r c f ++ map (f r) (seq 0 c))%list.
Proof.
  unfold tabulate2. rewrite seq_S, flat_map_app. simpl. by rewrite app_nil_r.
Qed.

Lemma length_tabulate2 r c f : length (tabulate2 r c f) = (r * c)%nat.
Proof.
  induction r as [|r IH]; [done|].
  rewrite tabulate2_S, length_app, IH, length_map, length_seq. lia.
Qed.

Lemma nth_tabulate2 r c f i j d :
  (i < r)%nat → (j < c)%nat → nth (i * c + j) (tabulate2 r c f) d = f i j.
Proof.
  induction r as [|r IH]; [lia|]. intros Hi Hj. rewrite tabulate2_S.
  destruct (decide (i < r)%nat) as [Hlt|Hge].
  - rewrite app_nth1 by (rewrite length_tabulate2; nia). by apply IH.
  - assert (i = r) as -> by lia.
    rewrite app_nth2 by (rewrite length_tabulate2; lia).
    rewrite length_tabulate2. replace (r * c + j - r * c)%nat with j by lia.
    rewrite (nth_indep _ d (f r 0%nat)) by (rewrite length_map, length_seq; lia).
    rewrite (map_nth (f r) (seq 0 c) 0%nat j). by rewrite seq_nth.
Qed.

Lemma nth_tabulate2_flat r c f k d :
  (k < r * c)%nat → nth k (tabulate2 r c f) d = f (k / c)%nat (k mod c)%nat.
Proof.
  intros Hk. assert (c ≠ 0)%nat by lia.
  rewrite (Nat.div_mod_eq k c) at 1. rewrite (Nat.mul_comm c).
  apply nth_tabulate2; [apply Nat.Div0.div_lt_upper_bound; lia | by apply Nat.mod_upper_bound].
Qed.

Lemma tabulate2_id l r c d :
  length l = (r * c)%nat → tabulate2 r c (fun i j => nth (i * c + j) l d) = l.
Proof.
  intros Hl. apply (nth_ext _ _ d d); [by rewrite length_tabulate2|].
  intros k Hk. rewrite length_tabulate2 in Hk.
  rewrite nth_tabulate2_flat by done. f_equal.
  rewrite (Nat.div_mod_eq k c) at 3. lia.
Qed.

Lemma nth_zip_with (f : num → num → num) l t k d :
  (k < length l)%nat → (k < length t)%nat →
  nth k (zip_with f l t) d = f (nth k l d) (nth k t d).
Proof.
  revert t k. induction l as [|x l IH]; intros [|y t] [|k]; simpl; try lia; [done|].
  intros ? ?. apply IH; lia.
Qed.

Lemma nth_map_num (f : num → num) l k d :
  (k < length l)%nat → nth k (map f l) d = f (nth k l d).
Proof.
  intros Hk. rewrite (nth_indep _ d (f d)) by by rewrite length_map.
  apply map_nth.
Qed.

Lemma nth_Forall (P : num → Prop) l k d :
  Forall P l → (k < length l)%nat → P (nth k l d).
Proof. intros H Hk. rewrite Forall_forall in H. apply H, list_elem_of_In, nth_In, Hk. Qed.

Lemma Forall_zip_with (P Q R : num → Prop) (f : num → num → num) l t :
  (∀ x y, P x → Q y → R (f x y)) → Forall P l → Forall Q t → Forall R (zip_with f l t).
Proof.
  intros Hf Hl. revert t. induction Hl as [|x l Hx Hl IH]; intros t Ht; [constructor|].
  destruct Ht as [|y t Hy Ht]; simpl; [constructor|]. constructor; auto.
Qed.

Lemma Forall_map_num (P Q : num → Prop) (f : num → num) l :
  (∀ x, P x → Q (f x)) → Forall P l → Forall Q (map f l).
Proof. intros Hf Hl. induction Hl; simpl; constructor; auto. Qed.

(** ** Counting entries *)

Lemma sum_to_ext n f g : (∀ k, (k < n)%nat → f k = g k) → sum_to n f = sum_to n g.
Proof.
  induction n as [|n IH]; intros H; [done|]. simpl.
  rewrite IH, H by (intros; auto with lia). done.
Qed.

Lemma sum_to_plus n f g :
  sum_to n (fun k => f k + g k)%nat = (sum_to n f + sum_to n g)%nat.
Proof. induction n as [|n IH]; [done|]. simpl. rewrite IH. lia. Qed.

Lemma sum_to_zero n : sum_to n (fun _ => 0%nat) = 0%nat.
Proof. induction n as [|n IH]; [done|]. simpl. by rewrite IH. Qed.

Lemma sum_to_app n m f :
  sum_to (n + m) f = (sum_to n f + sum_to m (fun k => f (n + k)%nat))%nat.
Proof.
  induction m as [|m IH]; [simpl; rewrite Nat.add_0_r; lia|].
  rewrite Nat.add_succ_r. simpl. rewrite IH. lia.
Qed.

(** Column-major and row-major enumerations of a grid see the same total. *)
Lemma sum_to_grid n m g :
  sum_to n (fun i => sum_to m (fun j => g (i + j * n)%nat)) = sum_to (m * n) g.
Proof.
  induction m as [|m IH]; [simpl; apply sum_to_zero|].
  simpl sum_to at 2. rewrite sum_to_plus, IH.
  replace (S m * n)%nat with (m * n + n)%nat by lia. rewrite sum_to_app.
  f_equal. apply sum_to_ext. intros k _. f_equal. lia.
Qed.

Lemma count_if_app p l1 l2 : count_if p (l1 ++ l2)%list = (count_if p l1 + count_if p l2)%nat.
Proof. induction l1 as [|x l1 IH]; [done|]. simpl. rewrite IH. lia. Qed.

Lemma count_if_map_seq p (g : nat → num) n :
  count_if p (map g (seq 0 n)) = sum_to n (fun k => ind (p (g k))).
Proof.
  induction n as [|n IH]; [done|].
  rewrite seq_S, map_app, count_if_app, IH. simpl. unfold ind. lia.
Qed.

Lemma count_if_tabulate2 p r c f :
  count_if p (tabulate2 r c f) = sum_to r (fun i => sum_to c (fun j => ind (p (f i j)))).
Proof.
  induction r as [|r IH]; [done|].
  by rewrite tabulate2_S, count_if_app, IH, count_if_map_seq.
Qed.

Lemma count_if_nth p l d :
  count_if p l = sum_to (length l) (fun k => ind (p (nth k l d))).
Proof.
  induction l as [|x l IH] using rev_ind; [done|].
  rewrite count_if_app, length_app. simpl length. rewrite Nat.add_1_r. simpl.
  rewrite IH. f_equal.
  - apply sum_to_ext. intros k Hk. by rewrite app_nth1.
  - rewrite app_nth2, Nat.sub_diag by lia. simpl. unfold ind. lia.
Qed.

Lemma count_if_le p l : (count_if p l ≤ length l)%nat.
Proof. induction l as [|x l IH]; simpl; [lia|]. destruct (p x); lia. Qed.

Lemma is_dim_int s k n v z :
  is_dim s k n → s !! k = Some v → int_of v = Some z → z = Z.of_nat n.
Proof. intros (v' & z' & ? & ? & ? & ->) ? ?. simplify_eq. lia. Qed.

Lemma stage_L2G_Ok s r s' r' :
  stage_L2G s r = Ok tt s' r' →
  ∃ mu sd fr n,
    has_num s "L2Gmu" mu ∧ has_num s "L2Gstd" sd ∧ has_num s "L2Gfr" fr ∧
    is_dim s "nG" n ∧
    s' !! "L2G" =
      Some (VArr (L2G_sparse (L2G_raw mu sd n r) n fr (advance r (numel [n; n])))).
Proof.
  unfold stage_L2G. intros H.
  step H. destruct H0 as (mu & sd & n & n' & Hmu & Hsd & Hn & Hn' & -> & ->).
  rewrite <- (is_dim_fun _ _ _ _ Hn Hn') in *. clear n' Hn'.
  do 7 step H. step H.
  lazymatch goal with
  | Hl : s !! "nG" = Some ?x, Hz : int_of ?x = Some _ |- _ =>
      pose proof (is_dim_int _ _ _ _ _ Hn Hl Hz) as ->
  end.
  lazymatch goal with
  | Hf : has_num s "L2Gfr" ?fr |- _ => exists mu, sd, fr, n
  end.
  repeat (split; [assumption|]).
  unfold L2G_sparse, L2G_raw. rewrite Nat2Z.id in H.
  apply bind_Ok in H as ([] & s1 & r1 & Hk & H).
  revert Hk. destruct (0 <? numToKill _ _ _)%Z; intros Hk.
  - do 5 step Hk. unfold setattr in Hk. injection Hk as <- <-.
    step H. finish H. by rewrite lookup_insert_eq.
  - unfold ret in Hk. injection Hk as <- <-.
    step H. finish H. by rewrite lookup_insert_eq.
Qed.

Lemma nth_map_seq (g : nat → num) n k d :
  (k < n)%nat → nth k (map g (seq 0 n)) d = g k.
Proof.
  intros Hk. rewrite (nth_indep _ d (g 0%nat)) by (by rewrite length_map, length_seq).
  rewrite (map_nth g (seq 0 n) 0%nat k). by rewrite seq_nth.
Qed.

Lemma tabulate2_ext r c f g :
  (∀ i j, (i < r)%nat → (j < c)%nat → f i j = g i j) → tabulate2 r c f = tabulate2 r c g.
Proof.
  intros H. apply (nth_ext _ _ NaN NaN); [by rewrite !length_tabulate2|].
  intros k Hk. rewrite length_tabulate2 in Hk.
  rewrite !nth_tabulate2_flat by done.
  apply H; [apply Nat.Div0.div_lt_upper_bound; lia | apply Nat.mod_upper_bound; lia].
Qed.

Lemma Forall_tabulate2 (P : num → Prop) r c f :
  (∀ i j, (i < r)%nat → (j < c)%nat → P (f i j)) → Forall P (tabulate2 r c f).
Proof.
  intros H. induction r as [|r IH]; [constructor|].
  rewrite tabulate2_S. apply Forall_app. split; [apply IH; auto with lia|].
  apply Forall_forall. intros x Hx. apply list_elem_of_In, in_map_iff in Hx as (j & <- & Hj).
  apply in_seq in Hj. apply H; lia.
Qed.

(** ** Finite values *)

Lemma finite_nadd x y : finite x → finite y → finite (nadd x y).
Proof. by destruct x, y. Qed.

Lemma finite_nmul x y : finite x → finite y → finite (nmul x y).
Proof. by destruct x, y. Qed.

Lemma finite_nsub x y : finite x → finite y → finite (nsub x y).
Proof. by destruct x, y. Qed.

Lemma finite_nmaximum x y : finite x → finite y → finite (nmaximum x y).
Proof. by destruct x, y. Qed.

Lemma finite_of_bool b : finite (of_bool b).
Proof. exact I. Qed.

Lemma noise_finite c d r sh : Forall finite (data (shift c (scale d (gauss_draws r sh)))).
Proof.
  simpl. apply (Forall_map_num finite); [intros; by apply finite_nadd|].
  apply (Forall_map_num finite); [intros; by apply finite_nmul|]. apply draws_finite.
Qed.

Lemma length_noise c d r sh :
  length (data (shift c (scale d (gauss_draws r sh)))) = numel sh.
Proof. simpl. by rewrite !length_map, length_draws. Qed.

(** ** The lateral matrix (lines 88-100) *)

Lemma L2G_raw_shape mu sd n r : shape (L2G_raw mu sd n r) = [n; n].
Proof. reflexivity. Qed.

Lemma L2G_raw_length mu sd n r : length (data (L2G_raw mu sd n r)) = (n * n)%nat.
Proof.
  unfold L2G_raw. cbn [azip data]. rewrite length_zip_with.
  cbn [diag_part data clamp0 amap]. rewrite length_tabulate2, length_map, length_noise.
  cbn. lia.
Qed.

Lemma L2G_raw_finite mu sd n r : Forall finite (data (L2G_raw mu sd n r)).
Proof.
  unfold L2G_raw. cbn [azip data].
  set (c := clamp0 _).
  assert (Hc : Forall finite (data c)).
  { apply (Forall_map_num finite); [intros; by apply finite_nmaximum|]. apply noise_finite. }
  assert (Hl : length (data c) = (n * n)%nat).
  { unfold c. cbn [clamp0 amap data]. rewrite length_map, length_noise. cbn. lia. }
  apply (Forall_zip_with finite finite); [intros; by apply finite_nsub|done|].
  apply Forall_tabulate2. intros i j Hi Hj.
  change (nrows c) with n in Hi. change (ncols c) with n in Hj.
  destruct (i =? j)%nat; [|exact I].
  unfold get2. change (ncols c) with n. apply nth_Forall; [done|]. rewrite Hl. nia.
Qed.

Lemma L2G_raw_diagonal mu sd n r i :
  (i < n)%nat → is_zero (get2 (L2G_raw mu sd n r) i i).
Proof.
  intros Hi. unfold L2G_raw. set (c := clamp0 _).
  assert (Hc : Forall finite (data c)).
  { apply (Forall_map_num finite); [intros; by apply finite_nmaximum|]. apply noise_finite. }
  assert (Hl : length (data c) = (n * n)%nat).
  { unfold c. cbn [clamp0 amap data]. rewrite length_map, length_noise. cbn. lia. }
  unfold get2. change (ncols (azip nsub c (diag_part c))) with n.
  cbn [azip data]. rewrite nth_zip_with;
    [|rewrite Hl; nia
     |cbn [diag_part data]; rewrite length_tabulate2; change (nrows c) with n;
      change (ncols c) with n; nia].
  cbn [diag_part data]. change (nrows c) with n. change (ncols c) with n.
  rewrite nth_tabulate2 by done. rewrite Nat.eqb_refl.
  unfold get2. change (ncols c) with n.
  pose proof (nth_Forall finite (data c) (i * n + i) NaN Hc ltac:(rewrite Hl; nia)) as Hf.
  destruct (nth _ (data c) NaN) as [q| | |]; try done. simpl. ring.
Qed.

Lemma reshape_F_square_id w n :
  shape w = [n; n] → length (data w) = (n * n)%nat → reshape_F w n n = w.
Proof.
  destruct w as [sh l]. cbn [shape data]. intros -> Hl.
  unfold reshape_F, ravel_F. cbn [shape]. f_equal.
  transitivity (tabulate2 n n (fun i j => nth (i * n + j) l NaN));
    [|by apply tabulate2_id].
  apply tabulate2_ext. intros i j Hi Hj.
  rewrite nth_map_seq by nia. unfold get2. cbn.
  rewrite Nat.Div0.mod_add, Nat.div_add, Nat.mod_small, Nat.div_small by lia.
  done.
Qed.

Lemma killed_zero x t : is_zero x → is_zero (if ngt x (Fin 0) && neqb t (Fin 1) then Fin 0%Q else x).
Proof. intros H. by destruct (_ && _). Qed.

Lemma killed_finite x t : finite x → finite (if ngt x (Fin 0) && neqb t (Fin 1) then Fin 0%Q else x).
Proof. intros H. by destruct (_ && _). Qed.

Section Sparse.
Variables (w0 : ndarray) (n : nat) (fr : Q) (r1 : RandomState).
Hypothesis Hshape : shape w0 = [n; n].
Hypothesis Hlen : length (data w0) = (n * n)%nat.

Lemma L2G_sparse_shape : shape (L2G_sparse w0 n fr r1) = [n; n].
Proof. unfold L2G_sparse. by destruct (0 <? _)%Z. Qed.

Lemma length_killed p :
  length (data (kill (flatten w0) (below p (uniform_draws r1 (shape (flatten w0))))))
  = (n * n)%nat.
Proof.
  cbn [kill azip below amap flatten uniform_draws data shape].
  rewrite length_zip_with, length_map, length_draws, Hlen. cbn [numel fold_right]. lia.
Qed.

Lemma L2G_sparse_length : length (data (L2G_sparse w0 n fr r1)) = (n * n)%nat.
Proof.
  unfold L2G_sparse. destruct (0 <? _)%Z; cbn [reshape_F data]; by rewrite length_tabulate2.
Qed.

Lemma L2G_sparse_get i j :
  (i < n)%nat → (j < n)%nat →
  get2 (L2G_sparse w0 n fr r1) i j =
    if (0 <? numToKill w0 (Z.of_nat n) fr)%Z then
      nth (i + j * n)
          (data (kill (flatten w0)
                   (below (kill_prob w0 (Z.of_nat n) fr)
                          (uniform_draws r1 (shape (flatten w0)))))) NaN
    else get2 w0 i j.
Proof.
  intros Hi Hj. unfold L2G_sparse. destruct (0 <? _)%Z.
  - unfold get2, reshape_F. cbn [ncols shape data nth]. by rewrite nth_tabulate2.
  - by rewrite reshape_F_square_id.
Qed.

Lemma L2G_sparse_diagonal :
  (∀ i, (i < n)%nat → is_zero (get2 w0 i i)) →
  ∀ i, (i < n)%nat → is_zero (get2 (L2G_sparse w0 n fr r1) i i).
Proof.
  intros Hd i Hi. rewrite L2G_sparse_get by done. destruct (0 <? _)%Z; [|by apply Hd].
  cbn [kill azip data flatten]. rewrite nth_zip_with.
  - apply killed_zero. specialize (Hd i Hi). unfold get2, ncols in Hd.
    rewrite Hshape in Hd. cbn [nth] in Hd. by rewrite Nat.add_comm.
  - rewrite Hlen. nia.
  - cbn [below amap flatten uniform_draws data shape].
    rewrite length_map, length_draws, Hlen. cbn [numel fold_right]. nia.
Qed.

Lemma L2G_sparse_finite :
  Forall finite (data w0) → Forall finite (data (L2G_sparse w0 n fr r1)).
Proof.
  intros Hf. unfold L2G_sparse. destruct (0 <? _)%Z; [|by rewrite reshape_F_square_id].
  pose proof (length_killed (kill_prob w0 (Z.of_nat n) fr)) as Hk.
  unfold reshape_F, ravel_F. cbn [kill azip flatten shape data] in *.
  apply Forall_tabulate2. intros i j Hi Hj.
  apply nth_Forall; [|rewrite Hk; nia].
  apply (Forall_zip_with finite (fun _ => True)); [intros; by apply killed_finite|done|].
  by apply Forall_true.
Qed.
End Sparse.

Lemma positive_nonzero x : ngt x (Fin 0) = true → nonzero x = true.
Proof.
  destruct x as [q| | |]; try done. unfold ngt, nlt, nonzero, neqb. cbn.
  destruct (0 ?= q)%Q eqn:E; try done. intros _.
  apply Qlt_alt in E. apply Qgt_alt in E. by rewrite E.
Qed.

Lemma of_bool_is_one b : neqb (of_bool b) (Fin 1) = b.
Proof. by destruct b. Qed.

(** What [kill] removes is what [count2] counts. *)
Lemma kill_count w u p :
  length w = length u →
  (count_if nonzero
     (zip_with (fun x t => if ngt x (Fin 0) && neqb t (Fin 1) then Fin 0%Q else x)
               w (map (fun x => of_bool (nlt x p)) u))
   + count2 (fun x t => ngt x (Fin 0) && nlt t p) w u)%nat
  = count_if nonzero w.
Proof.
  revert u. induction w as [|x w IH]; intros [|t u] Hl; try done.
  injection Hl as Hl. specialize (IH u Hl). cbn [map zip_with count_if count2].
  rewrite of_bool_is_one. rewrite <- IH.
  destruct (ngt x (Fin 0)) eqn:Ex; cbn [andb ind]; [|lia].
  destruct (nlt t p) eqn:Et; rewrite ?Et; cbn [andb ind]; [|lia].
  rewrite (positive_nonzero x Ex). change (nonzero (Fin 0)) with false.
  cbv iota. lia.
Qed.

Lemma count_reshape_F_flat p l n :
  length l = (n * n)%nat →
  count_if p (tabulate2 n n (fun i j => nth (i + j * n) l NaN)) = count_if p l.
Proof.
  intros Hl. rewrite count_if_tabulate2, (count_if_nth p l NaN), Hl.
  apply (sum_to_grid n n (fun k => ind (p (nth k l NaN)))).
Qed.

Lemma L2G_sparse_count w0 n fr r1 :
  shape w0 = [n; n] → length (data w0) = (n * n)%nat →
  (count_if nonzero (data (L2G_sparse w0 n fr r1)) + removed_by_draws w0 n fr r1)%nat
  = count_if nonzero (data w0).
Proof.
  intros Hshape Hlen. unfold L2G_sparse, removed_by_draws.
  destruct (0 <? _)%Z; [|by rewrite reshape_F_square_id, Nat.add_0_r].
  pose proof (length_killed w0 n r1 Hlen (kill_prob w0 (Z.of_nat n) fr)) as Hk.
  unfold reshape_F, ravel_F.
  cbn [kill azip below amap flatten uniform_draws shape data] in *.
  rewrite count_reshape_F_flat by exact Hk.
  apply kill_count. rewrite length_draws. cbn [numel fold_right]. lia.
Qed.

(** C1, as the code has it: the correction tests every entry against its
    own uniform draw.  The non-zero count after the step is the count
    before it less the positive entries whose draw fell below
    [numToKill / (N^2 - N - numZero)]; nothing ties that number to
    [numToKill]. *)
Theorem correction_removes_per_draw (s : store) (r : RandomState) s' r' :
  stage_L2G s r = Ok tt s' r' →
  ∃ mu sd fr n w,
    has_num s "L2Gmu" mu ∧ has_num s "L2Gstd" sd ∧ has_num s "L2Gfr" fr ∧
    is_dim s "nG" n ∧ array_at s' "L2G" = Some w ∧
    (count_if nonzero (data w)
     + removed_by_draws (L2G_raw mu sd n r) n fr (advance r (numel [n; n])))%nat
    = count_if nonzero (data (L2G_raw mu sd n r)) ∧
    (count_if nonzero (data w) ≤ count_if nonzero (data (L2G_raw mu sd n r)))%nat.
Proof.
  intros (mu & sd & fr & n & Hmu & Hsd & Hfr & Hn & Hw)%stage_L2G_Ok.
  eexists mu, sd, fr, n, _. repeat (split; [eassumption|]).
  split; [unfold array_at; by rewrite Hw|].
  pose proof (L2G_sparse_count (L2G_raw mu sd n r) n fr (advance r (numel [n; n]))
                (L2G_raw_shape mu sd n r) (L2G_raw_length mu sd n r)) as Hc.
  split; [exact Hc | lia].
Qed.

Lemma correction_removes_per_draw_witness :
  ∃ s' r', stage_L2G example_mP example_rs = Ok tt s' r' ∧
  ∃ mu sd fr n w,
    has_num example_mP "L2Gmu" mu ∧ has_num example_mP "L2Gstd" sd ∧
    has_num example_mP "L2Gfr" fr ∧
    is_dim example_mP "nG" n ∧ array_at s' "L2G" = Some w ∧
    (count_if nonzero (data w)
     + removed_by_draws (L2G_raw mu sd n example_rs) n fr
         (advance example_rs (numel [n; n])))%nat
    = count_if nonzero (data (L2G_raw mu sd n example_rs)) ∧
    (count_if nonzero (data w) ≤ count_if nonzero (data (L2G_raw mu sd n example_rs)))%nat.
Proof.
  assert (Hr : returns (stage_L2G example_mP example_rs)) by (vm_compute; exact I).
  destruct (returns_Ok _ Hr) as ([] & s' & r' & E).
  exists s', r'. split; [exact E|].
  exact (correction_removes_per_draw example_mP example_rs s' r' E).
Defined.

(** ** No self-connection (lines 88-117) *)

Lemma lateral_Ok base sd g s r x s' r' :
  lateral base sd g s r = Ok x s' r' →
  s' = s ∧ ∃ c d n1 n2, is_dim s "nG" n1 ∧ is_dim s "nG" n2 ∧
    r' = advance r (numel [n1; n2]) ∧
    x = azip nmul (clamp0 (shift c (scale d (gauss_draws r [n1; n2])))) g.
Proof.
  unfold lateral. intros H. step H.
  destruct H0 as (c & d & n1 & n2 & _ & _ & Hn1 & Hn2 & -> & ->).
  unfold ret in H. injection H as <- <- <-. split; [done|]. by exists c, d, n1, n2.
Qed.

Lemma is_zero_nmul_l x y : is_zero x → finite y → is_zero (nmul x y).
Proof. destruct x as [p| | |], y as [q| | |]; try done. simpl. intros ->. intros _. ring. Qed.

Lemma is_zero_nmul_r x y : finite x → is_zero y → is_zero (nmul x y).
Proof. destruct x as [p| | |], y as [q| | |]; try done. simpl. intros _ ->. ring. Qed.

Lemma is_zero_finite x : is_zero x → finite x.
Proof. by destruct x. Qed.

Lemma length_tile l n : length (flat_map (fun x : num => repeat x n) l) = (length l * n)%nat.
Proof. induction l as [|x l IH]; [done|]. simpl. rewrite length_app, repeat_length, IH. lia. Qed.

Lemma tile_finite l n : Forall finite l → Forall finite (flat_map (fun x : num => repeat x n) l).
Proof.
  induction 1 as [|x l Hx Hl IH]; [constructor|]. simpl. apply Forall_app. split; [|done].
  apply Forall_forall. intros y Hy%list_elem_of_In%repeat_spec. by subst.
Qed.

(** An entry of the diagonal stays zero under a product with finite
    factors. *)
Lemma lateral_diagonal n (c d : Q) r w g i :
  shape w = [n; n] → length (data w) = (n * n)%nat →
  length (data g) = n → Forall finite (data g) →
  (i < n)%nat → is_zero (get2 w i i) →
  is_zero (get2 (azip nmul (clamp0 (shift c (scale d (gauss_draws r [n; n]))))
                           (azip nmul w (tile_cols g n))) i i).
Proof.
  intros Hsh Hl Hg Hgf Hi Hz. unfold get2, ncols in *. rewrite Hsh in Hz. cbn [nth] in Hz.
  cbn [azip shape clamp0 amap shift scale gauss_draws nth data tile_cols].
  assert (Hi' : (i * n + i < n * n)%nat) by nia.
  rewrite nth_zip_with;
    [|rewrite !length_map, length_draws; cbn; lia
     |rewrite length_zip_with, length_tile, Hl, Hg; lia].
  rewrite nth_zip_with; [|lia|rewrite length_tile, Hg; lia].
  apply is_zero_nmul_r.
  - rewrite !nth_map_num by (rewrite ?length_map, length_draws; cbn; lia).
    apply finite_nmaximum; [done|]. apply finite_nadd; [done|]. apply finite_nmul; [done|].
    apply nth_Forall; [apply draws_finite|]. rewrite length_draws. cbn. lia.
  - apply is_zero_nmul_l; [done|].
    apply nth_Forall; [by apply tile_finite|]. rewrite length_tile, Hg. lia.
Qed.

Lemma stage_L2_Ok s r s' r' n w :
  stage_L2 s r = Ok tt s' r' →
  is_dim s "nG" n → s !! "L2G" = Some (VArr w) →
  shape w = [n; n] → length (data w) = (n * n)%nat →
  (∀ i, (i < n)%nat → is_zero (get2 w i i)) →
  ∀ k, k ∈ ["L2G"; "L2R"; "L2P"; "L2L"] →
       ∃ a, s' !! k = Some (VArr a) ∧ zero_diagonal n a.
Proof.
  unfold stage_L2. intros H Hn Hw Hsh Hl Hd.
  step H. destruct H0 as (gm & gs & n' & _ & _ & Hn' & -> & ->). same_dim Hn.
  do 2 step H. same_dim Hn. do 3 step H.
  set (gaba := shift gm (scale gs (gauss_draws r [n; 1%nat]))) in *.
  assert (Hg : length (data gaba) = n).
  { unfold gaba. rewrite length_noise. cbn. lia. }
  assert (Hgf : Forall finite (data gaba)) by apply noise_finite.
  assert (Hlat : ∀ c d r0, zero_diagonal n
            (azip nmul (clamp0 (shift c (scale d (gauss_draws r0 [n; n]))))
                       (azip nmul w (tile_cols gaba n)))).
  { intros c d r0. split; [done|]. intros i Hi. apply lateral_diagonal; auto. }
  apply bind_Ok in H as (x1 & ? & ? & (-> & c1 & d1 & ? & ? & Hn1 & Hn2 & -> & ->)%lateral_Ok & H).
  rewrite is_dim_insert in Hn1, Hn2 by discriminate. same_dim Hn. step H.
  apply bind_Ok in H as (x2 & ? & ? & (-> & c2 & d2 & ? & ? & Hn1 & Hn2 & -> & ->)%lateral_Ok & H).
  rewrite !is_dim_insert in Hn1, Hn2 by discriminate. same_dim Hn. step H.
  apply bind_Ok in H as (x3 & ? & ? & (-> & c3 & d3 & ? & ? & Hn1 & Hn2 & -> & ->)%lateral_Ok & H).
  rewrite !is_dim_insert in Hn1, Hn2 by discriminate. same_dim Hn. step H.
  apply bind_Ok in H as (x4 & ? & ? & (-> & c4 & d4 & ? & ? & Hn1 & Hn2 & -> & ->)%lateral_Ok & H).
  finish H.
  intros k Hk. apply list_elem_of_In in Hk. simpl in Hk.
  destruct Hk as [<-|[<-|[<-|[<-|[]]]]];
    repeat first [rewrite lookup_insert_eq | rewrite lookup_insert_ne by discriminate];
    eexists; (split; [reflexivity|]); try apply Hlat.
  split; [done|]. intros i Hi. unfold get2, ncols. cbn [amap shape data].
  rewrite Hsh. cbn [nth]. rewrite nth_map_num by (rewrite Hl; nia).
  apply is_zero_nmul_l; [|done]. specialize (Hd i Hi). unfold get2, ncols in Hd.
  by rewrite Hsh in Hd.
Qed.

(** [kept k H]: the run [H] left the attribute [k] as it was. *)
Ltac kept k Hrun :=
  lazymatch type of Hrun with
  | ?m ?s ?r = Ok ?a ?s' ?r' =>
      let Hk := fresh "Hk" in
      assert (Hk : s' !! k = s !! k)
        by (apply (keeps_Ok k m s r a s' r'); [keeps_tac | exact Hrun])
  end.

(** C7: in the model the builder returns, [L2G] and the matrices derived
    from it by elementwise products ([L2R], [L2P], [L2L]) are [nG] by [nG]
    with a zero diagonal. *)
Theorem no_self_connection (s : store) (r : RandomState) s' r' :
  initializeConnectionMatrices s r = Ok tt s' r' →
  ∃ n, is_dim s "nG" n ∧
       ∀ k, k ∈ ["L2G"; "L2R"; "L2P"; "L2L"] →
            ∃ a, s' !! k = Some (VArr a) ∧ zero_diagonal n a.
Proof.
  intros H. apply builder_stages in H as
    (s1 & r1 & s2 & r2 & s3 & r3 & s4 & r4 & s5 & r5 & s6 & r6 & conn &
     s7 & r7 & s8 & r8 & s9 & r9 & s10 & r10 & s11 & r11 &
     H1 & H2 & H3 & H4 & H5 & H6 & H7 & H8 & H9 & H10 & H11 & H).
  pose proof H5 as (mu & sd & fr & n & _ & _ & _ & Hn & Hw)%stage_L2G_Ok.
  assert (Hn5 : is_dim s5 "nG" n).
  { kept "nG" H5. unfold is_dim in *. by rewrite Hk. }
  exists n. split.
  { kept "nG" H1. kept "nG" H2. kept "nG" H3. kept "nG" H4.
    unfold is_dim in *. by rewrite <- Hk, <- Hk0, <- Hk1, <- Hk2. }
  set (w0 := L2G_raw mu sd n r4) in *.
  pose proof (stage_L2_Ok _ _ _ _ n _ H6 Hn5 Hw
    (L2G_sparse_shape w0 n fr _) (L2G_sparse_length w0 n fr _)
    (L2G_sparse_diagonal w0 n fr _ (L2G_raw_shape _ _ _ _) (L2G_raw_length _ _ _ _)
       (fun i Hi => L2G_raw_diagonal mu sd n r4 i Hi))) as Hall.
  intros k Hk. destruct (Hall k Hk) as (a & Ha & Hz). exists a. split; [|done].
  rewrite <- Ha. apply list_elem_of_In in Hk. simpl in Hk.
  destruct Hk as [<-|[<-|[<-|[<-|[]]]]].
  all: lazymatch goal with
       | |- _ !! ?k = _ =>
           kept k H; kept k H11; kept k H10; kept k H9; kept k H8; kept k H7
       end; congruence.
Qed.

Lemma no_self_connection_witness :
  ∃ s' r', initializeConnectionMatrices example_mP example_rs = Ok tt s' r' ∧
  ∃ n, is_dim example_mP "nG" n ∧
       ∀ k, k ∈ ["L2G"; "L2R"; "L2P"; "L2L"] →
            ∃ a, s' !! k = Some (VArr a) ∧ zero_diagonal n a.
Proof.
  destruct (returns_Ok _ example_returns) as ([] & s' & r' & E).
  exists s', r'. split; [exact E|].
  exact (no_self_connection example_mP example_rs s' r' E).
Defined.

(** ** Clamped weights (lines 57-60, 122-128, 172-177) *)

Lemma randint_Ok n s r a s' r' :
  randint n s r = Ok a s' r' → s' = s ∧ r' = advance r 1 ∧ (a < n)%nat.
Proof.
  unfold randint. destruct n as [|n]; [discriminate|]. intros [= <- <- <-].
  repeat split. exact (Nat.mod_upper_bound (integer r (cursor r)) (S n) ltac:(lia)).
Qed.

Lemma foldM_invariant {A B} (I : store → Prop) (body : B → A → M B) l :
  (∀ b x s r b' s' r', body b x s r = Ok b' s' r' → I s → I s') →
  ∀ b s r b' s' r', foldM body l b s r = Ok b' s' r' → I s → I s'.
Proof.
  intros Hb. induction l as [|x l IH]; intros b s r b' s' r' H Hs; simpl in H.
  - unfold ret in H. by injection H as <- <- <-.
  - apply bind_Ok in H as (b1 & s1 & r1 & H1 & H). eauto.
Qed.

Lemma capacity_step_finite mx nR counts j s r c' s' r' :
  capacity_step mx nR counts j s r = Ok c' s' r' →
  finite_at s "F2Rbinary" → finite_at s' "F2Rbinary".
Proof.
  unfold capacity_step. intros H (b & Hb & Hf).
  apply bind_Ok in H as (a & ? & ? & (-> & -> & _)%randint_Ok & H).
  do 2 step H. unfold ret in H. injection H as <- <- <-.
  eexists. rewrite lookup_insert_eq. split; [reflexivity|].
  cbn [set2 data]. by apply Forall_insert.
Qed.

Lemma range_Ok k s r l s' r' : range k s r = Ok l s' r' → s' = s ∧ r' = r.
Proof.
  unfold range. intros H. step H. unfold ret in H. by injection H as <- <- <-.
Qed.

Lemma finite_at_keeps k {A} (m : M A) s r a s' r' :
  keeps k m → m s r = Ok a s' r' → finite_at s k → finite_at s' k.
Proof.
  intros Hk Hm (w & Hw & Hf). exists w. split; [|done].
  by rewrite (keeps_Ok k m s r a s' r' Hk Hm).
Qed.

Lemma below_finite p u : Forall finite (data (below p u)).
Proof.
  cbn [below amap data]. apply (Forall_map_num (fun _ => True)); [done|].
  by apply Forall_true.
Qed.

Lemma orthogonalize_finite s r s' r' :
  orthogonalize s r = Ok tt s' r' →
  finite_at s "F2Rbinary" → finite_at s' "F2Rbinary".
Proof.
  unfold orthogonalize. intros H (b & Hb & Hf). step H.
  apply bind_Ok in H as (rows & ? & ? & (-> & ->)%range_Ok & H).
  apply bind_Ok in H as ([] & s1 & r1 & Hfor & H). finish H.
  exists b. by rewrite lookup_insert_eq.
Qed.

Lemma capacity_mask_finite s r s' r' :
  capacity_mask s r = Ok tt s' r' → finite_at s' "F2Rbinary".
Proof.
  unfold capacity_mask. intros H. do 6 step H.
  apply bind_Ok in H as ([] & s1 & r1 & Hz & H).
  assert (s1 = <["F2Rbinary" := VArr (zeros [x; x0])]> s) as ->.
  { destruct (Qeq_bool _ _); [discriminate|]. unfold ret in Hz. by injection Hz as <- <-. }
  apply bind_Ok in H as (rounds & ? & ? & (-> & ->)%range_Ok & H).
  apply bind_Ok in H as (counts & s2 & r2 & Hloop & H). finish H.
  eapply (foldM_invariant (fun s => finite_at s "F2Rbinary")); [|exact Hloop|].
  - intros b i sa ra b' sb rb Hin Hsa.
    apply bind_Ok in Hin as (cols & ? & ? & (-> & ->)%range_Ok & Hin).
    eapply (foldM_invariant (fun s => finite_at s "F2Rbinary")); [|exact Hin|exact Hsa].
    intros ? ? ? ? ? ? ?. apply capacity_step_finite.
  - eexists. rewrite lookup_insert_eq. split; [reflexivity|].
    cbn [zeros full data]. apply Forall_forall. intros y Hy%list_elem_of_In%repeat_spec.
    by subst.
Qed.

Lemma stage_F2Rbinary_finite s r s' r' :
  stage_F2Rbinary s r = Ok tt s' r' → finite_at s' "F2Rbinary".
Proof.
  unfold stage_F2Rbinary. intros H. step H.
  destruct (Qlt_le_dec 0 _); [|by apply capacity_mask_finite in H].
  do 5 step H.
  apply bind_Ok in H as (t & s1 & r1 & Ht & H).
  match type of Ht with
  | truthy _ ?s0 _ = _ => assert (Hfin : finite_at s0 "F2Rbinary")
  end.
  { eexists. rewrite lookup_insert_eq. split; [reflexivity|]. apply below_finite. }
  eapply (finite_at_keeps _ _ _ _ _ _ _ (keeps_truthy _ _) Ht) in Hfin.
  destruct t; [by apply orthogonalize_finite in H|].
  unfold ret in H. by injection H as <- <-.
Qed.

Lemma nonneg_clamp x : finite x → nonneg (nmaximum (Fin 0) x).
Proof. destruct x as [q| | |]; try done. intros _. simpl. apply Q.le_max_l. Qed.

Lemma nonneg_of_bool b : nonneg (of_bool b).
Proof. by destruct b. Qed.

Lemma nonneg_nmul x y : nonneg x → finite x → nonneg y → finite y → nonneg (nmul x y).
Proof.
  destruct x as [p| | |], y as [q| | |]; try done. simpl. intros Hp _ Hq _.
  by apply Qmult_le_0_compat.
Qed.

Lemma nonneg_cap c x : (0 <= c)%Q → nonneg x → nonneg (if ngt x (Fin c) then Fin c else x).
Proof. intros Hc Hx. by destruct (ngt x (Fin c)). Qed.

Lemma clamp0_nonneg a : Forall finite (data a) → Forall nonneg (data (clamp0 a)).
Proof. intros H. by apply (Forall_map_num finite); [apply nonneg_clamp|]. Qed.

Lemma clamp0_finite a : Forall finite (data a) → Forall finite (data (clamp0 a)).
Proof. intros H. apply (Forall_map_num finite); [intros; by apply finite_nmaximum|done]. Qed.

Lemma stage_F2R_nonneg s r s' r' :
  stage_F2R s r = Ok tt s' r' → finite_at s "F2Rbinary" → all_nonneg s' "F2R".
Proof.
  unfold stage_F2R. intros H (b & Hb & Hf).
  do 8 step H. finish H.
  eexists. rewrite lookup_insert_eq. split; [reflexivity|].
  apply clamp0_nonneg. cbn [azip data].
  apply (Forall_zip_with finite finite); [intros; by apply finite_nmul| |done].
  apply (Forall_zip_with finite finite); [intros; by apply finite_nadd| |].
  - apply (Forall_map_num finite); [intros; by apply finite_nmul|done].
  - apply (Forall_map_num finite); [intros; by apply finite_nmul|]. apply draws_finite.
Qed.

(** A clamped Gaussian matrix, masked by a 0/1 array and capped at a
    non-negative ceiling, is non-negative. *)
Lemma capped_nonneg c x m :
  (0 <= c)%Q → Forall finite (data x) →
  Forall (fun t => nonneg t ∧ finite t) (data m) →
  Forall nonneg (data (cap c (azip nmul (clamp0 x) m))).
Proof.
  intros Hc Hx Hm. cbn [cap amap azip data].
  apply (Forall_map_num nonneg); [intros; by apply nonneg_cap|].
  apply (Forall_zip_with (fun t => nonneg t ∧ finite t) (fun t => nonneg t ∧ finite t));
    [intros ? ? [] []; by apply nonneg_nmul| |done].
  cbn [clamp0 amap data]. apply (Forall_map_num finite); [|done].
  intros t Ht. split; [by apply nonneg_clamp | by apply finite_nmaximum].
Qed.

Lemma below_mask p u : Forall (fun t => nonneg t ∧ finite t) (data (below p u)).
Proof.
  cbn [below amap data]. apply (Forall_map_num (fun _ => True)); [|by apply Forall_true].
  intros x _. split; [apply nonneg_of_bool | exact I].
Qed.

Lemma stage_P2K_nonneg s r conn s' r' c :
  stage_P2K s r = Ok conn s' r' → has_num s "hebMaxPK" c → (0 <= c)%Q →
  all_nonneg s' "P2K".
Proof.
  unfold stage_P2K. intros H Hc Hpos. do 3 step H.
  step H. destruct H3 as (mu & sd & n1 & n2 & _ & _ & _ & _ & -> & ->).
  do 6 step H. same_num Hc. unfold ret in H. injection H as <- <- <-.
  eexists. rewrite lookup_insert_eq. split; [reflexivity|].
  apply capped_nonneg; [done|apply noise_finite|apply below_mask].
Qed.

Lemma stage_K2E_nonneg s r s' r' c :
  stage_K2E s r = Ok tt s' r' → has_num s "hebMaxKE" c → (0 <= c)%Q →
  all_nonneg s' "K2E".
Proof.
  unfold stage_K2E. intros H Hc Hpos. do 4 step H.
  step H. destruct H3 as (mu & sd & n1 & n2 & _ & _ & _ & _ & -> & ->).
  do 6 step H. same_num Hc. finish H.
  eexists. rewrite lookup_insert_eq. split; [reflexivity|].
  apply capped_nonneg; [done|apply noise_finite|apply below_mask].
Qed.

Lemma all_nonneg_lookup s s' k : s' !! k = s !! k → all_nonneg s k → all_nonneg s' k.
Proof. intros E (a & Ha & Hf). exists a. by rewrite E. Qed.

(** C5, as the code has it: [F2R] is clamped at zero, and [P2K], [K2E] are
    clamped, masked and capped, so they are non-negative when their ceiling
    is.  ([R2P], [R2L], [L2R], [L2P], [L2L] and [kGlobalDampVec] carry an
    unclamped Gaussian factor.) *)
Theorem clamped_weights_nonneg (s : store) (r : RandomState) s' r' :
  initializeConnectionMatrices s r = Ok tt s' r' →
  all_nonneg s' "F2R" ∧
  (∀ c, has_num s "hebMaxPK" c → (0 <= c)%Q → all_nonneg s' "P2K") ∧
  (∀ c, has_num s "hebMaxKE" c → (0 <= c)%Q → all_nonneg s' "K2E").
Proof.
  intros H. apply builder_stages in H as
    (s1 & r1 & s2 & r2 & s3 & r3 & s4 & r4 & s5 & r5 & s6 & r6 & conn &
     s7 & r7 & s8 & r8 & s9 & r9 & s10 & r10 & s11 & r11 &
     H1 & H2 & H3 & H4 & H5 & H6 & H7 & H8 & H9 & H10 & H11 & H).
  split; [|split].
  - pose proof (stage_F2R_nonneg _ _ _ _ H2 (stage_F2Rbinary_finite _ _ _ _ H1)) as Hnn.
    eapply all_nonneg_lookup; [|exact Hnn].
    kept "F2R" H; kept "F2R" H11; kept "F2R" H10; kept "F2R" H9; kept "F2R" H8;
      kept "F2R" H7; kept "F2R" H6; kept "F2R" H5; kept "F2R" H4; kept "F2R" H3.
    congruence.
  - intros c Hc Hpos.
    carry Hc H1. carry Hc H2. carry Hc H3. carry Hc H4. carry Hc H5. carry Hc H6.
    pose proof (stage_P2K_nonneg _ _ _ _ _ c H7 Hc Hpos) as Hnn.
    eapply all_nonneg_lookup; [|exact Hnn].
    kept "P2K" H; kept "P2K" H11; kept "P2K" H10; kept "P2K" H9; kept "P2K" H8.
    congruence.
  - intros c Hc Hpos.
    carry Hc H1. carry Hc H2. carry Hc H3. carry Hc H4. carry Hc H5. carry Hc H6.
    carry Hc H7. carry Hc H8. carry Hc H9.
    pose proof (stage_K2E_nonneg _ _ _ _ c H10 Hc Hpos) as Hnn.
    eapply all_nonneg_lookup; [|exact Hnn].
    kept "K2E" H; kept "K2E" H11. congruence.
Qed.

Lemma clamped_weights_nonneg_witness :
  ∃ s' r', initializeConnectionMatrices example_mP example_rs = Ok tt s' r' ∧
           has_num example_mP "hebMaxPK" 5 ∧ has_num example_mP "hebMaxKE" 5 ∧
           all_nonneg s' "F2R" ∧ all_nonneg s' "P2K" ∧ all_nonneg s' "K2E".
Proof.
  destruct (returns_Ok _ example_returns) as ([] & s' & r' & E).
  assert (HP : has_num example_mP "hebMaxPK" 5) by (exists (VFloat 5); split; reflexivity).
  assert (HK : has_num example_mP "hebMaxKE" 5) by (exists (VFloat 5); split; reflexivity).
  exists s', r'. split; [exact E|]. split; [exact HP|]. split; [exact HK|].
  destruct (clamped_weights_nonneg example_mP example_rs s' r' E) as (HF & H1 & H2).
  split; [exact HF|]. split; [apply (H1 5%Q HP); discriminate | apply (H2 5%Q HK); discriminate].
Defined.

(** ** What the builder writes *)

Ltac not_derived Hk :=
  let E := fresh in
  intros E; apply Hk; rewrite <- E; apply list_elem_of_In; simpl;
  repeat first [left; reflexivity | right].

Ltac keeps_any Hk :=
  repeat first [ apply keeps_setattr; not_derived Hk | keeps_step ].

(** The builder assigns the derived attributes only: any other attribute
    of [mP], every input among them, is as the caller passed it when the
    builder returns, and also when it raises. *)
Theorem inputs_left_alone (k : string) :
  k ∉ derived_fields → keeps k initializeConnectionMatrices.
Proof. intros Hk. unfold derived_fields in Hk. keeps_any Hk. Qed.

Lemma inputs_left_alone_witness :
  ("nG" ∉ derived_fields) ∧ keeps "nG" initializeConnectionMatrices.
Proof.
  assert (H : "nG" ∉ derived_fields).
  { intros H%list_elem_of_In. simpl in H.
    repeat (destruct H as [H|H]; [discriminate|]). exact H. }
  split; [exact H|]. exact (inputs_left_alone "nG" H).
Defined.

(** ** Weight ceilings (lines 128, 161, 177) *)

Lemma cap_at_most c a : Forall (fun x => ngt x (Fin c) = false) (data (cap c a)).
Proof.
  cbn [cap amap data]. apply (Forall_map_num (fun _ => True)); [|by apply Forall_true].
  intros x _. destruct (ngt x (Fin c)) eqn:E; [|exact E].
  unfold ngt, nlt. cbn. by rewrite (proj1 (Qeq_alt c c) (Qeq_refl c)).
Qed.

Lemma all_at_most_lookup s s' k c : s' !! k = s !! k → all_at_most s k c → all_at_most s' k c.
Proof. intros E (a & Ha & Hf). exists a. by rewrite E. Qed.

Lemma stage_P2K_capped s r conn s' r' c :
  stage_P2K s r = Ok conn s' r' → has_num s "hebMaxPK" c → all_at_most s' "P2K" c.
Proof.
  unfold stage_P2K. intros H Hc. do 10 step H. same_num Hc.
  unfold ret in H. injection H as <- <- <-.
  eexists. rewrite lookup_insert_eq. split; [reflexivity|]. apply cap_at_most.
Qed.

Lemma stage_K2E_capped s r s' r' c :
  stage_K2E s r = Ok tt s' r' → has_num s "hebMaxKE" c → all_at_most s' "K2E" c.
Proof.
  unfold stage_K2E. intros H Hc. do 11 step H. same_num Hc. finish H.
  eexists. rewrite lookup_insert_eq. split; [reflexivity|]. apply cap_at_most.
Qed.

Lemma stage_PI2K_capped s r s' r' n c :
  stage_PI2K s r = Ok tt s' r' → has_num s "nPI" n → (0 < n)%Q →
  has_num s "hebMaxPIK" c → all_at_most s' "PI2K" c.
Proof.
  unfold stage_PI2K. intros H Hn Hpos Hc. step H. same_num Hn.
  destruct (Qlt_le_dec 0 n) as [_|Hle]; [|by apply Qle_not_lt in Hle].
  do 11 step H. same_num Hc. finish H.
  eexists. rewrite lookup_insert_eq. split; [reflexivity|]. apply cap_at_most.
Qed.

(** No entry of [P2K], [K2E] or (when there are PIs) [PI2K] is above its
    ceiling [hebMaxPK], [hebMaxKE], [hebMaxPIK] in the model the builder
    returns. *)
Theorem weights_capped (s : store) (r : RandomState) s' r' :
  initializeConnectionMatrices s r = Ok tt s' r' →
  (∀ c, has_num s "hebMaxPK" c → all_at_most s' "P2K" c) ∧
  (∀ c, has_num s "hebMaxKE" c → all_at_most s' "K2E" c) ∧
  (∀ n c, has_num s "nPI" n → (0 < n)%Q → has_num s "hebMaxPIK" c →
          all_at_most s' "PI2K" c).
Proof.
  intros H. apply builder_stages in H as
    (s1 & r1 & s2 & r2 & s3 & r3 & s4 & r4 & s5 & r5 & s6 & r6 & conn &
     s7 & r7 & s8 & r8 & s9 & r9 & s10 & r10 & s11 & r11 &
     H1 & H2 & H3 & H4 & H5 & H6 & H7 & H8 & H9 & H10 & H11 & H).
  split; [|split].
  - intros c Hc.
    carry Hc H1. carry Hc H2. carry Hc H3. carry Hc H4. carry Hc H5. carry Hc H6.
    eapply all_at_most_lookup; [|exact (stage_P2K_capped _ _ _ _ _ c H7 Hc)].
    kept "P2K" H; kept "P2K" H11; kept "P2K" H10; kept "P2K" H9; kept "P2K" H8.
    congruence.
  - intros c Hc.
    carry Hc H1. carry Hc H2. carry Hc H3. carry Hc H4. carry Hc H5. carry Hc H6.
    carry Hc H7. carry Hc H8. carry Hc H9.
    eapply all_at_most_lookup; [|exact (stage_K2E_capped _ _ _ _ c H10 Hc)].
    kept "K2E" H; kept "K2E" H11. congruence.
  - intros n c Hn Hpos Hc.
    carry Hc H1. carry Hc H2. carry Hc H3. carry Hc H4. carry Hc H5. carry Hc H6.
    carry Hc H7. carry Hc H8.
    carry Hn H1. carry Hn H2. carry Hn H3. carry Hn H4. carry Hn H5. carry Hn H6.
    carry Hn H7. carry Hn H8.
    eapply all_at_most_lookup; [|exact (stage_PI2K_capped _ _ _ _ n c H9 Hn Hpos Hc)].
    kept "PI2K" H; kept "PI2K" H11; kept "PI2K" H10. congruence.
Qed.

Lemma weights_capped_witness :
  ∃ s' r', initializeConnectionMatrices example_mP example_rs = Ok tt s' r' ∧
           all_at_most s' "P2K" 5 ∧ all_at_most s' "K2E" 5 ∧ all_at_most s' "PI2K" 5.
Proof.
  destruct (returns_Ok _ example_returns) as ([] & s' & r' & E).
  exists s', r'. split; [exact E|].
  destruct (weights_capped example_mP example_rs s' r' E) as (H1 & H2 & H3).
  split; [|split].
  - apply H1. exists (VFloat 5). split; reflexivity.
  - apply H2. exists (VFloat 5). split; reflexivity.
  - apply (H3 1%Q); [exists (VInt 1); split; reflexivity | reflexivity
                    | exists (VFloat 5); split; reflexivity].
Defined.

(** ** Without PIs (lines 157-161) *)

(** With [nPI <= 0] the builder skips lines 158-161: the model it returns
    has [PI2K] and [PI2Kconn] as the caller passed them, so not at all if
    the caller passed none. *)
Theorem no_PI_no_PI2K (s : store) (r : RandomState) n s' r' :
  initializeConnectionMatrices s r = Ok tt s' r' →
  has_num s "nPI" n → (n <= 0)%Q →
  s' !! "PI2K" = s !! "PI2K" ∧ s' !! "PI2Kconn" = s !! "PI2Kconn".
Proof.
  intros H Hn Hle. apply builder_stages in H as
    (s1 & r1 & s2 & r2 & s3 & r3 & s4 & r4 & s5 & r5 & s6 & r6 & conn &
     s7 & r7 & s8 & r8 & s9 & r9 & s10 & r10 & s11 & r11 &
     H1 & H2 & H3 & H4 & H5 & H6 & H7 & H8 & H9 & H10 & H11 & H).
  carry Hn H1. carry Hn H2. carry Hn H3. carry Hn H4. carry Hn H5. carry Hn H6.
  carry Hn H7. carry Hn H8.
  assert (s9 = s8) as ->.
  { unfold stage_PI2K in H9. step H9. same_num Hn.
    destruct (Qlt_le_dec 0 n) as [Hlt|_]; [by apply Qle_not_lt in Hle|].
    unfold ret in H9. by injection H9 as <- <-. }
  split.
  - kept "PI2K" H; kept "PI2K" H11; kept "PI2K" H10; kept "PI2K" H8; kept "PI2K" H7;
    kept "PI2K" H6; kept "PI2K" H5; kept "PI2K" H4; kept "PI2K" H3; kept "PI2K" H2;
    kept "PI2K" H1. congruence.
  - kept "PI2Kconn" H; kept "PI2Kconn" H11; kept "PI2Kconn" H10; kept "PI2Kconn" H8;
    kept "PI2Kconn" H7; kept "PI2Kconn" H6; kept "PI2Kconn" H5; kept "PI2Kconn" H4;
    kept "PI2Kconn" H3; kept "PI2Kconn" H2; kept "PI2Kconn" H1. congruence.
Qed.

(** ** The capacity mode (lines 43-54) *)

Lemma int_num v z : int_of v = Some z → num_of v = Some (inject_Z z).
Proof. destruct v as [| |[]|]; simpl; intros [= <-]; reflexivity. Qed.

Lemma is_dim_has_num s k n : is_dim s k n → has_num s k (inject_Z (Z.of_nat n)).
Proof.
  intros (v & z & Hv & Hz & Hpos & ->). exists v. split; [done|].
  rewrite Z2Nat.id by done. by apply int_num.
Qed.

Lemma getint_run k s r v z : s !! k = Some v → int_of v = Some z → getint k s r = Ok z s r.
Proof.
  intros Hv Hz. unfold getint.
  rewrite (bind_run _ _ _ _ _ _ _ (attr_run _ _ _ _ Hv)). by rewrite Hz.
Qed.

Lemma dim_run k s r n : is_dim s k n → dim k s r = Ok n s r.
Proof.
  intros (v & z & Hv & Hz & Hpos & ->). unfold dim.
  rewrite (bind_run _ _ _ _ _ _ _ (getint_run _ _ _ _ _ Hv Hz)).
  by destruct (Z.ltb_spec z 0); [lia|].
Qed.

Lemma range_run k s r n : is_dim s k n → range k s r = Ok (seq 0 n) s r.
Proof.
  intros (v & z & Hv & Hz & Hpos & ->). unfold range.
  by rewrite (bind_run _ _ _ _ _ _ _ (getint_run _ _ _ _ _ Hv Hz)).
Qed.

Lemma getarr_run k s r a : s !! k = Some (VArr a) → getarr k s r = Ok a s r.
Proof.
  intros Hv. unfold getarr. by rewrite (bind_run _ _ _ _ _ _ _ (attr_run _ _ _ _ Hv)).
Qed.

Lemma advance_advance r a b : advance (advance r a) b = advance r (a + b).
Proof. unfold advance. cbn. f_equal. lia. Qed.

(** A loop over [seq a n] whose body keeps an invariant indexed by the
    iteration runs to the end. *)
Lemma foldM_seq_run {B} (I : nat → B → store → RandomState → Prop)
    (body : B → nat → M B) n :
  ∀ a b s r,
    (∀ i b s r, (a ≤ i < a + n)%nat → I i b s r →
       ∃ b' s' r', body b i s r = Ok b' s' r' ∧ I (S i) b' s' r') →
    I a b s r →
    ∃ b' s' r', foldM body (seq a n) b s r = Ok b' s' r' ∧ I (a + n)%nat b' s' r'.
Proof.
  induction n as [|n IH]; intros a b s r Hbody HI.
  - exists b, s, r. split; [done|]. by rewrite Nat.add_0_r.
  - destruct (Hbody a b s r ltac:(lia) HI) as (b1 & s1 & r1 & H1 & HI1).
    destruct (IH (S a) b1 s1 r1) as (b' & s' & r' & H & HI'); [|done|].
    { intros i ? ? ? Hi. apply Hbody. lia. }
    exists b', s', r'. split; [|by replace (a + S n)%nat with (S a + n)%nat by lia].
    simpl. by rewrite (bind_run _ _ _ _ _ _ _ H1).
Qed.

Lemma sumZ_below l : ∀ n mx,
  length l = n → (sumZ l < Z.of_nat n * mx)%Z → ∃ t, (t < n)%nat ∧ (nth t l 0 < mx)%Z.
Proof.
  induction l as [|x l IH]; intros n mx Hn Hs; simpl in *.
  - subst n. simpl in Hs. lia.
  - destruct n as [|n]; [discriminate|]. injection Hn as Hn.
    destruct (Z_lt_le_dec x mx) as [Hx|Hx]; [exists 0%nat; split; [lia|done]|].
    destruct (IH n mx Hn) as (t & Ht & Hlt); [lia|].
    exists (S t). split; [lia|done].
Qed.

Lemma nth_insert_Z (l : list Z) t t' v :
  (t < length l)%nat → nth t' (<[t := v]> l) 0%Z = if (t =? t')%nat then v else nth t' l 0%Z.
Proof.
  intros Ht. rewrite !nth_lookup. destruct (Nat.eqb_spec t t') as [<-|Hne].
  - by rewrite list_lookup_insert_eq.
  - by rewrite list_lookup_insert_ne.
Qed.

Lemma sumZ_insert l : ∀ t v,
  (t < length l)%nat → sumZ (<[t := v]> l) = (sumZ l - nth t l 0 + v)%Z.
Proof.
  induction l as [|x l IH]; intros t v Ht; simpl in *; [lia|].
  destruct t as [|t]; simpl; [lia|]. rewrite IH by lia. lia.
Qed.

Lemma sumZ_repeat n : sumZ (repeat 0%Z n) = 0%Z.
Proof. induction n as [|n IH]; simpl; [done|]. by rewrite IH. Qed.

Lemma get2_set2 b n c t j v t' j' :
  shape b = [n; c] → length (data b) = (n * c)%nat →
  (t < n)%nat → (j < c)%nat → (t' < n)%nat → (j' < c)%nat →
  get2 (set2 b t j v) t' j' = if (t =? t')%nat && (j =? j')%nat then v else get2 b t' j'.
Proof.
  intros Hs Hl Ht Hj Ht' Hj'. unfold get2, set2, ncols. cbn [shape data]. rewrite Hs.
  cbn [nth]. rewrite !nth_lookup.
  destruct (Nat.eqb_spec t t') as [<-|Hne]; [destruct (Nat.eqb_spec j j') as [<-|Hne]|]; cbn [andb].
  - rewrite list_lookup_insert_eq; [done|]. rewrite Hl. nia.
  - rewrite list_lookup_insert_ne; [done|]. lia.
  - rewrite list_lookup_insert_ne; [done|]. nia.
Qed.

Lemma sum_to_bump n f g j :
  (j < n)%nat → (∀ k, (k < n)%nat → k ≠ j → f k = g k) → (f j ≤ g j + 1)%nat →
  (sum_to n f ≤ sum_to n g + 1)%nat.
Proof.
  induction n as [|n IH]; intros Hj Hext Hb; [lia|]. simpl.
  destruct (decide (j = n)) as [->|Hne].
  - rewrite (sum_to_ext n f g) by (intros; apply Hext; lia). lia.
  - rewrite (Hext n) by lia.
    assert (sum_to n f ≤ sum_to n g + 1)%nat; [|lia].
    apply IH; [lia| |done]. intros. apply Hext; lia.
Qed.

Lemma sum_to_pos n f t : (t < n)%nat → (0 < f t)%nat → (0 < sum_to n f)%nat.
Proof.
  induction n as [|n IH]; intros Ht Hf; [lia|]. simpl.
  destruct (decide (t = n)) as [->|]; [lia|]. specialize (IH ltac:(lia) Hf). lia.
Qed.

Lemma get2_zeros n c t j : (t < n)%nat → (j < c)%nat → get2 (zeros [n; c]) t j = Fin 0.
Proof.
  intros Ht Hj. unfold get2, zeros, full, ncols. cbn [shape data nth numel fold_right].
  apply nth_repeat_lt. nia.
Qed.

Lemma maxFperR_enough c k n :
  (0 < n)%nat → (Z.of_nat (k * c) ≤ Z.of_nat n * maxFperR c k n)%Z ∧ (0 ≤ maxFperR c k n)%Z.
Proof.
  intros Hn. unfold maxFperR.
  set (q := (inject_Z (Z.of_nat c) * inject_Z (Z.of_nat k) / inject_Z (Z.of_nat n))%Q).
  pose proof (Qle_ceiling q) as Hq.
  assert (Hn' : (0 < inject_Z (Z.of_nat n))%Q).
  { rewrite <- (Zlt_Qlt 0). lia. }
  assert (Hck : (inject_Z (Z.of_nat c) * inject_Z (Z.of_nat k)
                 <= inject_Z (Qceiling q) * inject_Z (Z.of_nat n))%Q).
  { rewrite <- (Qmult_div_r (inject_Z (Z.of_nat c) * inject_Z (Z.of_nat k))
                (inject_Z (Z.of_nat n))) at 1 by (intros E; rewrite E in Hn'; discriminate).
    rewrite (Qmult_comm (inject_Z (Qceiling q))). by apply Qmult_le_l. }
  rewrite <- !inject_Z_mult, <- Zle_Qle in Hck.
  split; [lia|].
  assert (0 ≤ Qceiling q * Z.of_nat n)%Z by lia. nia.
Qed.

Lemma randint_run n s r :
  (0 < n)%nat → randint n s r = Ok (integer r (cursor r) mod n)%nat s (advance r 1).
Proof. destruct n; [lia|reflexivity]. Qed.

Lemma capacity_step_run s0 r n c mx i j counts b :
  (j < c)%nat → (Z.of_nat (i * c + j) < Z.of_nat n * mx)%Z →
  round_robin_inv n c mx i j counts b →
  ∃ counts' b',
    capacity_step mx n counts j (<["F2Rbinary" := VArr b]> s0) r
      = Ok counts' (<["F2Rbinary" := VArr b']> s0) (advance r 1) ∧
    round_robin_inv n c mx i (S j) counts' b'.
Proof.
  intros Hj Hroom (Hlen & Hsh & Hdl & Hm & Hsum & Hrow & Hcu & Hcl).
  unfold capacity_step.
  set (inds := List.filter _ _).
  destruct (sumZ_below counts n mx Hlen ltac:(lia)) as (t0 & Ht0 & Hlt0).
  assert (Hin0 : In t0 inds).
  { apply filter_In. split; [apply in_seq; lia|]. by apply Z.ltb_lt. }
  assert (Hpos : (0 < length inds)%nat) by (destruct inds; [destruct Hin0|simpl; lia]).
  rewrite (bind_run _ _ _ _ _ _ _ (randint_run _ _ _ Hpos)).
  set (a := (integer r (cursor r) mod length inds)%nat).
  assert (Ha : (a < length inds)%nat) by (apply Nat.mod_upper_bound; lia).
  set (t := nth a inds 0%nat).
  assert (Hin : In t inds) by (apply nth_In, Ha).
  apply filter_In in Hin as [[_ Ht]%in_seq Hlt%Z.ltb_lt]. simpl in Ht.
  rewrite (bind_run _ _ _ _ _ _ _ (getarr_run _ _ _ _ (lookup_insert_eq _ _ _))).
  unfold bind, setattr, ret. rewrite insert_insert_eq.
  eexists _, _. split; [reflexivity|].
  assert (Hg : ∀ t' j', (t' < n)%nat → (j' < c)%nat →
            get2 (set2 b t j (Fin 1)) t' j'
            = if (t =? t')%nat && (j =? j')%nat then Fin 1 else get2 b t' j').
  { intros. by apply (get2_set2 b n c). }
  split; [by rewrite length_insert|]. split; [done|].
  split; [cbn [set2 data]; by rewrite length_insert|].
  split; [unfold is_mask; cbn [set2 data]; apply Forall_insert; [done|by right]|].
  split; [rewrite sumZ_insert by lia; lia|].
  split; [|split].
  - intros t' Ht'. rewrite nth_insert_Z by lia.
    destruct (Hrow t' Ht') as [Hr1 Hr2].
    destruct (Nat.eqb_spec t t') as [<-|Hne].
    + split; [|lia].
      pose proof (sum_to_bump c (fun j' => ind (nonzero (get2 (set2 b t j (Fin 1)) t j')))
                    (fun j' => ind (nonzero (get2 b t j'))) j Hj) as Hb.
      cbv beta in Hb. 
      assert (sum_to c (fun j' => ind (nonzero (get2 (set2 b t j (Fin 1)) t j')))
              ≤ sum_to c (fun j' => ind (nonzero (get2 b t j'))) + 1)%nat; [|lia].
      apply Hb.
      * intros k Hk Hne. rewrite Hg by done. rewrite Nat.eqb_refl.
        by destruct (Nat.eqb_spec j k); [congruence|].
      * rewrite Hg by done. rewrite !Nat.eqb_refl. cbn [andb].
        change (nonzero (Fin 1)) with true.
        destruct (nonzero (get2 b t j)); cbn [ind]; lia.
    + split; [|lia].
      rewrite (sum_to_ext c _ (fun j' => ind (nonzero (get2 b t' j')))); [done|].
      intros k Hk. rewrite Hg by done. by destruct (Nat.eqb_spec t t'); [congruence|].
  - intros j' Hj'. specialize (Hcu j' Hj').
    destruct (decide (j' = j)) as [->|Hne].
    + destruct (Nat.ltb_spec j j); [lia|]. destruct (Nat.ltb_spec j (S j)); [|lia].
      cbn [ind] in *.
      pose proof (sum_to_bump n (fun t' => ind (nonzero (get2 (set2 b t j (Fin 1)) t' j)))
                    (fun t' => ind (nonzero (get2 b t' j))) t Ht) as Hb.
      cbv beta in Hb.
      assert (sum_to n (fun t' => ind (nonzero (get2 (set2 b t j (Fin 1)) t' j)))
              ≤ sum_to n (fun t' => ind (nonzero (get2 b t' j))) + 1)%nat; [|lia].
      apply Hb.
      * intros k Hk Hne. rewrite Hg by done.
        by destruct (Nat.eqb_spec t k); [congruence|].
      * rewrite Hg by done. rewrite !Nat.eqb_refl. cbn [andb].
        change (nonzero (Fin 1)) with true.
        destruct (nonzero (get2 b t j)); cbn [ind]; lia.
    + rewrite (sum_to_ext n _ (fun t' => ind (nonzero (get2 b t' j')))).
      * destruct (Nat.ltb_spec j' j), (Nat.ltb_spec j' (S j)); cbn [ind] in *; lia.
      * intros k Hk. rewrite Hg by done.
        destruct (Nat.eqb_spec j j'); [congruence|]. by rewrite andb_false_r.
  - intros j' Hj' Hserved.
    destruct (decide (j' = j)) as [->|Hne].
    + exists t. split; [done|]. rewrite Hg by done. by rewrite !Nat.eqb_refl.
    + destruct (Hcl j' Hj') as (t' & Ht' & Hone); [lia|].
      exists t'. split; [done|]. rewrite Hg by done.
      destruct (Nat.eqb_spec j j'); [congruence|]. by rewrite andb_false_r.
Qed.

Lemma advance_0 r : advance r 0 = r.
Proof. destruct r. unfold advance. cbn. f_equal. lia. Qed.

Lemma round_robin_next n c mx i counts b :
  round_robin_inv n c mx i c counts b → round_robin_inv n c mx (S i) 0 counts b.
Proof.
  intros (Hlen & Hsh & Hdl & Hm & Hsum & Hrow & Hcu & Hcl).
  split; [done|]. split; [done|]. split; [done|]. split; [done|].
  split; [rewrite Hsum; lia|]. split; [done|]. split.
  - intros j' Hj'. specialize (Hcu j' Hj').
    destruct (Nat.ltb_spec j' c); [|lia]. cbn [ind] in *.
    change (ind (j' <? 0)%nat) with 0%nat. lia.
  - intros j' Hj' _. apply Hcl; [done|by right].
Qed.

Lemma capacity_round_run s0 r n c k mx i counts b :
  (i < k)%nat → (Z.of_nat (k * c) ≤ Z.of_nat n * mx)%Z →
  round_robin_inv n c mx i 0 counts b →
  ∃ counts' b',
    foldM (capacity_step mx n) (seq 0 c) counts (<["F2Rbinary" := VArr b]> s0) r
      = Ok counts' (<["F2Rbinary" := VArr b']> s0) (advance r c) ∧
    round_robin_inv n c mx (S i) 0 counts' b'.
Proof.
  intros Hi Hroom Hinv.
  destruct (foldM_seq_run
    (fun j counts s' r' => ∃ b, s' = <["F2Rbinary" := VArr b]> s0 ∧ r' = advance r j ∧
                                round_robin_inv n c mx i j counts b)
    (capacity_step mx n) c 0%nat counts (<["F2Rbinary" := VArr b]> s0) r)
    as (counts' & s' & r' & Hrun & b' & -> & -> & Hinv').
  - intros j cs s1 r1 Hj (b1 & -> & -> & H1).
    destruct (capacity_step_run s0 (advance r j) n c mx i j cs b1) as (cs' & b2 & Hstep & H2);
      [lia|nia|done|].
    exists cs', (<["F2Rbinary" := VArr b2]> s0), (advance (advance r j) 1).
    split; [done|]. exists b2. split; [done|]. split; [|done].
    rewrite advance_advance. f_equal. lia.
  - exists b. by rewrite advance_0.
  - exists counts', b'. split; [done|]. by apply round_robin_next.
Qed.

Lemma capacity_mask_run s r n c k :
  is_dim s "nR" n → (0 < n)%nat → is_dim s "nF" c → is_dim s "RperFRawNum" k →
  ∃ counts b,
    capacity_mask s r = Ok tt (<["F2Rbinary" := VArr b]> s) (advance r (k * c)) ∧
    round_robin_inv n c (maxFperR c k n) k 0 counts b.
Proof.
  intros Hn Hpos Hc Hk. unfold capacity_mask.
  rewrite (bind_run _ _ _ _ _ _ _ (matrix_run _ _ _ _ _ _ Hn Hc)).
  unfold setattr at 1. unfold bind at 1.
  set (s0 := <["F2Rbinary" := VArr (zeros [n; c])]> s).
  assert (Hn0 : is_dim s0 "nR" n) by (by apply is_dim_insert).
  assert (Hc0 : is_dim s0 "nF" c) by (by apply is_dim_insert).
  assert (Hk0 : is_dim s0 "RperFRawNum" k) by (by apply is_dim_insert).
  rewrite (bind_run _ _ _ _ _ _ _ (dim_run _ _ _ _ Hn0)).
  rewrite (bind_run _ _ _ _ _ _ _ (getnum_run _ _ _ _ (is_dim_has_num _ _ _ Hc0))).
  rewrite (bind_run _ _ _ _ _ _ _ (getnum_run _ _ _ _ (is_dim_has_num _ _ _ Hk0))).
  rewrite (bind_run _ _ _ _ _ _ _ (getnum_run _ _ _ _ (is_dim_has_num _ _ _ Hn0))).
  destruct (Qeq_bool (inject_Z (Z.of_nat n)) 0) eqn:E.
  { apply Qeq_bool_eq in E. unfold Qeq in E. simpl in E. lia. }
  unfold ret at 1. unfold bind at 1.
  rewrite (bind_run _ _ _ _ _ _ _ (range_run _ _ _ _ Hk0)).
  fold (maxFperR c k n).
  destruct (maxFperR_enough c k n Hpos) as [Hroom Hmx].
  destruct (foldM_seq_run
    (fun i counts s' r' => ∃ b, s' = <["F2Rbinary" := VArr b]> s ∧ r' = advance r (i * c) ∧
                                round_robin_inv n c (maxFperR c k n) i 0 counts b)
    (fun counts (_ : nat) =>
       cols <- range "nF" ;; foldM (capacity_step (maxFperR c k n) n) cols counts)
    k 0%nat (repeat 0%Z n) s0 r)
    as (counts' & s' & r' & Hrun & b' & -> & -> & Hinv').
  - intros i cs s1 r1 Hi (b1 & -> & -> & H1).
    rewrite (bind_run _ _ _ _ _ _ _
               (range_run "nF" _ _ c (proj2 (is_dim_insert s "nF" "F2Rbinary" _ c
                                              ltac:(discriminate)) Hc))).
    destruct (capacity_round_run s (advance r (i * c)) n c k (maxFperR c k n) i cs b1)
      as (cs' & b2 & Hround & H2); [lia|done|done|].
    exists cs', (<["F2Rbinary" := VArr b2]> s), (advance (advance r (i * c)) c).
    split; [done|]. exists b2. split; [done|]. split; [|done].
    rewrite advance_advance. f_equal. lia.
  - exists (zeros [n; c]). split; [done|]. split; [by rewrite advance_0|].
    split; [by rewrite repeat_length|]. split; [done|].
    split; [cbn; rewrite repeat_length; lia|].
    split; [apply Forall_forall; intros x Hx%list_elem_of_In%repeat_spec; by left|].
    split; [by rewrite sumZ_repeat|].
    split; [|split].
    + intros t Ht. rewrite nth_repeat_lt by done.
      rewrite (sum_to_ext c _ (fun _ => 0%nat)), sum_to_zero; [lia|].
      intros j Hj. by rewrite get2_zeros.
    + intros j Hj. rewrite (sum_to_ext n _ (fun _ => 0%nat)), sum_to_zero; [lia|].
      intros t Ht. by rewrite get2_zeros.
    + intros j Hj [?|?]; lia.
  - exists counts', b'. split; [|done].
    by rewrite (bind_run _ _ _ _ _ _ _ Hrun).
Qed.

Lemma row_ones_get2 b n c t :
  shape b = [n; c] → length (data b) = (n * c)%nat → (t < n)%nat →
  row_ones b t = sum_to c (fun j => ind (nonzero (get2 b t j))).
Proof.
  intros Hs Hl Ht. unfold row_ones, row, get2, ncols. rewrite Hs. cbn [nth].
  rewrite (count_if_nth _ _ NaN).
  assert (Hlen : length (take c (drop (t * c) (data b))) = c).
  { rewrite length_take, length_drop, Hl. nia. }
  rewrite Hlen. apply sum_to_ext. intros j Hj.
  by rewrite !nth_lookup, lookup_take_lt, lookup_drop.
Qed.

Lemma column_ones_get2 b n c j :
  shape b = [n; c] → column_ones b j = sum_to n (fun t => ind (nonzero (get2 b t j))).
Proof.
  intros Hs. unfold column_ones, nrows. rewrite Hs. cbn [nth].
  apply (count_if_map_seq nonzero (fun i => get2 b i j)).
Qed.

Lemma capacity_mask_no_rows s r c qk :
  is_dim s "nR" 0 → is_dim s "nF" c → has_num s "RperFRawNum" qk →
  capacity_mask s r
  = Raise ZeroDivisionError (<["F2Rbinary" := VArr (zeros [0%nat; c])]> s) r.
Proof.
  intros Hn Hc Hk. unfold capacity_mask.
  rewrite (bind_run _ _ _ _ _ _ _ (matrix_run _ _ _ _ _ _ Hn Hc)).
  unfold setattr at 1. unfold bind at 1.
  set (s0 := <["F2Rbinary" := VArr (zeros [0%nat; c])]> s).
  assert (Hn0 : is_dim s0 "nR" 0) by (by apply is_dim_insert).
  assert (Hc0 : is_dim s0 "nF" c) by (by apply is_dim_insert).
  assert (Hk0 : has_num s0 "RperFRawNum" qk) by (by apply has_num_insert).
  rewrite (bind_run _ _ _ _ _ _ _ (dim_run _ _ _ _ Hn0)).
  rewrite (bind_run _ _ _ _ _ _ _ (getnum_run _ _ _ _ (is_dim_has_num _ _ _ Hc0))).
  rewrite (bind_run _ _ _ _ _ _ _ (getnum_run _ _ _ _ Hk0)).
  rewrite (bind_run _ _ _ _ _ _ _ (getnum_run _ _ _ _ (is_dim_has_num _ _ _ Hn0))).
  reflexivity.
Qed.

Lemma stage_F2Rbinary_capacity s r q :
  has_num s "RperFFrMu" q → (q <= 0)%Q → stage_F2Rbinary s r = capacity_mask s r.
Proof.
  intros Hq Hle. unfold stage_F2Rbinary.
  rewrite (bind_run _ _ _ _ _ _ _ (getnum_run _ _ _ _ Hq)).
  destruct (Qlt_le_dec 0 q) as [Hlt|_]; [by apply Qlt_not_le in Hlt|done].
Qed.

(** In capacity mode the round-robin never runs out of source rows: with
    at least one row, [ceil(nF*RperFRawNum/nR)] per row is room for all
    [nF*RperFRawNum] assignments, so [np.random.randint] is never handed an
    empty candidate list.  The mask stage returns, having assigned
    [F2Rbinary] and nothing else and taken one integer draw per
    assignment. *)
Theorem capacity_mode_completes (s : store) (r : RandomState) q n c k :
  has_num s "RperFFrMu" q → (q <= 0)%Q →
  is_dim s "nR" n → (0 < n)%nat → is_dim s "nF" c → is_dim s "RperFRawNum" k →
  ∃ b, stage_F2Rbinary s r
       = Ok tt (<["F2Rbinary" := VArr b]> s) (advance r (k * c)).
Proof.
  intros Hq Hle Hn Hpos Hc Hk. rewrite (stage_F2Rbinary_capacity s r q Hq Hle).
  destruct (capacity_mask_run s r n c k Hn Hpos Hc Hk) as (counts & b & Hrun & _).
  by exists b.
Qed.

Lemma capacity_mode_completes_witness :
  ∃ b, stage_F2Rbinary example_mP example_rs
       = Ok tt (<["F2Rbinary" := VArr b]> example_mP) (advance example_rs (2 * 2)).
Proof.
  apply (capacity_mode_completes example_mP example_rs 0%Q 2 2 2).
  - exists (VFloat 0). split; reflexivity.
  - discriminate.
  - by exists (VInt 2), 2%Z.
  - lia.
  - by exists (VInt 2), 2%Z.
  - by exists (VInt 2), 2%Z.
Defined.

(** The wiring the capacity mode leaves in the model: [F2Rbinary] is an
    [nR] by [nF] mask of zeros and ones; no row has more than the capacity
    [ceil(nF*RperFRawNum/nR)] active entries; every column has at most
    [RperFRawNum] active entries, and at least one when
    [RperFRawNum > 0]. *)
Theorem capacity_mode_wiring (s : store) (r : RandomState) s' r' q n c k :
  initializeConnectionMatrices s r = Ok tt s' r' →
  has_num s "RperFFrMu" q → (q <= 0)%Q →
  is_dim s "nR" n → is_dim s "nF" c → is_dim s "RperFRawNum" k →
  ∃ b, s' !! "F2Rbinary" = Some (VArr b) ∧ shape b = [n; c] ∧ is_mask b ∧
       (∀ t, (t < n)%nat → (Z.of_nat (row_ones b t) ≤ maxFperR c k n)%Z) ∧
       (∀ j, (j < c)%nat → (column_ones b j ≤ k)%nat ∧
                            ((0 < k)%nat → (0 < column_ones b j)%nat)).
Proof.
  intros H Hq Hle Hn Hc Hk. apply builder_stages in H as
    (s1 & r1 & s2 & r2 & s3 & r3 & s4 & r4 & s5 & r5 & s6 & r6 & conn &
     s7 & r7 & s8 & r8 & s9 & r9 & s10 & r10 & s11 & r11 &
     H1 & H2 & H3 & H4 & H5 & H6 & H7 & H8 & H9 & H10 & H11 & H).
  rewrite (stage_F2Rbinary_capacity s r q Hq Hle) in H1.
  destruct n as [|n'].
  { rewrite (capacity_mask_no_rows s r c _ Hn Hc (is_dim_has_num _ _ _ Hk)) in H1.
    discriminate. }
  set (n := S n') in *.
  destruct (capacity_mask_run s r n c k Hn ltac:(lia) Hc Hk)
    as (counts & b & Hrun & Hlen & Hsh & Hdl & Hm & Hsum & Hrow & Hcu & Hcl).
  rewrite Hrun in H1. injection H1 as <- <-.
  exists b. split.
  { kept "F2Rbinary" H; kept "F2Rbinary" H11; kept "F2Rbinary" H10; kept "F2Rbinary" H9;
    kept "F2Rbinary" H8; kept "F2Rbinary" H7; kept "F2Rbinary" H6; kept "F2Rbinary" H5;
    kept "F2Rbinary" H4; kept "F2Rbinary" H3; kept "F2Rbinary" H2.
    rewrite Hk0, Hk1, Hk2, Hk3, Hk4, Hk5, Hk6, Hk7, Hk8, Hk9, Hk10.
    apply lookup_insert_eq. }
  split; [done|]. split; [done|]. split.
  - intros t Ht. rewrite (row_ones_get2 b n c t Hsh Hdl Ht).
    destruct (Hrow t Ht). lia.
  - intros j Hj. rewrite (column_ones_get2 b n c j Hsh). split.
    + specialize (Hcu j Hj). change (ind (j <? 0)%nat) with 0%nat in Hcu. lia.
    + intros Hpos. destruct (Hcl j Hj) as (t & Ht & Hone); [by left|].
      apply (sum_to_pos n _ t Ht). cbv beta. rewrite Hone.
      change (nonzero (Fin 1)) with true. cbn [ind]. lia.
Qed.

Lemma capacity_mode_wiring_witness :
  ∃ s' r' b, initializeConnectionMatrices example_mP example_rs = Ok tt s' r' ∧
    s' !! "F2Rbinary" = Some (VArr b) ∧ shape b = [2; 2]%nat ∧ is_mask b ∧
    (∀ t, (t < 2)%nat → (Z.of_nat (row_ones b t) ≤ maxFperR 2 2 2)%Z) ∧
    (∀ j, (j < 2)%nat → (column_ones b j ≤ 2)%nat ∧
                         ((0 < 2)%nat → (0 < column_ones b j)%nat)).
Proof.
  assert (Hq : has_num example_mP "RperFFrMu" 0) by (exists (VFloat 0); split; reflexivity).
  assert (Hle : (0 <= 0)%Q) by discriminate.
  assert (Hn : is_dim example_mP "nR" 2) by (by exists (VInt 2), 2%Z).
  assert (Hc : is_dim example_mP "nF" 2) by (by exists (VInt 2), 2%Z).
  assert (Hk : is_dim example_mP "RperFRawNum" 2) by (by exists (VInt 2), 2%Z).
  destruct (returns_Ok _ example_returns) as ([] & s' & r' & E).
  destruct (capacity_mode_wiring example_mP example_rs s' r' 0%Q 2 2 2 E Hq Hle Hn Hc Hk)
    as (b & Hb).
  exists s', r', b. split; [exact E|exact Hb].
Defined.

(** Capacity mode with no source row: line 47 divides by [mP.nR = 0].  The
    builder raises [ZeroDivisionError] after line 44 has assigned an empty
    [F2Rbinary]; nothing else of [mP] is touched and no draw is taken. *)
Theorem capacity_mode_no_rows (s : store) (r : RandomState) q c qk :
  has_num s "RperFFrMu" q → (q <= 0)%Q →
  is_dim s "nR" 0 → is_dim s "nF" c → has_num s "RperFRawNum" qk →
  initializeConnectionMatrices s r
  = Raise ZeroDivisionError (<["F2Rbinary" := VArr (zeros [0%nat; c])]> s) r.
Proof.
  intros Hq Hle Hn Hc Hk. unfold initializeConnectionMatrices.
  apply bind_raise. rewrite (stage_F2Rbinary_capacity s r q Hq Hle).
  by apply (capacity_mask_no_rows s r c qk).
Qed.

Lemma capacity_mode_no_rows_witness :
  initializeConnectionMatrices mP_no_rows example_rs
  = Raise ZeroDivisionError (<["F2Rbinary" := VArr (zeros [0; 2]%nat)]> mP_no_rows) example_rs.
Proof.
  apply (capacity_mode_no_rows mP_no_rows example_rs 0%Q 2 2%Q).
  - exists (VFloat 0). split; [vm_compute; reflexivity | reflexivity].
  - discriminate.
  - exists (VInt 0), 0%Z. split; [vm_compute; reflexivity|].
    split; [reflexivity|]. split; [lia | reflexivity].
  - exists (VInt 2), 2%Z. split; [vm_compute; reflexivity|].
    split; [reflexivity|]. split; [lia | reflexivity].
  - exists (VInt 2). split; [vm_compute; reflexivity | reflexivity].
Defined.

(** ** The correction transposes (lines 96-100) *)

Lemma nth_draws f r n k d : (k < n)%nat → nth k (draws f r n) d = Fin (f (cursor r + k)%nat).
Proof. intros Hk. unfold draws. by rewrite (nth_map_seq (fun i => Fin (f (cursor r + i)%nat))). Qed.

(** When the correction runs, the flattened matrix is refilled column by
    column: entry [(i, j)] of the [L2G] that lines 88-100 leave comes from
    entry [(j, i)] of the matrix of lines 88-90, zeroed if it was positive
    and its draw fell below the threshold.  When the correction does not
    run, [L2G] is the matrix of lines 88-90. *)
Theorem correction_transposes (s : store) (r : RandomState) s' r' :
  stage_L2G s r = Ok tt s' r' →
  ∃ mu sd fr n w,
    has_num s "L2Gmu" mu ∧ has_num s "L2Gstd" sd ∧ has_num s "L2Gfr" fr ∧
    is_dim s "nG" n ∧ array_at s' "L2G" = Some w ∧
    let w0 := L2G_raw mu sd n r in
    let r1 := advance r (numel [n; n]) in
    if (0 <? numToKill w0 (Z.of_nat n) fr)%Z then
      ∀ i j, (i < n)%nat → (j < n)%nat →
        get2 w i j = killed (get2 w0 j i) (uniform r1 (cursor r1 + (j * n + i)))
                            (kill_prob w0 (Z.of_nat n) fr)
    else w = w0.
Proof.
  intros (mu & sd & fr & n & Hmu & Hsd & Hfr & Hn & Hw)%stage_L2G_Ok.
  eexists mu, sd, fr, n, _. repeat (split; [eassumption|]).
  split; [unfold array_at; by rewrite Hw|].
  cbv zeta. set (w0 := L2G_raw mu sd n r). set (r1 := advance r (numel [n; n])).
  pose proof (L2G_raw_shape mu sd n r) as Hsh. pose proof (L2G_raw_length mu sd n r) as Hl.
  fold w0 in Hsh, Hl.
  destruct (0 <? numToKill w0 (Z.of_nat n) fr)%Z eqn:E.
  - intros i j Hi Hj. rewrite (L2G_sparse_get w0 n fr r1 Hsh Hl i j Hi Hj), E.
    cbn [kill azip below amap flatten uniform_draws data shape].
    rewrite nth_zip_with;
      [|rewrite Hl; nia|rewrite length_map, length_draws, Hl; cbn [numel fold_right]; nia].
    rewrite nth_map_num by (rewrite length_draws, Hl; cbn [numel fold_right]; nia).
    rewrite nth_draws by (rewrite Hl; cbn [numel fold_right]; nia).
    rewrite of_bool_is_one. unfold killed, get2, ncols. rewrite Hsh. cbn [nth].
    by replace (i + j * n)%nat with (j * n + i)%nat by lia.
  - unfold L2G_sparse. rewrite E. by apply reshape_F_square_id.
Qed.

Lemma correction_transposes_witness :
  ∃ s' r', stage_L2G example_mP example_rs = Ok tt s' r' ∧
  ∃ mu sd fr n w,
    has_num example_mP "L2Gmu" mu ∧ has_num example_mP "L2Gstd" sd ∧
    has_num example_mP "L2Gfr" fr ∧
    is_dim example_mP "nG" n ∧ array_at s' "L2G" = Some w ∧
    let w0 := L2G_raw mu sd n example_rs in
    let r1 := advance example_rs (numel [n; n]) in
    if (0 <? numToKill w0 (Z.of_nat n) fr)%Z then
      ∀ i j, (i < n)%nat → (j < n)%nat →
        get2 w i j = killed (get2 w0 j i) (uniform r1 (cursor r1 + (j * n + i)))
                            (kill_prob w0 (Z.of_nat n) fr)
    else w = w0.
Proof.
  assert (Hr : returns (stage_L2G example_mP example_rs)) by (vm_compute; exact I).
  destruct (returns_Ok _ Hr) as ([] & s' & r' & E).
  exists s', r'. split; [exact E|].
  exact (correction_transposes example_mP example_rs s' r' E).
Defined.

(** ** Clamped vectors (lines 182-211) *)

Ltac open_noisy :=
  lazymatch goal with
  | Hx : ∃ c d n, has_num _ _ c ∧ has_num _ _ d ∧ is_dim _ _ n ∧ _ |- _ =>
      destruct Hx as (? & ? & ? & _ & _ & _ & -> & ->)
  | Hx : ∃ c d n1 n2, has_num _ _ c ∧ has_num _ _ d ∧ is_dim _ _ n1 ∧ _ |- _ =>
      destruct Hx as (? & ? & ? & ? & _ & _ & _ & _ & -> & ->)
  end.

Ltac lookup_now :=
  repeat (rewrite lookup_insert_ne by discriminate); apply lookup_insert_eq.

Lemma clamped_noise_nonneg c d r sh :
  Forall nonneg (data (clamp0 (shift c (scale d (gauss_draws r sh))))).
Proof. apply clamp0_nonneg, noise_finite. Qed.

Lemma clamped_noise_finite c d r sh :
  Forall finite (data (clamp0 (shift c (scale d (gauss_draws r sh))))).
Proof. apply clamp0_finite, noise_finite. Qed.

Lemma octo_of_G_nonneg mult sd s r x s' r' :
  octo_of_G mult sd s r = Ok x s' r' → finite_at s "octo2G" →
  s' = s ∧ Forall nonneg (data x).
Proof.
  unfold octo_of_G. intros H (g & Hg & Hf). do 5 step H.
  unfold ret in H. injection H as <- <- <-. split; [done|].
  apply clamp0_nonneg. cbn [azip data].
  apply (Forall_zip_with finite finite); [intros; by apply finite_nadd| |].
  - cbn [scale amap data]. apply (Forall_map_num finite); [intros; by apply finite_nmul|done].
  - cbn [scale amap data]. apply (Forall_map_num finite); [intros; by apply finite_nmul|].
    apply draws_finite.
Qed.

Lemma all_nonneg_kept (s s' : store) k a :
  s' !! k = s !! k → s !! k = Some (VArr a) → Forall nonneg (data a) → all_nonneg s' k.
Proof. intros E Ha Hf. exists a. by rewrite E. Qed.

Lemma stage_octo_nonneg s r s' r' :
  stage_octo s r = Ok tt s' r' →
  ∀ k, k ∈ ["octo2G"; "octo2K"; "octo2P"; "octo2L"; "octo2R"; "octo2E"] → all_nonneg s' k.
Proof.
  unfold stage_octo. intros H.
  step H. open_noisy. step H. kept "octo2G" H.
  step H. open_noisy. step H. kept "octo2K" H.
  apply bind_Ok in H as (xP & ? & ? & HP & H).
  apply octo_of_G_nonneg in HP as [-> HP];
    [|eexists; split; [lookup_now | apply clamped_noise_finite]].
  step H. kept "octo2P" H.
  apply bind_Ok in H as (xL & ? & ? & HL & H).
  apply octo_of_G_nonneg in HL as [-> HL];
    [|eexists; split; [lookup_now | apply clamped_noise_finite]].
  step H. kept "octo2L" H.
  apply bind_Ok in H as (xR & ? & ? & HR & H).
  apply octo_of_G_nonneg in HR as [-> HR];
    [|eexists; split; [lookup_now | apply clamped_noise_finite]].
  step H. kept "octo2R" H.
  do 7 step H. step H. open_noisy. finish H.
  intros k Hin. apply list_elem_of_In in Hin. simpl in Hin.
  destruct Hin as [<-|[<-|[<-|[<-|[<-|[<-|[]]]]]]].
  - eapply all_nonneg_kept; [exact Hk|lookup_now|apply clamped_noise_nonneg].
  - eapply all_nonneg_kept; [exact Hk0|lookup_now|apply clamped_noise_nonneg].
  - eapply all_nonneg_kept; [exact Hk1|lookup_now|exact HP].
  - eapply all_nonneg_kept; [exact Hk2|lookup_now|exact HL].
  - eapply all_nonneg_kept; [exact Hk3|lookup_now|exact HR].
  - eexists. split; [lookup_now|apply clamped_noise_nonneg].
Qed.

Lemma gamma_Ok a b sh s r g s' r' : gamma a b sh s r = Ok g s' r' → s' = s.
Proof.
  unfold gamma. destruct (Qlt_le_dec a 0); [discriminate|].
  destruct (Qlt_le_dec b 0); [discriminate|]. by intros [= <- <- <-].
Qed.

Lemma gamma_vector_store mean std size s r g s' r' :
  gamma_vector mean std size s r = Ok g s' r' → s' = s.
Proof. unfold gamma_vector. intros H. do 4 step H. by apply gamma_Ok in H. Qed.

Lemma zero_above_at_most c a :
  (0 <= c)%Q → Forall (fun x => ngt x (Fin c) = false) (data (zero_above c a)).
Proof.
  intros Hc. cbn [zero_above amap data].
  apply (Forall_map_num (fun _ => True)); [|by apply Forall_true].
  intros x _. destruct (ngt x (Fin c)) eqn:E; [|exact E].
  unfold ngt, nlt. cbn. destruct (c ?= 0)%Q eqn:E'; try done.
  apply Qlt_alt in E'. by apply Qlt_not_le in E'.
Qed.

Lemma stage_noise_bounds s r s' r' :
  stage_noise s r = Ok tt s' r' →
  (∀ k, k ∈ ["noisePIvec"; "noiseKvec"; "noiseEvec"] → all_nonneg s' k) ∧
  all_at_most s' "noiseRvec" 15 ∧ all_at_most s' "noisePvec" 15.
Proof.
  unfold stage_noise. intros H.
  step H. open_noisy. step H. kept "noisePIvec" H.
  step H. open_noisy. step H. kept "noiseKvec" H.
  step H. open_noisy. step H. kept "noiseEvec" H.
  apply bind_Ok in H as (gR & ? & ? & ->%gamma_vector_store & H).
  do 3 step H. kept "noiseRvec" H.
  apply bind_Ok in H as (gP & ? & ? & ->%gamma_vector_store & H).
  do 3 step H. kept "noisePvec" H.
  split; [|split].
  - intros k Hin. apply list_elem_of_In in Hin. simpl in Hin.
    destruct Hin as [<-|[<-|[<-|[]]]].
    + eapply all_nonneg_kept; [exact Hk|lookup_now|apply clamped_noise_nonneg].
    + eapply all_nonneg_kept; [exact Hk0|lookup_now|apply clamped_noise_nonneg].
    + eapply all_nonneg_kept; [exact Hk1|lookup_now|apply clamped_noise_nonneg].
  - eexists. rewrite Hk2. split; [lookup_now|]. by apply zero_above_at_most.
  - eexists. rewrite Hk3. split; [lookup_now|]. by apply zero_above_at_most.
Qed.

(** The vectors the builder clamps with [np.maximum(0, ...)] and leaves
    alone afterwards are non-negative in the model it returns: the
    octopamine vectors [octo2G], [octo2K], [octo2P], [octo2L], [octo2R],
    [octo2E] and the Gaussian noise vectors [noisePIvec], [noiseKvec],
    [noiseEvec]. *)
Theorem clamped_vectors_nonneg (s : store) (r : RandomState) s' r' :
  initializeConnectionMatrices s r = Ok tt s' r' →
  ∀ k, k ∈ ["octo2G"; "octo2K"; "octo2P"; "octo2L"; "octo2R"; "octo2E";
            "noisePIvec"; "noiseKvec"; "noiseEvec"] → all_nonneg s' k.
Proof.
  intros H. apply builder_stages in H as
    (s1 & r1 & s2 & r2 & s3 & r3 & s4 & r4 & s5 & r5 & s6 & r6 & conn &
     s7 & r7 & s8 & r8 & s9 & r9 & s10 & r10 & s11 & r11 &
     H1 & H2 & H3 & H4 & H5 & H6 & H7 & H8 & H9 & H10 & H11 & H).
  pose proof (stage_octo_nonneg _ _ _ _ H11) as Ho.
  destruct (stage_noise_bounds _ _ _ _ H) as (Hn & _ & _).
  intros k Hin. apply list_elem_of_In in Hin. simpl in Hin.
  destruct Hin as [<-|[<-|[<-|[<-|[<-|[<-|Hin]]]]]].
  1-6: lazymatch goal with
       | |- all_nonneg _ ?k =>
           kept k H; eapply all_nonneg_lookup; [exact Hk|];
           apply Ho, list_elem_of_In; simpl; tauto
       end.
  apply Hn, list_elem_of_In. simpl. tauto.
Qed.

Lemma clamped_vectors_nonneg_witness :
  ∃ s' r', initializeConnectionMatrices example_mP example_rs = Ok tt s' r' ∧
    ∀ k, k ∈ ["octo2G"; "octo2K"; "octo2P"; "octo2L"; "octo2R"; "octo2E";
              "noisePIvec"; "noiseKvec"; "noiseEvec"] → all_nonneg s' k.
Proof.
  destruct (returns_Ok _ example_returns) as ([] & s' & r' & E).
  exists s', r'. split; [exact E|].
  exact (clamped_vectors_nonneg example_mP example_rs s' r' E).
Defined.

(** Lines 217 and 223 zero every gamma draw above 15: no entry of
    [noiseRvec] or [noisePvec] is above 15 in the model the builder
    returns. *)
Theorem gamma_noise_capped (s : store) (r : RandomState) s' r' :
  initializeConnectionMatrices s r = Ok tt s' r' →
  all_at_most s' "noiseRvec" 15 ∧ all_at_most s' "noisePvec" 15.
Proof.
  intros H. apply builder_stages in H as
    (s1 & r1 & s2 & r2 & s3 & r3 & s4 & r4 & s5 & r5 & s6 & r6 & conn &
     s7 & r7 & s8 & r8 & s9 & r9 & s10 & r10 & s11 & r11 &
     H1 & H2 & H3 & H4 & H5 & H6 & H7 & H8 & H9 & H10 & H11 & H).
  by destruct (stage_noise_bounds _ _ _ _ H) as (_ & HR & HP).
Qed.

Lemma gamma_noise_capped_witness :
  ∃ s' r', initializeConnectionMatrices example_mP example_rs = Ok tt s' r' ∧
    all_at_most s' "noiseRvec" 15 ∧ all_at_most s' "noisePvec" 15.
Proof.
  destruct (returns_Ok _ example_returns) as ([] & s' & r' & E).
  exists s', r'. split; [exact E|].
  exact (gamma_noise_capped example_mP example_rs s' r' E).
Defined.

(** ** Without PIs: a witness *)

Lemma no_PI_returns : returns (initializeConnectionMatrices mP_no_PI example_rs).
Proof. vm_compute. exact I. Qed.

Lemma no_PI_no_PI2K_witness :
  ∃ s' r', initializeConnectionMatrices mP_no_PI example_rs = Ok tt s' r' ∧
    s' !! "PI2K" = mP_no_PI !! "PI2K" ∧ s' !! "PI2Kconn" = mP_no_PI !! "PI2Kconn".
Proof.
  assert (Hn : has_num mP_no_PI "nPI" 0)
    by (exists (VInt 0); split; [vm_compute; reflexivity | reflexivity]).
  assert (Hle : (0 <= 0)%Q) by discriminate.
  destruct (returns_Ok _ no_PI_returns) as ([] & s' & r' & E).
  exists s', r'. split; [exact E|].
  exact (no_PI_no_PI2K mP_no_PI example_rs 0%Q s' r' E Hn Hle).
Defined.

(** ** Row normalization (lines 143-146) *)

Lemma nth_tile (l : list num) n : ∀ i j d,
  (i < length l)%nat → (j < n)%nat →
  nth (i * n + j) (flat_map (fun x : num => repeat x n) l) d = nth i l d.
Proof.
  induction l as [|x l IH]; intros i j d Hi Hj; simpl in Hi; [lia|]. simpl flat_map.
  destruct i as [|i].
  - rewrite app_nth1 by (rewrite repeat_length; lia). simpl. by apply nth_repeat_lt.
  - rewrite app_nth2 by (rewrite repeat_length; lia). rewrite repeat_length.
    replace (S i * n + j - n)%nat with (i * n + j)%nat by lia. simpl.
    apply IH; lia.
Qed.

Lemma length_row a n c i :
  shape a = [n; c] → length (data a) = (n * c)%nat → (i < n)%nat → length (row a i) = c.
Proof.
  intros Hs Hl Hi. unfold row, ncols. rewrite Hs. cbn [nth].
  rewrite length_take, length_drop, Hl. nia.
Qed.

Lemma nth_row a n c i j d :
  shape a = [n; c] → (j < c)%nat → nth j (row a i) d = nth (i * c + j) (data a) d.
Proof.
  intros Hs Hj. unfold row, ncols. rewrite Hs. cbn [nth].
  by rewrite !nth_lookup, lookup_take_lt, lookup_drop.
Qed.

Lemma row_Forall (P : num → Prop) a n c i :
  shape a = [n; c] → Forall P (data a) → Forall P (row a i).
Proof.
  intros Hs Hf. unfold row. apply Forall_take, Forall_drop, Hf.
Qed.

Lemma row_normalize_rows a n c i :
  shape a = [n; c] → length (data a) = (n * c)%nat → (i < n)%nat →
  row (normalize_rows a) i = map (fun x => ndiv x (nsum (row a i))) (row a i).
Proof.
  intros Hs Hl Hi.
  assert (Hs' : shape (normalize_rows a) = [n; c]) by done.
  assert (Hl' : length (data (normalize_rows a)) = (n * c)%nat).
  { cbn [normalize_rows azip data tile_cols as_column sum_axis1].
    rewrite length_zip_with, length_tile, length_map, length_seq, Hl.
    unfold nrows, ncols. rewrite Hs. cbn [nth]. lia. }
  apply (nth_ext _ _ NaN NaN).
  { by rewrite length_map, (length_row _ n c), (length_row _ n c). }
  intros j Hj. rewrite (length_row _ n c) in Hj by done.
  rewrite (nth_row _ n c) by done.
  rewrite nth_map_num by (by rewrite (length_row _ n c)).
  rewrite (nth_row a n c) by done.
  cbn [normalize_rows azip data tile_cols as_column sum_axis1].
  unfold nrows, ncols. rewrite Hs. cbn [nth].
  rewrite nth_zip_with;
    [|rewrite Hl; nia|rewrite length_tile, length_map, length_seq; nia].
  rewrite nth_tile by (rewrite ?length_map, ?length_seq; lia).
  by rewrite (nth_map_seq (fun i => nsum (row a i))).
Qed.

(** The sum of finite non-negative entries. *)
Lemma fold_nadd_nonneg l : ∀ a,
  Forall finite l → Forall nonneg l →
  ∃ t, fold_left nadd l (Fin a) = Fin t ∧ (a <= t)%Q ∧
       ((t == a)%Q → Forall is_zero l).
Proof.
  induction l as [|x l IH]; intros a Hf Hn.
  - exists a. split; [done|]. split; [apply Qle_refl|]. by constructor.
  - apply Forall_cons in Hf as [Hx Hf]. apply Forall_cons in Hn as [Hx0 Hn].
    destruct x as [q| | |]; try done. simpl in Hx0. simpl.
    destruct (IH (a + q)%Q Hf Hn) as (t & Ht & Hle & Hz).
    exists t. split; [done|].
    assert (Ha : (a <= a + q)%Q).
    { rewrite <- (Qplus_0_r a) at 1. by apply Qplus_le_r. }
    split; [by apply (Qle_trans _ (a + q))|].
    intros E. rewrite E in Hle.
    assert (Hq : (a + q == a)%Q) by (by apply Qle_antisym).
    constructor; [|apply Hz; by rewrite E, Hq].
    simpl. apply (Qplus_inj_l _ _ a). by rewrite Qplus_0_r.
Qed.

Lemma fold_nadd_div l σ : ∀ a b,
  Forall finite l → ¬ (σ == 0)%Q → (b == a / σ)%Q →
  ∃ t u, fold_left nadd l (Fin a) = Fin t ∧
         fold_left nadd (map (fun x => ndiv x (Fin σ)) l) (Fin b) = Fin u ∧
         (u == t / σ)%Q.
Proof.
  induction l as [|x l IH]; intros a b Hf Hσ Hb.
  - by exists a, b.
  - apply Forall_cons in Hf as [Hx Hf]. destruct x as [q| | |]; try done. simpl.
    destruct (Qeq_bool σ 0) eqn:E; [by apply Qeq_bool_eq in E|].
    apply IH; [done|done|]. rewrite Hb. by field.
Qed.

Lemma normalized_row l :
  Forall finite l → Forall nonneg l →
  unit_or_nan (map (fun x => ndiv x (nsum l)) l).
Proof.
  intros Hf Hn. unfold unit_or_nan, nsum.
  destruct (fold_nadd_nonneg l 0 Hf Hn) as (σ & Hσ & Hle & Hz). rewrite Hσ.
  destruct (Qeq_dec σ 0) as [E|E].
  - right. specialize (Hz E). clear -Hz E.
    induction Hz as [|x l Hx Hl IH]; [constructor|]. simpl. constructor; [|done].
    destruct x as [q| | |]; try done. simpl in Hx. simpl.
    rewrite (proj2 (Qeq_bool_iff σ 0) E).
    by rewrite (proj1 (Qeq_alt q 0) Hx).
  - left. destruct (fold_nadd_div l σ 0 0 Hf E) as (t & u & Ht & Hu & Hq).
    { by field. }
    rewrite Hu. simpl. rewrite Hq. rewrite Hσ in Ht. injection Ht as <-. by field.
Qed.

Lemma stage_G2PI_Ok s r s' r' :
  stage_G2PI s r = Ok tt s' r' →
  ∃ p g a, is_dim s "nPI" p ∧ is_dim s "nG" g ∧
    shape a = [p; g] ∧ length (data a) = (p * g)%nat ∧
    Forall finite (data a) ∧ Forall nonneg (data a) ∧
    s' !! "G2PI" = Some (VArr (normalize_rows a)).
Proof.
  unfold stage_G2PI. intros H.
  apply bind_Ok in H as (sh & ? & ? & Hm & H).
  apply matrix_Ok in Hm as (-> & -> & p & g & -> & Hp & Hg).
  do 4 step H.
  apply bind_Ok in H as (sh & ? & ? & Hm & H).
  apply matrix_Ok in Hm as (-> & -> & p' & g' & -> & Hp' & Hg').
  rewrite is_dim_insert in Hp', Hg' by discriminate.
  rewrite <- (is_dim_fun _ _ _ _ Hp Hp'), <- (is_dim_fun _ _ _ _ Hg Hg') in *.
  clear p' g' Hp' Hg'.
  do 8 step H. kept "G2PI" H.
  eexists p, g, _. split; [done|]. split; [done|].
  split; [|split; [|split; [|split; [|rewrite Hk; lookup_now]]]].
  - done.
  - cbn [azip clamp0 amap scale below data]. rewrite length_zip_with, !length_map, !length_draws.
    cbn [numel fold_right]. lia.
  - cbn [azip data]. apply (Forall_zip_with finite finite); [intros; by apply finite_nmul| |].
    + apply clamp0_finite. cbn [amap scale data].
      apply (Forall_map_num finite); [intros; by apply finite_nadd|].
      apply (Forall_map_num finite); [intros; by apply finite_nmul|]. apply draws_finite.
    + apply below_finite.
  - cbn [azip data].
    apply (Forall_zip_with (fun x => nonneg x ∧ finite x) (fun x => nonneg x ∧ finite x)).
    + intros x y [? ?] [? ?]. by apply nonneg_nmul.
    + apply Forall_and. split.
      * apply clamp0_nonneg. cbn [amap scale data].
        apply (Forall_map_num finite); [intros; by apply finite_nadd|].
        apply (Forall_map_num finite); [intros; by apply finite_nmul|]. apply draws_finite.
      * apply clamp0_finite. cbn [amap scale data].
        apply (Forall_map_num finite); [intros; by apply finite_nadd|].
        apply (Forall_map_num finite); [intros; by apply finite_nmul|]. apply draws_finite.
    + apply Forall_and. split; [|apply below_finite].
      cbn [below amap data]. apply (Forall_map_num (fun _ => True)); [|by apply Forall_true].
      intros. apply nonneg_of_bool.
Qed.

(** Line 146 divides every row of [G2PI] by its sum: in the model the
    builder returns, [G2PI] is [nPI] by [nG] and each of its rows sums to
    one (in exact arithmetic), or has only [nan] entries, which is the case
    of a row with no positive weight left by the mask. *)
Theorem G2PI_rows_normalized (s : store) (r : RandomState) s' r' :
  initializeConnectionMatrices s r = Ok tt s' r' →
  ∃ p g w, is_dim s "nPI" p ∧ is_dim s "nG" g ∧
    s' !! "G2PI" = Some (VArr w) ∧ shape w = [p; g] ∧
    ∀ i, (i < p)%nat → unit_or_nan (row w i).
Proof.
  intros H. apply builder_stages in H as
    (s1 & r1 & s2 & r2 & s3 & r3 & s4 & r4 & s5 & r5 & s6 & r6 & conn &
     s7 & r7 & s8 & r8 & s9 & r9 & s10 & r10 & s11 & r11 &
     H1 & H2 & H3 & H4 & H5 & H6 & H7 & H8 & H9 & H10 & H11 & H).
  destruct (stage_G2PI_Ok _ _ _ _ H8) as (p & g & a & Hp & Hg & Hs & Hl & Hf & Hn & Hw).
  exists p, g, (normalize_rows a).
  split; [|split; [|split; [|split]]].
  - kept "nPI" H7; kept "nPI" H6; kept "nPI" H5; kept "nPI" H4; kept "nPI" H3;
    kept "nPI" H2; kept "nPI" H1.
    unfold is_dim in *. by rewrite <- Hk5, <- Hk4, <- Hk3, <- Hk2, <- Hk1, <- Hk0, <- Hk.
  - kept "nG" H7; kept "nG" H6; kept "nG" H5; kept "nG" H4; kept "nG" H3;
    kept "nG" H2; kept "nG" H1.
    unfold is_dim in *. by rewrite <- Hk5, <- Hk4, <- Hk3, <- Hk2, <- Hk1, <- Hk0, <- Hk.
  - kept "G2PI" H; kept "G2PI" H11; kept "G2PI" H10; kept "G2PI" H9. congruence.
  - done.
  - intros i Hi. rewrite (row_normalize_rows a p g i Hs Hl Hi).
    apply normalized_row; by apply (row_Forall _ a p g).
Qed.

Lemma G2PI_rows_normalized_witness :
  ∃ s' r', initializeConnectionMatrices example_mP example_rs = Ok tt s' r' ∧
  ∃ p g w, is_dim example_mP "nPI" p ∧ is_dim example_mP "nG" g ∧
    s' !! "G2PI" = Some (VArr w) ∧ shape w = [p; g] ∧
    ∀ i, (i < p)%nat → unit_or_nan (row w i).
Proof.
  destruct (returns_Ok _ example_returns) as ([] & s' & r' & E).
  exists s', r'. split; [exact E|].
  exact (G2PI_rows_normalized example_mP example_rs s' r' E).
Defined.

(** ** The inputs a returning run has read *)

Lemma needs_attr k : needs k (attr k).
Proof. intros s r a s' r' (_ & _ & H)%attr_Ok. by rewrite H. Qed.

Lemma needs_raise k {A} e : needs k (@raise A e).
Proof. intros s r a s' r' H. discriminate. Qed.

Lemma needs_bind_l k {A B} (m : M A) (f : A → M B) : needs k m → needs k (bind m f).
Proof. intros Hm s r b s' r' (a & s1 & r1 & H1 & _)%bind_Ok. eauto. Qed.

Lemma needs_bind_r k {A B} (m : M A) (f : A → M B) :
  keeps k m → (∀ a, needs k (f a)) → needs k (bind m f).
Proof.
  intros Hm Hf s r b s' r' (a & s1 & r1 & H1 & H2)%bind_Ok.
  rewrite <- (keeps_Ok k m s r a s1 r1 Hm H1). exact (Hf a s1 r1 b s' r' H2).
Qed.

Lemma needs_if k {A} (b : bool) (m1 m2 : M A) :
  needs k m1 → needs k m2 → needs k (if b then m1 else m2).
Proof. by destruct b. Qed.

Lemma needs_if_dec k {A} {P Q : Prop} (b : {P} + {Q}) (m1 m2 : M A) :
  needs k m1 → needs k m2 → needs k (if b then m1 else m2).
Proof. by destruct b. Qed.

Ltac needs_tac :=
  lazymatch goal with
  | |- needs ?k (attr ?k) => apply needs_attr
  | |- needs _ (raise _) => apply needs_raise
  | |- needs _ (bind _ _) =>
      first [ apply needs_bind_l; needs_tac
            | apply needs_bind_r; [keeps_tac | intros ?; needs_tac] ]
  | |- needs _ (if _ then _ else _) =>
      first [apply needs_if | apply needs_if_dec]; needs_tac
  | |- needs _ (attr _) => fail
  | |- needs _ (ret _) => fail
  | |- needs _ (setattr _ _) => fail
  | |- needs _ (lift _) => fail
  | |- needs _ (lift_exn _) => fail
  | |- needs _ (rand _) => fail
  | |- needs _ (normal _) => fail
  | |- needs _ (randint _) => fail
  | |- needs _ (gamma _ _ _) => fail
  | |- needs _ (truthy _) => fail
  | |- needs _ (for_ _ _) => fail
  | |- needs _ (foldM _ _ _) => fail
  | |- needs _ (match _ with _ => _ end) => fail
  | |- needs _ ?m => let h := head_of m in unfold h; needs_tac
  end.

Ltac needs_each :=
  let Hin := fresh in
  intros ? Hin; apply list_elem_of_In in Hin; simpl in Hin;
  repeat (destruct Hin as [<-|Hin]; [needs_tac|]); destruct Hin.

Lemma stage_F2Rbinary_needs k :
  k ∈ ["RperFFrMu"; "nR"; "nF"] → needs k stage_F2Rbinary.
Proof. revert k. needs_each. Qed.

Lemma stage_F2R_needs k : k ∈ ["F2Rmu"; "F2Rstd"] → needs k stage_F2R.
Proof. revert k. needs_each. Qed.

Lemma stage_Rspont_needs k :
  k ∈ ["spontRdistFlag"; "spontRmu"; "spontRstd"; "nG"] → needs k stage_Rspont.
Proof. revert k. needs_each. Qed.

Lemma stage_R2_needs k :
  k ∈ ["R2Gmu"; "R2Gstd"; "R2Pmult"; "R2Pstd"; "R2Lmult"; "R2Lstd"; "R2PImult"; "R2PIstd"] →
  needs k stage_R2.
Proof. revert k. needs_each. Qed.

Lemma stage_L2G_needs k : k ∈ ["L2Gmu"; "L2Gstd"; "L2Gfr"] → needs k stage_L2G.
Proof. revert k. needs_each. Qed.

Lemma stage_L2_needs k :
  k ∈ ["GsensMu"; "GsensStd"; "L2Rmult"; "L2Rstd"; "L2Pmult"; "L2Pstd"; "L2Lmult";
       "L2Lstd"; "L2PIstd"] → needs k stage_L2.
Proof. revert k. needs_each. Qed.

Lemma stage_P2K_needs k :
  k ∈ ["nK"; "nP"; "KperPfrMu"; "P2Kmu"; "P2Kstd"; "hebMaxPK"] → needs k stage_P2K.
Proof. revert k. needs_each. Qed.

Lemma stage_G2PI_needs k :
  k ∈ ["nPI"; "GperPIfrMu"; "G2PIstd"; "G2PImu"] → needs k stage_G2PI.
Proof. revert k. needs_each. Qed.

Lemma stage_K2E_needs k :
  k ∈ ["nE"; "KperEfrMu"; "K2Emu"; "K2Estd"; "hebMaxKE"] → needs k stage_K2E.
Proof. revert k. needs_each. Qed.

Lemma stage_octo_needs k :
  k ∈ ["octo2Gmu"; "octo2Gstd"; "octo2Kmu"; "octo2Kstd"; "octo2Pmult"; "octo2Pstd";
       "octo2Lmult"; "octo2Lstd"; "octo2Rmult"; "octo2Rstd"; "octo2PImult";
       "octo2Emu"; "octo2Estd"] → needs k stage_octo.
Proof. revert k. needs_each. Qed.

Lemma stage_noise_needs k :
  k ∈ ["noisePI"; "PInoiseStd"; "noiseK"; "KnoiseStd"; "noiseE"; "EnoiseStd";
       "noiseR"; "RnoiseStd"; "noiseP"; "PnoiseStd"; "noiseL"; "LnoiseStd";
       "kGlobalDampFactor"; "kGlobalDampStd"] → needs k stage_noise.
Proof. revert k. needs_each. Qed.

Lemma stages_keep_inputs k :
  k ∉ derived_fields →
  keeps k stage_F2Rbinary ∧ keeps k stage_F2R ∧ keeps k stage_Rspont ∧ keeps k stage_R2 ∧
  keeps k stage_L2G ∧ keeps k stage_L2 ∧ keeps k stage_P2K ∧ keeps k stage_G2PI ∧
  keeps k stage_PI2K ∧ keeps k stage_K2E ∧ keeps k stage_octo ∧ keeps k stage_noise.
Proof.
  intros Hk. unfold derived_fields in Hk. repeat split; keeps_any Hk.
Qed.

Lemma required_not_derived : Forall (fun k => k ∉ derived_fields) required_inputs.
Proof. apply (bool_decide_unpack _). vm_compute. exact I. Qed.

Ltac in_list := apply (bool_decide_unpack _); vm_compute; exact I.

Ltac builder_needs K :=
  destruct K as (K1 & K2 & K3 & K4 & K5 & K6 & K7 & K8 & K9 & K10 & K11 & K12);
  unfold initializeConnectionMatrices;
  repeat first
    [ apply needs_bind_l;
      first [ apply stage_F2Rbinary_needs | apply stage_F2R_needs | apply stage_Rspont_needs
            | apply stage_R2_needs | apply stage_L2G_needs | apply stage_L2_needs
            | apply stage_P2K_needs | apply stage_G2PI_needs | apply stage_K2E_needs
            | apply stage_octo_needs ];
      solve [in_list]
    | apply stage_noise_needs; solve [in_list]
    | apply needs_bind_r; [assumption | intros _] ].

Lemma builder_needs_inputs :
  Forall (fun k => needs k initializeConnectionMatrices) required_inputs.
Proof.
  pose proof required_not_derived as Hnd. unfold required_inputs in *.
  repeat lazymatch goal with
    | |- Forall _ [] => constructor
    | |- Forall _ (_ :: _) =>
        let Hk := fresh "Hk" in
        apply Forall_cons in Hnd as [Hk Hnd];
        constructor; [apply stages_keep_inputs in Hk; builder_needs Hk|]
    end.
Qed.

(** A run of the builder that returns has found every one of its
    unconditional inputs in [mP]: an [mP] that lacks one of them makes the
    builder raise. *)
Theorem returning_run_had_inputs (s : store) (r : RandomState) s' r' :
  initializeConnectionMatrices s r = Ok tt s' r' →
  ∀ k, k ∈ required_inputs → is_Some (s !! k).
Proof.
  intros H k Hin.
  pose proof builder_needs_inputs as Hall. rewrite Forall_forall in Hall.
  exact (Hall k Hin s r tt s' r' H).
Qed.

Lemma returning_run_had_inputs_witness :
  ∃ s' r', initializeConnectionMatrices example_mP example_rs = Ok tt s' r' ∧
    ∀ k, k ∈ required_inputs → is_Some (example_mP !! k).
Proof.
  destruct (returns_Ok _ example_returns) as ([] & s' & r' & E).
  exists s', r'. split; [exact E|].
  exact (returning_run_had_inputs example_mP example_rs s' r' E).
Defined.

(** ** The inputs of each mode *)

Ltac needs_of H Hin :=
  lazymatch type of H with
  | ?m ?s ?r = Ok ?a ?s' ?r' =>
      let N := fresh "N" in
      let k := lazymatch goal with |- is_Some (_ !! ?k) => k end in
      assert (N : needs k m);
      [ apply list_elem_of_In in Hin; simpl in Hin;
        repeat (destruct Hin as [<-|Hin]; [needs_tac|]); destruct Hin
      | exact (N s r a s' r' H) ]
  end.

Lemma probabilistic_mask_needs s r s' r' q k :
  stage_F2Rbinary s r = Ok tt s' r' → has_num s "RperFFrMu" q → (0 < q)%Q →
  k ∈ ["RperSFrMu"] → is_Some (s !! k).
Proof.
  unfold stage_F2Rbinary. intros H Hq Hpos Hin. step H. same_num Hq.
  destruct (Qlt_le_dec 0 q) as [_|Hle]; [|by apply Qle_not_lt in Hle].
  needs_of H Hin.
Qed.

Lemma capacity_mask_needs s r s' r' q k :
  stage_F2Rbinary s r = Ok tt s' r' → has_num s "RperFFrMu" q → (q <= 0)%Q →
  k ∈ ["RperFRawNum"] → is_Some (s !! k).
Proof.
  unfold stage_F2Rbinary. intros H Hq Hle Hin. step H. same_num Hq.
  destruct (Qlt_le_dec 0 q) as [Hlt|_]; [by apply Qle_not_lt in Hle|].
  needs_of H Hin.
Qed.

Lemma gamma_Rspont_needs s r s' r' q k :
  stage_Rspont s r = Ok tt s' r' → has_num s "spontRdistFlag" q → ¬ (q == 1)%Q →
  k ∈ ["spontRbase"] → is_Some (s !! k).
Proof.
  unfold stage_Rspont. intros H Hq Hne Hin. step H. same_num Hq.
  destruct (Qeq_bool q 1) eqn:E; [by apply Qeq_bool_eq in E|].
  needs_of H Hin.
Qed.

Lemma stage_PI2K_needs s r s' r' q k :
  stage_PI2K s r = Ok tt s' r' → has_num s "nPI" q → (0 < q)%Q →
  k ∈ ["nK"; "KperPIfrMu"; "PI2Kmu"; "PI2Kstd"; "hebMaxPIK"] → is_Some (s !! k).
Proof.
  unfold stage_PI2K. intros H Hq Hpos Hin. step H. same_num Hq.
  destruct (Qlt_le_dec 0 q) as [_|Hle]; [|by apply Qle_not_lt in Hle].
  needs_of H Hin.
Qed.

(** The inputs that only one mode reads.  A run that returns has found:
    in the probabilistic mask mode ([RperFFrMu > 0]) the threshold
    [RperSFrMu]; in the capacity mode [RperFRawNum]; with
    [spontRdistFlag] other than 1, [spontRbase]; with PIs ([nPI > 0]) the
    four [PI2K] parameters. *)
Theorem returning_run_had_mode_inputs (s : store) (r : RandomState) s' r' :
  initializeConnectionMatrices s r = Ok tt s' r' →
  (∀ q, has_num s "RperFFrMu" q → (0 < q)%Q →
        ∀ k, k ∈ ["RperSFrMu"] → is_Some (s !! k)) ∧
  (∀ q, has_num s "RperFFrMu" q → (q <= 0)%Q →
        ∀ k, k ∈ ["RperFRawNum"] → is_Some (s !! k)) ∧
  (∀ q, has_num s "spontRdistFlag" q → ¬ (q == 1)%Q →
        ∀ k, k ∈ ["spontRbase"] → is_Some (s !! k)) ∧
  (∀ q, has_num s "nPI" q → (0 < q)%Q →
        ∀ k, k ∈ ["KperPIfrMu"; "PI2Kmu"; "PI2Kstd"; "hebMaxPIK"] → is_Some (s !! k)).
Proof.
  intros H. apply builder_stages in H as
    (s1 & r1 & s2 & r2 & s3 & r3 & s4 & r4 & s5 & r5 & s6 & r6 & conn &
     s7 & r7 & s8 & r8 & s9 & r9 & s10 & r10 & s11 & r11 &
     H1 & H2 & H3 & H4 & H5 & H6 & H7 & H8 & H9 & H10 & H11 & H).
  split; [|split; [|split]].
  - intros q Hq Hpos k Hin. exact (probabilistic_mask_needs _ _ _ _ q k H1 Hq Hpos Hin).
  - intros q Hq Hle k Hin. exact (capacity_mask_needs _ _ _ _ q k H1 Hq Hle Hin).
  - intros q Hq Hne k Hin.
    carry Hq H1. carry Hq H2.
    pose proof (gamma_Rspont_needs _ _ _ _ q k H3 Hq Hne Hin) as Hs.
    assert (Hnd : k ∉ derived_fields).
    { apply list_elem_of_In in Hin. simpl in Hin. destruct Hin as [<-|[]].
      apply (bool_decide_unpack _). vm_compute. exact I. }
    destruct (stages_keep_inputs k Hnd) as (K1 & K2 & _).
    by rewrite <- (keeps_Ok k _ _ _ _ _ _ K1 H1), <- (keeps_Ok k _ _ _ _ _ _ K2 H2).
  - intros q Hq Hpos k Hin.
    carry Hq H1. carry Hq H2. carry Hq H3. carry Hq H4. carry Hq H5. carry Hq H6.
    carry Hq H7. carry Hq H8.
    assert (Hin' : k ∈ ["nK"; "KperPIfrMu"; "PI2Kmu"; "PI2Kstd"; "hebMaxPIK"])
      by (by apply list_elem_of_further).
    pose proof (stage_PI2K_needs _ _ _ _ q k H9 Hq Hpos Hin') as Hs.
    assert (Hnd : k ∉ derived_fields).
    { apply list_elem_of_In in Hin. simpl in Hin.
      destruct Hin as [<-|[<-|[<-|[<-|[]]]]]; apply (bool_decide_unpack _); vm_compute; exact I. }
    destruct (stages_keep_inputs k Hnd) as (K1 & K2 & K3 & K4 & K5 & K6 & K7 & K8 & _).
    by rewrite <- (keeps_Ok k _ _ _ _ _ _ K1 H1), <- (keeps_Ok k _ _ _ _ _ _ K2 H2),
      <- (keeps_Ok k _ _ _ _ _ _ K3 H3), <- (keeps_Ok k _ _ _ _ _ _ K4 H4),
      <- (keeps_Ok k _ _ _ _ _ _ K5 H5), <- (keeps_Ok k _ _ _ _ _ _ K6 H6),
      <- (keeps_Ok k _ _ _ _ _ _ K7 H7), <- (keeps_Ok k _ _ _ _ _ _ K8 H8).
Qed.

Lemma returning_run_had_mode_inputs_witness :
  ∃ s' r', initializeConnectionMatrices example_mP example_rs = Ok tt s' r' ∧
    is_Some (example_mP !! "RperFRawNum") ∧ is_Some (example_mP !! "spontRbase") ∧
    is_Some (example_mP !! "hebMaxPIK").
Proof.
  assert (Hm : has_num example_mP "RperFFrMu" 0) by (exists (VFloat 0); split; reflexivity).
  assert (Hf : has_num example_mP "spontRdistFlag" 2) by (exists (VInt 2); split; reflexivity).
  assert (Hp : has_num example_mP "nPI" 1) by (exists (VInt 1); split; reflexivity).
  destruct (returns_Ok _ example_returns) as ([] & s' & r' & E).
  exists s', r'. split; [exact E|].
  destruct (returning_run_had_mode_inputs example_mP example_rs s' r' E)
    as (_ & H2 & H3 & H4).
  split; [|split].
  - apply (H2 0%Q Hm); [discriminate | apply list_elem_of_here].
  - apply (H3 2%Q Hf); [discriminate | apply list_elem_of_here].
  - apply (H4 1%Q Hp); [reflexivity | apply (bool_decide_unpack _); vm_compute; exact I].
Defined.

(** ** The flag of the probabilistic mode (lines 31-41) *)

Lemma for_check {A} (l : list A) (cond : A → bool) e s r :
  for_ l (fun x => if cond x then raise e else ret tt) s r
  = if existsb cond l then Raise e s r else Ok tt s r.
Proof.
  induction l as [|x l IH]; [done|]. simpl. unfold bind at 1.
  destruct (cond x); [done|]. simpl. exact IH.
Qed.

Lemma orthogonalize_run s r n b :
  is_dim s "nR" n → s !! "F2Rbinary" = Some (VArr b) →
  orthogonalize s r
  = if crowded_row b n then Raise TypeError s r
    else Ok tt (<["F2Rbinary" := VArr b]> s) r.
Proof.
  intros Hn Hb. unfold orthogonalize.
  rewrite (bind_run _ _ _ _ _ _ _ (getarr_run _ _ _ _ Hb)).
  rewrite (bind_run _ _ _ _ _ _ _ (range_run _ _ _ _ Hn)).
  unfold bind at 1. rewrite (for_check (seq 0 n) (fun i => nlt (Fin 1) (nsum (row b i)))).
  fold (crowded_row b n). by destruct (crowded_row b n).
Qed.

Lemma probabilistic_mask_run s r q n c p v :
  has_num s "RperFFrMu" q → (0 < q)%Q →
  is_dim s "nR" n → is_dim s "nF" c → has_num s "RperSFrMu" p →
  s !! "makeFeaturesOrthogonalFlag" = Some v → is_true v →
  stage_F2Rbinary s r
  = orthogonalize (<["F2Rbinary" := VArr (below (Fin p) (uniform_draws r [n; c]))]> s)
                  (advance r (numel [n; c])).
Proof.
  intros Hq Hpos Hn Hc Hp Hv Ht. unfold stage_F2Rbinary.
  rewrite (bind_run _ _ _ _ _ _ _ (getnum_run _ _ r _ Hq)).
  destruct (Qlt_le_dec 0 q) as [_|Hle]; [|by apply Qle_not_lt in Hle].
  rewrite (bind_run _ _ _ _ _ _ _ (matrix_run _ _ _ r _ _ Hn Hc)).
  unfold bind at 1. unfold rand at 1.
  rewrite (bind_run _ _ _ _ _ _ _ (getnum_run _ _ _ _ Hp)).
  unfold bind at 1. unfold setattr at 1.
  set (s1 := <["F2Rbinary" := VArr (below (Fin p) (uniform_draws r [n; c]))]> s).
  assert (Hv1 : s1 !! "makeFeaturesOrthogonalFlag" = Some v)
    by (unfold s1; by rewrite lookup_insert_ne).
  change (NdArray [n; c] (draws (uniform r) r (numel [n; c])))
    with (uniform_draws r [n; c]).
  fold s1.
  rewrite (bind_run _ _ _ _ _ _ _ (attr_run _ s1 _ v Hv1)).
  by rewrite (bind_run _ _ _ _ _ _ _ (Ht _ _)).
Qed.

(** The flag never repairs a mask.  In the probabilistic mode with the
    flag set, the mask is the uniform draws below [RperSFrMu]; if one of
    its rows has more than one active entry, line 38 hands [r.rand] an
    index array and the builder raises [TypeError], the drawn mask left in
    [mP]; a run that returns has found no such row and left the mask as
    drawn. *)
Theorem flag_never_repairs (s : store) (r : RandomState) q n c p v :
  has_num s "RperFFrMu" q → (0 < q)%Q →
  is_dim s "nR" n → is_dim s "nF" c → has_num s "RperSFrMu" p →
  s !! "makeFeaturesOrthogonalFlag" = Some v → is_true v →
  let b := below (Fin p) (uniform_draws r [n; c]) in
  (crowded_row b n = true →
     initializeConnectionMatrices s r
     = Raise TypeError (<["F2Rbinary" := VArr b]> s) (advance r (numel [n; c]))) ∧
  (∀ s' r', initializeConnectionMatrices s r = Ok tt s' r' →
     crowded_row b n = false ∧ s' !! "F2Rbinary" = Some (VArr b)).
Proof.
  intros Hq Hpos Hn Hc Hp Hv Ht b.
  pose proof (probabilistic_mask_run s r q n c p v Hq Hpos Hn Hc Hp Hv Ht) as Hrun.
  fold b in Hrun.
  rewrite (orthogonalize_run _ _ n b) in Hrun;
    [|by apply is_dim_insert|by apply lookup_insert_eq].
  split.
  - intros Hcr. rewrite Hcr in Hrun.
    unfold initializeConnectionMatrices. by apply bind_raise.
  - intros s' r' H. apply builder_stages in H as
      (s1 & r1 & s2 & r2 & s3 & r3 & s4 & r4 & s5 & r5 & s6 & r6 & conn &
       s7 & r7 & s8 & r8 & s9 & r9 & s10 & r10 & s11 & r11 &
       H1 & H2 & H3 & H4 & H5 & H6 & H7 & H8 & H9 & H10 & H11 & H).
    rewrite Hrun in H1. destruct (crowded_row b n); [discriminate|].
    injection H1 as <- <-. split; [done|].
    kept "F2Rbinary" H; kept "F2Rbinary" H11; kept "F2Rbinary" H10; kept "F2Rbinary" H9;
    kept "F2Rbinary" H8; kept "F2Rbinary" H7; kept "F2Rbinary" H6; kept "F2Rbinary" H5;
    kept "F2Rbinary" H4; kept "F2Rbinary" H3; kept "F2Rbinary" H2.
    rewrite Hk, Hk0, Hk1, Hk2, Hk3, Hk4, Hk5, Hk6, Hk7, Hk8, Hk9.
    apply lookup_insert_eq.
Qed.

Lemma flag_never_repairs_witness :
  let b := below (Fin (1 # 2)) (uniform_draws example_rs [2; 2]%nat) in
  (crowded_row b 2 = true →
     initializeConnectionMatrices mP_flag example_rs
     = Raise TypeError (<["F2Rbinary" := VArr b]> mP_flag)
             (advance example_rs (numel [2; 2]%nat))) ∧
  (∀ s' r', initializeConnectionMatrices mP_flag example_rs = Ok tt s' r' →
     crowded_row b 2 = false ∧ s' !! "F2Rbinary" = Some (VArr b)).
Proof.
  apply (flag_never_repairs mP_flag example_rs 1%Q 2 2 (1 # 2)%Q (VBool true)).
  - exists (VFloat 1). split; [vm_compute; reflexivity | reflexivity].
  - reflexivity.
  - exists (VInt 2), 2%Z. split; [vm_compute; reflexivity|].
    split; [reflexivity|]. split; [lia | reflexivity].
  - exists (VInt 2), 2%Z. split; [vm_compute; reflexivity|].
    split; [reflexivity|]. split; [lia | reflexivity].
  - exists (VFloat (1 # 2)). split; [vm_compute; reflexivity | reflexivity].
  - vm_compute. reflexivity.
  - intros s r. reflexivity.
Defined.

(** ** Masks and weights (lines 57-60, 157-161, 172-177) *)

Lemma masked_zip (g : num → num) l : ∀ m,
  length l = length m → Forall finite l →
  (∀ y, is_zero y → is_zero (g y)) →
  Forall2 (fun x y => is_zero x → is_zero y) m (map g (zip_with nmul l m)).
Proof.
  induction l as [|x l IH]; intros [|y m] Hlen Hf Hg; simpl in *; try discriminate.
  - constructor.
  - apply Forall_cons in Hf as [Hx Hf]. constructor; [|apply IH; [lia|done|done]].
    intros Hy. by apply Hg, is_zero_nmul_r.
Qed.

Lemma is_zero_clamp y : is_zero y → is_zero (nmaximum (Fin 0) y).
Proof.
  destruct y as [q| | |]; try done. simpl. intros Hq. rewrite Hq. by apply Q.max_l.
Qed.

Lemma is_zero_cap c y :
  (0 <= c)%Q → is_zero y → is_zero (if ngt y (Fin c) then Fin c else y).
Proof.
  intros Hc Hy. destruct (ngt y (Fin c)) eqn:E; [|done].
  destruct y as [q| | |]; try done. simpl in Hy. exfalso.
  unfold ngt, nlt in E. cbn in E. destruct (c ?= q)%Q eqn:E'; try done.
  apply Qlt_alt in E'. rewrite Hy in E'. by apply Qlt_not_le in E'.
Qed.

Lemma capacity_step_shaped mx nR counts j s r c' s' r' :
  capacity_step mx nR counts j s r = Ok c' s' r' →
  (∃ b, s !! "F2Rbinary" = Some (VArr b) ∧ well_shaped b) →
  ∃ b, s' !! "F2Rbinary" = Some (VArr b) ∧ well_shaped b.
Proof.
  unfold capacity_step. intros H (b & Hb & Hw).
  apply bind_Ok in H as (a & ? & ? & (-> & -> & _)%randint_Ok & H).
  do 2 step H. unfold ret in H. injection H as <- <- <-.
  eexists. rewrite lookup_insert_eq. split; [reflexivity|].
  unfold well_shaped in *. cbn [set2 data shape]. by rewrite length_insert.
Qed.

Lemma capacity_mask_shaped s r s' r' :
  capacity_mask s r = Ok tt s' r' →
  ∃ b, s' !! "F2Rbinary" = Some (VArr b) ∧ well_shaped b.
Proof.
  unfold capacity_mask. intros H.
  apply bind_Ok in H as (sh & ? & ? & Hm & H).
  apply matrix_Ok in Hm as (-> & -> & n & c & -> & Hn & Hc).
  do 5 step H.
  apply bind_Ok in H as ([] & s1 & r1 & Hz & H).
  assert (s1 = <["F2Rbinary" := VArr (zeros [n; c])]> s) as ->.
  { destruct (Qeq_bool _ _); [discriminate|]. unfold ret in Hz. by injection Hz as <- <-. }
  apply bind_Ok in H as (rounds & ? & ? & (-> & ->)%range_Ok & H).
  apply bind_Ok in H as (counts & s2 & r2 & Hloop & H). finish H.
  eapply (foldM_invariant
            (fun s => ∃ b, s !! "F2Rbinary" = Some (VArr b) ∧ well_shaped b));
    [|exact Hloop|].
  - intros b i sa ra b' sb rb Hin Hsa.
    apply bind_Ok in Hin as (cols & ? & ? & (-> & ->)%range_Ok & Hin).
    eapply (foldM_invariant
              (fun s => ∃ b, s !! "F2Rbinary" = Some (VArr b) ∧ well_shaped b));
      [|exact Hin|exact Hsa].
    intros ? ? ? ? ? ? ?. apply capacity_step_shaped.
  - eexists. rewrite lookup_insert_eq. split; [reflexivity|].
    unfold well_shaped. cbn [zeros full data shape]. by rewrite repeat_length.
Qed.

Lemma stage_F2Rbinary_shaped s r s' r' :
  stage_F2Rbinary s r = Ok tt s' r' →
  ∃ b, s' !! "F2Rbinary" = Some (VArr b) ∧ well_shaped b.
Proof.
  unfold stage_F2Rbinary. intros H. step H.
  destruct (Qlt_le_dec 0 _); [|by apply capacity_mask_shaped in H].
  apply bind_Ok in H as (sh & ? & ? & Hm & H).
  apply matrix_Ok in Hm as (-> & -> & n & c & -> & Hn & Hc).
  do 4 step H.
  apply bind_Ok in H as (t & s1 & r1 & Ht & H).
  assert (s1 !! "F2Rbinary" = Some (VArr (below (Fin a0) (uniform_draws r [n; c])))) as Hb.
  { rewrite (keeps_Ok "F2Rbinary" _ _ _ _ _ _ (keeps_truthy _ _) Ht).
    apply lookup_insert_eq. }
  assert (Hw : well_shaped (below (Fin a0) (uniform_draws r [n; c]))).
  { unfold well_shaped. cbn [below amap uniform_draws data shape].
    by rewrite length_map, length_draws. }
  destruct t.
  - unfold orthogonalize in H. step H.
    apply bind_Ok in H as (rows & ? & ? & (-> & ->)%range_Ok & H).
    apply bind_Ok in H as ([] & s2 & r2 & Hfor & H). finish H.
    eexists. rewrite lookup_insert_eq. split; [reflexivity|done].
  - unfold ret in H. injection H as <- <-. eauto.
Qed.

Lemma stage_F2R_masked s r s' r' b :
  stage_F2R s r = Ok tt s' r' →
  s !! "F2Rbinary" = Some (VArr b) → Forall finite (data b) → well_shaped b →
  respects_mask s' "F2Rbinary" "F2R".
Proof.
  unfold stage_F2R. intros H Hb Hf Hw.
  do 8 step H. finish H.
  exists b. eexists. split; [by rewrite !lookup_insert_ne|].
  split; [apply lookup_insert_eq|]. split; [done|].
  cbn [clamp0 amap azip data scale]. apply masked_zip.
  - rewrite length_zip_with, !length_map, length_draws. unfold well_shaped in Hw. lia.
  - apply (Forall_zip_with finite finite); [intros; by apply finite_nadd| |].
    + apply (Forall_map_num finite); [intros; by apply finite_nmul|done].
    + apply (Forall_map_num finite); [intros; by apply finite_nmul|]. apply draws_finite.
  - apply is_zero_clamp.
Qed.

Lemma capped_masked c x m :
  (0 <= c)%Q → Forall finite (data x) → length (data x) = length (data m) →
  shape x = shape m →
  zero_where_masked m (cap c (azip nmul (clamp0 x) m)).
Proof.
  intros Hc Hx Hl E.
  split; [done|]. cbn [cap amap azip clamp0 data]. apply masked_zip.
  - by rewrite length_map.
  - apply (Forall_map_num finite); [intros; by apply finite_nmaximum|done].
  - intros y. by apply is_zero_cap.
Qed.

Ltac same_dims :=
  rewrite ?is_dim_insert in * by discriminate;
  repeat match goal with
    | H1 : is_dim ?s ?k ?n, H2 : is_dim ?s ?k ?m |- _ =>
        tryif constr_eq n m then fail else
          (pose proof (is_dim_fun _ _ _ _ H1 H2); subst; clear H2)
    end.

Lemma stage_K2E_masked s r s' r' c :
  stage_K2E s r = Ok tt s' r' → has_num s "hebMaxKE" c → (0 <= c)%Q →
  respects_mask s' "K2EconnMatrix" "K2E".
Proof.
  unfold stage_K2E. intros H Hc Hpos.
  apply bind_Ok in H as (sh & ? & ? & Hm & H).
  apply matrix_Ok in Hm as (-> & -> & n1 & n2 & -> & Hn1 & Hn2).
  do 3 step H.
  apply bind_Ok in H as (x & ? & ? & Hx & H).
  apply noisy_matrix_Ok in Hx as (-> & mu & sd & n1' & n2' & _ & _ & Hn1' & Hn2' & -> & ->).
  same_dims.
  do 6 step H. same_num Hc. finish H.
  eexists _, _. split; [lookup_now|]. split; [lookup_now|].
  apply capped_masked; [done|apply noise_finite| |done].
  rewrite length_noise. cbn [below amap data]. by rewrite length_map, length_draws.
Qed.

Lemma stage_PI2K_masked s r s' r' n c :
  stage_PI2K s r = Ok tt s' r' → has_num s "nPI" n → (0 < n)%Q →
  has_num s "hebMaxPIK" c → (0 <= c)%Q →
  respects_mask s' "PI2Kconn" "PI2K".
Proof.
  unfold stage_PI2K. intros H Hn Hlt Hc Hpos. step H. same_num Hn.
  destruct (Qlt_le_dec 0 n) as [_|Hle]; [|by apply Qle_not_lt in Hle].
  apply bind_Ok in H as (sh & ? & ? & Hm & H).
  apply matrix_Ok in Hm as (-> & -> & n1 & n2 & -> & Hn1 & Hn2).
  do 3 step H.
  apply bind_Ok in H as (x & ? & ? & Hx & H).
  apply noisy_matrix_Ok in Hx as (-> & mu & sd & n1' & n2' & _ & _ & Hn1' & Hn2' & -> & ->).
  same_dims.
  do 6 step H. same_num Hc. finish H.
  eexists _, _. split; [lookup_now|]. split; [lookup_now|].
  apply capped_masked; [done|apply noise_finite| |done].
  rewrite length_noise. cbn [below amap data]. by rewrite length_map, length_draws.
Qed.

Lemma respects_mask_kept (s s' : store) km kw :
  s' !! km = s !! km → s' !! kw = s !! kw → respects_mask s km kw → respects_mask s' km kw.
Proof. intros E1 E2 (m & w & Hm & Hw & Hz). exists m, w. by rewrite E1, E2. Qed.

(** Where the mask is stored beside the weights, the weights respect it in
    the model the builder returns: [F2R] has the shape of [F2Rbinary] and
    is zero wherever [F2Rbinary] is; so are [K2E] under [K2EconnMatrix]
    when the ceiling [hebMaxKE] is not negative, and, with PIs, [PI2K]
    under [PI2Kconn] when [hebMaxPIK] is not negative. *)
Theorem stored_masks_respected (s : store) (r : RandomState) s' r' :
  initializeConnectionMatrices s r = Ok tt s' r' →
  respects_mask s' "F2Rbinary" "F2R" ∧
  (∀ c, has_num s "hebMaxKE" c → (0 <= c)%Q → respects_mask s' "K2EconnMatrix" "K2E") ∧
  (∀ n c, has_num s "nPI" n → (0 < n)%Q → has_num s "hebMaxPIK" c → (0 <= c)%Q →
          respects_mask s' "PI2Kconn" "PI2K").
Proof.
  intros H. apply builder_stages in H as
    (s1 & r1 & s2 & r2 & s3 & r3 & s4 & r4 & s5 & r5 & s6 & r6 & conn &
     s7 & r7 & s8 & r8 & s9 & r9 & s10 & r10 & s11 & r11 &
     H1 & H2 & H3 & H4 & H5 & H6 & H7 & H8 & H9 & H10 & H11 & H).
  split; [|split].
  - destruct (stage_F2Rbinary_shaped _ _ _ _ H1) as (b & Hb & Hw).
    destruct (stage_F2Rbinary_finite _ _ _ _ H1) as (b' & Hb' & Hf).
    rewrite Hb in Hb'. injection Hb' as <-.
    pose proof (stage_F2R_masked _ _ _ _ b H2 Hb Hf Hw) as Hm.
    eapply respects_mask_kept; [| |exact Hm].
    + kept "F2Rbinary" H; kept "F2Rbinary" H11; kept "F2Rbinary" H10; kept "F2Rbinary" H9;
      kept "F2Rbinary" H8; kept "F2Rbinary" H7; kept "F2Rbinary" H6; kept "F2Rbinary" H5;
      kept "F2Rbinary" H4; kept "F2Rbinary" H3. congruence.
    + kept "F2R" H; kept "F2R" H11; kept "F2R" H10; kept "F2R" H9;
      kept "F2R" H8; kept "F2R" H7; kept "F2R" H6; kept "F2R" H5;
      kept "F2R" H4; kept "F2R" H3. congruence.
  - intros c Hc Hpos.
    carry Hc H1. carry Hc H2. carry Hc H3. carry Hc H4. carry Hc H5. carry Hc H6.
    carry Hc H7. carry Hc H8. carry Hc H9.
    pose proof (stage_K2E_masked _ _ _ _ c H10 Hc Hpos) as Hm.
    eapply respects_mask_kept; [| |exact Hm].
    + kept "K2EconnMatrix" H; kept "K2EconnMatrix" H11. congruence.
    + kept "K2E" H; kept "K2E" H11. congruence.
  - intros n c Hn Hlt Hc Hpos.
    carry Hc H1. carry Hc H2. carry Hc H3. carry Hc H4. carry Hc H5. carry Hc H6.
    carry Hc H7. carry Hc H8.
    carry Hn H1. carry Hn H2. carry Hn H3. carry Hn H4. carry Hn H5. carry Hn H6.
    carry Hn H7. carry Hn H8.
    pose proof (stage_PI2K_masked _ _ _ _ n c H9 Hn Hlt Hc Hpos) as Hm.
    eapply respects_mask_kept; [| |exact Hm].
    + kept "PI2Kconn" H; kept "PI2Kconn" H11; kept "PI2Kconn" H10. congruence.
    + kept "PI2K" H; kept "PI2K" H11; kept "PI2K" H10. congruence.
Qed.

Lemma stored_masks_respected_witness :
  ∃ s' r', initializeConnectionMatrices example_mP example_rs = Ok tt s' r' ∧
    respects_mask s' "F2Rbinary" "F2R" ∧ respects_mask s' "K2EconnMatrix" "K2E" ∧
    respects_mask s' "PI2Kconn" "PI2K".
Proof.
  assert (HK : has_num example_mP "hebMaxKE" 5) by (exists (VFloat 5); split; reflexivity).
  assert (HP : has_num example_mP "hebMaxPIK" 5) by (exists (VFloat 5); split; reflexivity).
  assert (Hn : has_num example_mP "nPI" 1) by (exists (VInt 1); split; reflexivity).
  destruct (returns_Ok _ example_returns) as ([] & s' & r' & E).
  exists s', r'. split; [exact E|].
  destruct (stored_masks_respected example_mP example_rs s' r' E) as (H1 & H2 & H3).
  split; [exact H1|]. split.
  - apply (H2 5%Q HK). discriminate.
  - apply (H3 1%Q 5%Q Hn); [reflexivity | exact HP | discriminate].
Defined.

(** ** The PI matrices (lines 150-152, 196-198) *)

Lemma stage_G2PI_derived s r s' r' :
  stage_G2PI s r = Ok tt s' r' →
  ∃ g l c m, s' !! "G2PI" = Some (VArr g) ∧ s' !! "L2G" = Some (VArr l) ∧
    s' !! "R2PIcol" = Some (VArr c) ∧ s' !! "G2PIconn" = Some (VArr m) ∧
    s' !! "L2PI" = Some (VArr (matmul g l)) ∧
    s' !! "R2PI" = Some (VArr (mul_rows g (transpose c))).
Proof.
  unfold stage_G2PI. intros H.
  do 19 step H. finish H.
  eexists _, _, _, _. repeat split; try lookup_now.
  all: repeat (rewrite lookup_insert_ne by discriminate); eassumption.
Qed.

Lemma octo_of_G_store mult sd s r x s' r' : octo_of_G mult sd s r = Ok x s' r' → s' = s.
Proof.
  unfold octo_of_G. intros H. do 5 step H. unfold ret in H. by injection H as <- <- <-.
Qed.

Lemma stage_octo_derived s r s' r' g m q :
  stage_octo s r = Ok tt s' r' →
  s !! "G2PI" = Some (VArr g) → s !! "G2PIconn" = Some (VArr m) →
  has_num s "octo2PImult" q →
  ∃ o, s' !! "octo2G" = Some (VArr o) ∧
    s' !! "octo2PIwts" = Some (VArr (mul_rows g (scale q (transpose o)))) ∧
    s' !! "octo2PI"
      = Some (VArr (azip ndiv (sum_axis1 (mul_rows g (scale q (transpose o))))
                              (sum_axis1 m))).
Proof.
  unfold stage_octo. intros H Hg Hm Hq.
  step H. open_noisy. step H. step H. open_noisy. step H.
  apply bind_Ok in H as (xP & ? & ? & ->%octo_of_G_store & H). step H.
  apply bind_Ok in H as (xL & ? & ? & ->%octo_of_G_store & H). step H.
  apply bind_Ok in H as (xR & ? & ? & ->%octo_of_G_store & H). step H.
  do 7 step H. same_num Hq. step H. open_noisy. finish H.
  eexists. split; [lookup_now|]. split; lookup_now.
Qed.

(** The PI matrices of the returned model are functions of its other
    attributes: [L2PI] is the product [G2PI @ L2G] of line 150 (the matrix
    line 117 drew with [L2PIstd] is overwritten), [R2PI] is [G2PI] scaled
    column by column by [R2PIcol], [octo2PIwts] is [G2PI] scaled by
    [octo2PImult * octo2G], and [octo2PI] is its row sums over those of
    [G2PIconn]. *)
Theorem PI_matrices_follow (s : store) (r : RandomState) s' r' q :
  initializeConnectionMatrices s r = Ok tt s' r' →
  has_num s "octo2PImult" q → PI_matrices_derived s' q.
Proof.
  intros H Hq. apply builder_stages in H as
    (s1 & r1 & s2 & r2 & s3 & r3 & s4 & r4 & s5 & r5 & s6 & r6 & conn &
     s7 & r7 & s8 & r8 & s9 & r9 & s10 & r10 & s11 & r11 &
     H1 & H2 & H3 & H4 & H5 & H6 & H7 & H8 & H9 & H10 & H11 & H).
  destruct (stage_G2PI_derived _ _ _ _ H8) as (g & l & c & m & Hg & Hl & Hc & Hm & HL & HR).
  carry Hq H1. carry Hq H2. carry Hq H3. carry Hq H4. carry Hq H5. carry Hq H6.
  carry Hq H7. carry Hq H8. carry Hq H9. carry Hq H10.
  assert (Hg10 : s10 !! "G2PI" = Some (VArr g)).
  { kept "G2PI" H10; kept "G2PI" H9. congruence. }
  assert (Hm10 : s10 !! "G2PIconn" = Some (VArr m)).
  { kept "G2PIconn" H10; kept "G2PIconn" H9. congruence. }
  destruct (stage_octo_derived _ _ _ _ g m q H11 Hg10 Hm10 Hq) as (o & Ho & Hw & HP).
  exists g, l, c, o, m, (mul_rows g (scale q (transpose o))).
  split; [kept "G2PI" H; kept "G2PI" H11; congruence|].
  split; [kept "L2G" H; kept "L2G" H11; kept "L2G" H10; kept "L2G" H9; congruence|].
  split; [kept "R2PIcol" H; kept "R2PIcol" H11; kept "R2PIcol" H10; kept "R2PIcol" H9;
          congruence|].
  split; [kept "octo2G" H; congruence|].
  split; [kept "G2PIconn" H; kept "G2PIconn" H11; congruence|].
  split; [kept "L2PI" H; kept "L2PI" H11; kept "L2PI" H10; kept "L2PI" H9; congruence|].
  split; [kept "R2PI" H; kept "R2PI" H11; kept "R2PI" H10; kept "R2PI" H9; congruence|].
  split; [kept "octo2PIwts" H; congruence|].
  split; [done|]. kept "octo2PI" H. congruence.
Qed.

Lemma PI_matrices_follow_witness :
  ∃ s' r', initializeConnectionMatrices example_mP example_rs = Ok tt s' r' ∧
    PI_matrices_derived s' 1.
Proof.
  assert (Hq : has_num example_mP "octo2PImult" 1) by (exists (VFloat 1); split; reflexivity).
  destruct (returns_Ok _ example_returns) as ([] & s' & r' & E).
  exists s', r'. split; [exact E|].
  exact (PI_matrices_follow example_mP example_rs s' r' 1%Q E Hq).
Defined.

(** * The pixel selection *)

Lemma In_insert_desc x l y : In y (insert_desc x l) ↔ y = x ∨ In y l.
Proof.
  induction l as [|z l IH]; simpl; [intuition|].
  destruct (Qle_bool z x); simpl; [intuition|]. rewrite IH. intuition.
Qed.

Lemma In_sort_desc l y : In y (sort_desc l) ↔ In y l.
Proof.
  induction l as [|x l IH]; simpl; [done|]. rewrite In_insert_desc, IH. intuition.
Qed.

Lemma length_insert_desc x l : length (insert_desc x l) = S (length l).
Proof.
  induction l as [|z l IH]; simpl; [done|]. destruct (Qle_bool z x); simpl; [done|].
  by rewrite IH.
Qed.

Lemma length_sort_desc l : length (sort_desc l) = length l.
Proof. induction l as [|x l IH]; simpl; [done|]. by rewrite length_insert_desc, IH. Qed.

Lemma Qmax_cases x z : Qmax x z = x ∨ Qmax x z = z.
Proof. unfold Qmax, GenericMinMax.gmax. destruct (x ?= z)%Q; auto. Qed.

Lemma fold_Qmax_spec l : ∀ x,
  (x = fold_left Qmax l x ∨ In (fold_left Qmax l x) l) ∧
  (x <= fold_left Qmax l x)%Q ∧ (∀ y, In y l → (y <= fold_left Qmax l x)%Q).
Proof.
  induction l as [|z l IH]; intros x; simpl.
  - split; [by left|]. split; [apply Qle_refl|]. intros y [].
  - destruct (IH (Qmax x z)) as (Hin & Hle & Hall).
    assert (Hx : (x <= Qmax x z)%Q) by apply Q.le_max_l.
    assert (Hz : (z <= Qmax x z)%Q) by apply Q.le_max_r.
    split; [|split].
    + destruct Hin as [E|Hin]; [|by right; right].
      destruct (Qmax_cases x z) as [E'|E'].
      * left. by rewrite <- E, E'.
      * right. left. by rewrite <- E, E'.
    + by apply (Qle_trans _ (Qmax x z)).
    + intros y [<-|Hy]; [by apply (Qle_trans _ (Qmax x z))|by apply Hall].
Qed.

Lemma max_of_spec vals m :
  max_of vals = Some m → In m vals ∧ ∀ y, In y vals → (y <= m)%Q.
Proof.
  destruct vals as [|x l]; [discriminate|]. simpl. intros [= <-].
  destruct (fold_Qmax_spec l x) as (Hin & Hle & Hall).
  split; [destruct Hin as [<-|?]; [by left|by right]|].
  intros y [<-|Hy]; [done|by apply Hall].
Qed.

Lemma max_of_None vals : max_of vals = None → vals = [].
Proof. by destruct vals. Qed.

Lemma mark_above this thresh p :
  (∀ x, above p x = true → Qle_bool thresh x = true) →
  mark this thresh (map (map (above p)) this) = map (map (Qle_bool thresh)) this.
Proof.
  intros Hp. unfold mark. induction this as [|row this IH]; [done|]. simpl. f_equal; [|done].
  clear IH. induction row as [|x row IH]; [done|]. simpl. f_equal; [|done].
  specialize (Hp x). destruct (above p x); [by rewrite Hp|]. by rewrite orb_false_r.
Qed.

Lemma positive_count (f : Q → bool) row :
  (0 <? length (List.filter (fun b : bool => b) (map f row)))%nat = existsb f row.
Proof. induction row as [|x row IH]; [done|]. simpl. by destruct (f x). Qed.

Lemma filter_index {A} (q : A → bool) (d : A) l : ∀ a,
  length (List.filter (fun i => q (nth (i - a) l d)) (seq a (length l)))
  = length (List.filter q l).
Proof.
  induction l as [|x l IH]; intros a; [done|].
  cbn [length seq List.filter]. rewrite Nat.sub_diag.
  change (nth 0 (x :: l) d) with x.
  assert (E : List.filter (fun i => q (nth (i - a) (x :: l) d)) (seq (S a) (length l))
              = List.filter (fun i => q (nth (i - S a) l d)) (seq (S a) (length l))).
  { apply filter_ext_in. intros i [Hi _]%in_seq.
    replace (i - a)%nat with (S (i - S a)) by lia. done. }
  rewrite E. destruct (q x); cbn [length]; by rewrite IH.
Qed.

Lemma num_active_inds ap : num_active ap = length (nonzero_inds ap).
Proof.
  unfold num_active, nonzero_inds.
  rewrite <- (filter_index (fun a => (0 <? a)%nat) 0%nat ap 0%nat).
  f_equal. apply filter_ext. intros i. by rewrite Nat.sub_0_r.
Qed.

Lemma inds_at_least this t :
  nonzero_inds (row_sums (map (map (Qle_bool t)) this)) = pixels_at_least this t.
Proof.
  unfold nonzero_inds, row_sums, pixels_at_least. rewrite !length_map, map_map.
  apply filter_ext. intros i.
  change 0%nat with ((fun row => length (List.filter (fun b : bool => b)
                                          (map (Qle_bool t) row))) []) at 2.
  rewrite map_nth. apply positive_count.
Qed.

Lemma filter_length_le {A} (p q : A → bool) l :
  (∀ x, In x l → p x = true → q x = true) →
  (length (List.filter p l) ≤ length (List.filter q l))%nat.
Proof.
  induction l as [|x l IH]; intros H; [done|]. simpl.
  assert (IH' := IH (fun y Hy => H y (or_intror Hy))).
  specialize (H x (or_introl eq_refl)).
  destruct (p x), (q x); simpl; first [lia | by specialize (H eq_refl)].
Qed.

Lemma filter_length_lt {A} (q : A → bool) l x :
  In x l → q x = false → (length (List.filter q l) < length l)%nat.
Proof.
  induction l as [|y l IH]; intros Hin Hq; [destruct Hin|]. simpl.
  pose proof (filter_length_le q (fun _ => true) l (fun _ _ _ => eq_refl)) as Hle.
  rewrite (forallb_filter_id (fun _ : A => true) l) in Hle
    by (apply forallb_forall; done).
  destruct Hin as [->|Hin].
  - rewrite Hq. lia.
  - specialize (IH Hin Hq). destruct (q y); simpl; lia.
Qed.

Lemma at_least_mono this t t' :
  (t <= t')%Q → (length (pixels_at_least this t') ≤ length (pixels_at_least this t))%nat.
Proof.
  intros Hle. apply filter_length_le. intros i _ [x [Hx Ht']]%existsb_exists.
  apply existsb_exists. exists x. split; [done|].
  apply Qle_bool_iff. apply Qle_bool_iff in Ht'. by apply (Qle_trans _ t').
Qed.

Lemma above_le p thresh x :
  above p thresh = false → above p x = true → Qle_bool thresh x = true.
Proof.
  destruct p as [p|]; [|discriminate]. simpl. intros Ht Hx.
  apply Qle_bool_iff. apply Qle_bool_iff in Hx.
  destruct (Qlt_le_dec thresh p) as [Hlt|Hle].
  - apply Qlt_le_weak. by apply (Qlt_le_trans _ p).
  - apply Qle_bool_iff in Hle. congruence.
Qed.

(** The loop from any of its states: [vals] holds the values below the
    last threshold [p], [thisLogical] marks the values from [p] on, and no
    value from [p] on gave enough pixels. *)
Lemma select_loop_spec this nf : ∀ fuel p vals,
  (length vals < fuel)%nat →
  (∀ x, In x vals ↔ In x (concat this) ∧ above p x = false) →
  (∀ t, In t (concat this) → above p t = true →
        (Z.of_nat (length (pixels_at_least this t)) < nf)%Z) →
  ∃ res, select_loop fuel this nf (map (map (above p)) this) vals = Some res ∧
    match res with
    | inr inds =>
        ∃ t, In t (concat this) ∧ inds = pixels_at_least this t ∧
             (nf ≤ Z.of_nat (length inds))%Z ∧
             ∀ t', In t' (concat this) → (t < t')%Q →
                   (Z.of_nat (length (pixels_at_least this t')) < nf)%Z
    | inl e =>
        e = ValueError "zero-size array to reduction operation maximum which has no identity" ∧
        ∀ t, In t (concat this) → (Z.of_nat (length (pixels_at_least this t)) < nf)%Z
    end.
Proof.
  induction fuel as [|fuel IH]; intros p vals Hfuel Hvals Hprev; [lia|].
  simpl. destruct (max_of vals) as [thresh|] eqn:Emax.
  - destruct (max_of_spec _ _ Emax) as [Hin Hmax].
    destruct (proj1 (Hvals thresh) Hin) as [Hall Hp].
    rewrite (mark_above this thresh p (fun x => above_le p thresh x Hp)).
    rewrite num_active_inds, inds_at_least.
    destruct (Z.leb_spec nf (Z.of_nat (length (pixels_at_least this thresh)))) as [Hstop|Hgo].
    + eexists. split; [reflexivity|]. exists thresh. repeat split; try done.
      intros t' Ht' Hlt. apply Hprev; [done|].
      destruct (above p t') eqn:E; [done|]. exfalso.
      assert (In t' vals) by (by apply Hvals).
      apply (Qlt_not_le _ _ Hlt). by apply Hmax.
    + apply (IH (Some thresh)).
      * assert (length (List.filter (fun v => negb (Qle_bool thresh v)) vals) < length vals)%nat;
          [|lia].
        apply (filter_length_lt _ _ thresh Hin).
        by rewrite (proj2 (Qle_bool_iff thresh thresh) (Qle_refl _)).
      * intros x. rewrite filter_In, Hvals. simpl. rewrite negb_true_iff. split.
        -- by intros [[? ?] ?].
        -- intros [? Hx]. repeat split; try done.
           destruct (above p x) eqn:E; [|done].
           by rewrite (above_le p thresh x Hp E) in Hx.
      * intros t Ht Habove. simpl in Habove. apply Qle_bool_iff in Habove.
        pose proof (at_least_mono this thresh t Habove). lia.
  - apply max_of_None in Emax. subst vals.
    eexists. split; [reflexivity|]. split; [done|].
    intros t Ht. apply Hprev; [done|].
    destruct (above p t) eqn:E; [done|]. by destruct (proj2 (Hvals t) (conj Ht E)).
Qed.

Lemma selectActivePixels_spec this nf :
  ∃ res, selectActivePixels this nf = Some res ∧
    match res with
    | inr inds =>
        ∃ t, In t (concat this) ∧ inds = pixels_at_least this t ∧
             (nf ≤ Z.of_nat (length inds))%Z ∧
             ∀ t', In t' (concat this) → (t < t')%Q →
                   (Z.of_nat (length (pixels_at_least this t')) < nf)%Z
    | inl e =>
        e = ValueError "zero-size array to reduction operation maximum which has no identity" ∧
        ∀ t, In t (concat this) → (Z.of_nat (length (pixels_at_least this t)) < nf)%Z
    end.
Proof.
  unfold selectActivePixels. cbv zeta.
  apply (select_loop_spec this nf _ None).
  - lia.
  - intros x. rewrite In_sort_desc. simpl. intuition.
  - intros t _ Ht. discriminate.
Qed.

Lemma min_exists (l : list Q) : l ≠ [] → ∃ m, In m l ∧ ∀ y, In y l → (m <= y)%Q.
Proof.
  induction l as [|x l IH]; [done|]. intros _. destruct l as [|z l].
  - exists x. split; [by left|]. intros y [<-|[]]. apply Qle_refl.
  - destruct (IH ltac:(done)) as (m & Hm & Hall).
    destruct (Qlt_le_dec x m) as [Hlt|Hle].
    + exists x. split; [by left|]. intros y [<-|Hy]; [apply Qle_refl|].
      apply Qlt_le_weak. by apply (Qlt_le_trans _ m); [|apply Hall].
    + exists m. split; [by right|]. intros y [<-|Hy]; [done|by apply Hall].
Qed.

Lemma In_row (this : averages) i (x : Q) : In x (nth i this []) → In x (concat this).
Proof.
  intros Hx. apply in_concat. exists (nth i this []). split; [|done].
  destruct (Nat.lt_ge_cases i (length this)) as [Hi|Hi]; [by apply nth_In|].
  rewrite nth_overflow in Hx by done. destruct Hx.
Qed.

Lemma at_least_min (this : averages) m :
  (∀ y, In y (concat this) → (m <= y)%Q) → pixels_at_least this m = pixels_with_values this.
Proof.
  intros Hm. apply filter_ext_in. intros i _.
  destruct (nth i this []) as [|x row] eqn:E; [done|]. simpl.
  assert (Hx : In x (concat this)) by (apply (In_row this i); rewrite E; by left).
  by rewrite (proj2 (Qle_bool_iff m x) (Hm x Hx)).
Qed.

Lemma at_least_le_values (this : averages) t :
  (length (pixels_at_least this t) ≤ length (pixels_with_values this))%nat.
Proof.
  apply filter_length_le. intros i _. by destruct (nth i this []).
Qed.

(** The loop of lines 52-59 always ends, and it ends in an error exactly
    when there are not enough pixels: with no class average at all, or
    with fewer pixels than [numFeatures], [vals] runs empty and
    [vals.max()] raises [ValueError]; otherwise indices are returned. *)
Theorem selection_fails_iff_short (this : averages) (numFeatures : Z) :
  ∃ res, selectActivePixels this numFeatures = Some res ∧
    ((∃ e, res = inl e) ↔
       concat this = [] ∨ (Z.of_nat (length (pixels_with_values this)) < numFeatures)%Z) ∧
    (∀ e, res = inl e →
          e = ValueError "zero-size array to reduction operation maximum which has no identity").
Proof.
  destruct (selectActivePixels_spec this numFeatures) as (res & Hres & Hpost).
  exists res. split; [done|]. destruct res as [e|inds].
  - destruct Hpost as [-> Hall]. split; [|by intros ? [= <-]].
    split; [intros _|by eauto].
    destruct (concat this) as [|x l] eqn:E; [by left|right].
    destruct (min_exists (x :: l) ltac:(done)) as (m & Hm & Hmin).
    rewrite <- E in Hm, Hmin, Hall. rewrite <- (at_least_min this m Hmin). by apply Hall.
  - destruct Hpost as (t & Ht & -> & Hn & _). split; [|discriminate].
    split; [by intros [? ?]|]. intros [E|Hshort]; [by rewrite E in Ht|].
    pose proof (at_least_le_values this t). lia.
Qed.

(** What the selection returns is a threshold cut: the pixels, in
    ascending order, that have a class average of at least [t], where [t]
    is the largest value among the class averages for which there are at
    least [numFeatures] such pixels.  So at least [numFeatures] pixels are
    returned, and more than that only through pixels tied at [t]. *)
Theorem selection_is_threshold_cut (this : averages) (numFeatures : Z) inds :
  selectActivePixels this numFeatures = Some (inr inds) →
  ∃ t, In t (concat this) ∧ inds = pixels_at_least this t ∧
       (numFeatures ≤ Z.of_nat (length inds))%Z ∧
       ∀ t', In t' (concat this) → (t < t')%Q →
             (Z.of_nat (length (pixels_at_least this t')) < numFeatures)%Z.
Proof.
  intros H. destruct (selectActivePixels_spec this numFeatures) as (res & Hres & Hpost).
  rewrite H in Hres. injection Hres as <-. exact Hpost.
Qed.

Lemma selection_is_threshold_cut_witness :
  selectActivePixels example_averages 2 = Some (inr [0; 1]%nat) ∧
  ∃ t, In t (concat example_averages) ∧ [0; 1]%nat = pixels_at_least example_averages t ∧
       (2 ≤ Z.of_nat (length [0; 1]%nat))%Z ∧
       ∀ t', In t' (concat example_averages) → (t < t')%Q →
             (Z.of_nat (length (pixels_at_least example_averages t')) < 2)%Z.
Proof.
  assert (E : selectActivePixels example_averages 2 = Some (inr [0; 1]%nat))
    by (vm_compute; reflexivity).
  split; [exact E|]. exact (selection_is_threshold_cut example_averages 2 [0; 1]%nat E).
Defined.
